(** * Readall: the RSVP core (tokenizer, focal point, delay, chapters,
      chunk reconciliation, playback position) as a shallow embedding.

    Sources embedded:
    - [src/services/rsvpUtils.ts]  calculateFocalIndex, calculateChunkDelay,
      algorithmicChunker, extractChapters;
    - [services/aiService.ts]      semanticChunkText (offset re-mapping);
    - [App.tsx]                    processAIChunks (merge of the chunk sets);
    - [store/useReadallStore.ts]   setCurrentIndex, advanceIndex, rewindIndex.

    JavaScript strings are sequences of UTF-16 code units, numbers are IEEE 754
    binary64 values (the Standard Library's [SpecFloat]), and regular
    expressions are run by a backtracking matcher that follows the order of
    alternatives and the greedy / lazy quantifiers of ECMAScript. *)

From Stdlib Require Import Ascii String.
From Stdlib Require Import ZArith NArith PArith Arith Bool Lia.
From Stdlib Require Import QArith Qpower Lqa.
From Stdlib Require Import Floats.
From Stdlib Require Import List Sorted.
Import ListNotations.
Close Scope Q_scope.

Set Warnings "-inexact-float".

(* ===================================================================== *)
(** ** JavaScript strings *)
(* ===================================================================== *)

Module JS.

(** A UTF-16 code unit. *)
Definition char := N.
Definition jsString := list char.

(** An ASCII literal of this development as a JavaScript string. *)
Definition ofString (s : string) : jsString :=
  List.map N_of_ascii (list_ascii_of_string s).

Definition inRange (lo hi c : N) : bool := (N.leb lo c && N.leb c hi)%bool.

(** LineTerminator: LF, CR, LS, PS. *)
Definition isLineTerminator (c : char) : bool :=
  (N.eqb c 10 || N.eqb c 13 || N.eqb c 8232 || N.eqb c 8233)%bool.

(** [\s], also the characters removed by [String.prototype.trim]:
    WhiteSpace (TAB, VT, FF, SP, NBSP, ZWNBSP and the Unicode space
    separators) together with LineTerminator. *)
Definition isWhiteSpace (c : char) : bool :=
  (N.eqb c 9 || N.eqb c 11 || N.eqb c 12 || N.eqb c 32 || N.eqb c 160
   || N.eqb c 5760 || inRange 8192 8202 c || N.eqb c 8239 || N.eqb c 8287
   || N.eqb c 12288 || N.eqb c 65279 || isLineTerminator c)%bool.

(** [\d] *)
Definition isDigit (c : char) : bool := inRange 48 57 c.
Definition isUpper (c : char) : bool := inRange 65 90 c.
Definition isLower (c : char) : bool := inRange 97 122 c.
(** [[A-Za-z]] *)
Definition isLetter (c : char) : bool := (isUpper c || isLower c)%bool.
(** [\w] = [[A-Za-z0-9_]] *)
Definition isWordChar (c : char) : bool :=
  (isLetter c || isDigit c || N.eqb c 95)%bool.

(** Canonicalize of a case-insensitive pattern without the [u] flag, on the
    ASCII letters: a code unit above 127 never canonicalizes to an ASCII one,
    and the patterns of the sources only name ASCII letters, so the mapping of
    the other cased letters is left out (they are mapped to themselves). *)
Definition canonicalize (c : char) : char :=
  if isLower c then (c - 32)%N else c.
Definition toLowerAscii (c : char) : char :=
  if isUpper c then (c + 32)%N else c.

Fixpoint trimStart (s : jsString) : jsString :=
  match s with
  | c :: s' => if isWhiteSpace c then trimStart s' else s
  | [] => []
  end.
Definition trimEnd (s : jsString) : jsString := rev (trimStart (rev s)).
(** [s.trim()] *)
Definition trim (s : jsString) : jsString := trimEnd (trimStart s).

(** [s.substring(a, b)] / [s.slice(a, b)] for [0 <= a <= b]. *)
Definition substring (s : jsString) (a b : nat) : jsString :=
  firstn (b - a) (skipn a s).

(** [s.slice(-1)]: the last code unit as a string, empty for the empty string. *)
Definition sliceLast (s : jsString) : jsString :=
  skipn (length s - 1) s.

Definition char_eqb (a b : char) : bool := N.eqb a b.

Fixpoint string_eqb (a b : jsString) : bool :=
  match a, b with
  | [], [] => true
  | x :: a', y :: b' => (N.eqb x y && string_eqb a' b')%bool
  | _, _ => false
  end.

(** [prefix p s]: [p] occurs in [s] at offset 0. *)
Fixpoint isPrefix (p s : jsString) : bool :=
  match p, s with
  | [], _ => true
  | x :: p', y :: s' => (N.eqb x y && isPrefix p' s')%bool
  | _ :: _, [] => false
  end.

(** The search of [indexOf] from offset [k] on the suffix [s] that starts
    there: the smallest offset [>= k] at which [p] occurs. *)
Fixpoint indexOfFrom (p s : jsString) (k : nat) : option nat :=
  if isPrefix p s then Some k
  else match s with
       | [] => None
       | _ :: s' => indexOfFrom p s' (S k)
       end.

(** [s.indexOf(p, position)]: the position is clamped into [0, s.length],
    the result is [-1] when there is no occurrence. *)
Definition indexOf (s p : jsString) (position : Z) : Z :=
  let k := Nat.min (Z.to_nat position) (length s) in
  match indexOfFrom p (skipn k s) k with
  | Some i => Z.of_nat i
  | None => (-1)%Z
  end.

(** [[...].includes(c)] on a list of one-character strings. *)
Definition includes (l : list jsString) (c : jsString) : bool :=
  existsb (string_eqb c) l.

End JS.

(* ===================================================================== *)
(** ** JavaScript numbers: IEEE 754 binary64 *)
(* ===================================================================== *)

Module Num.

Definition number := spec_float.

Definition mul : number -> number -> number := SF64mul.
Definition add : number -> number -> number := SF64add.
Definition div : number -> number -> number := SF64div.

(** An integer as a number (exact below 2^53 in absolute value, rounded to
    nearest-even above). *)
Definition ofZ (z : Z) : number := binary_normalize prec emax z 0 false.
Definition ofNat (n : nat) : number := ofZ (Z.of_nat n).

(** The decimal literals of the sources, rounded to binary64 as the
    JavaScript parser rounds them. *)
Definition lit_0_35 : number := Eval vm_compute in Prim2SF 0.35%float.
Definition lit_1_3 : number := Eval vm_compute in Prim2SF 1.3%float.
Definition lit_0_9 : number := Eval vm_compute in Prim2SF 0.9%float.
Definition lit_0_85 : number := Eval vm_compute in Prim2SF 0.85%float.

Definition ltb (x y : number) : bool := SFltb x y.
Definition leb (x y : number) : bool := SFleb x y.

(** [Math.floor]: NaN, the infinities and the zeros are returned unchanged. *)
Definition Math_floor (x : number) : number :=
  match x with
  | S754_finite s m e =>
      if (0 <=? e)%Z then x
      else binary_normalize prec emax
             (Z.div (cond_Zopp s (Zpos m)) (2 ^ (- e))) 0 s
  | _ => x
  end.

(** [Math.round]: the nearest integer, a tie going towards +infinity; the
    result of a value in [-0.5, 0) is -0. *)
Definition Math_round (x : number) : number :=
  match x with
  | S754_finite s m e =>
      if (0 <=? e)%Z then x
      else binary_normalize prec emax
             (Z.div (2 * cond_Zopp s (Zpos m) + 2 ^ (- e)) (2 ^ (- e + 1))) 0 s
  | _ => x
  end.

(** The value of a finite number as a rational. *)
Definition toQ (x : number) : Q :=
  match x with
  | S754_finite s m e => (inject_Z (cond_Zopp s (Zpos m)) * 2 ^ e)%Q
  | _ => 0%Q
  end.

Definition isFinite (x : number) : bool :=
  match x with
  | S754_finite _ _ _ | S754_zero _ => true
  | _ => false
  end.

End Num.

(* ===================================================================== *)
(** ** Regular expressions: a backtracking matcher *)
(* ===================================================================== *)

Module Regex.
Import JS.

(** The patterns of the sources use literals, classes, sequence, ordered
    alternation, the quantifiers [*], [+], [?] (greedy) and [*?] (lazy), the
    assertions [^] and [$], and one capturing group at most that is read
    back ([match[1]]). [(?: )] only groups and has no node of its own. *)
Inductive regex :=
| Eps
| Lit (c : char)
| Class (p : char -> bool)
| Seq (r1 r2 : regex)
| Alt (r1 r2 : regex)
| Star (greedy : bool) (r : regex)
| Bol
| Eol
| Group (r : regex).

Definition Plus (r : regex) : regex := Seq r (Star true r).
Definition Opt (r : regex) : regex := Alt r Eps.

Fixpoint Lits (s : jsString) : regex :=
  match s with
  | [] => Eps
  | [c] => Lit c
  | c :: s' => Seq (Lit c) (Lits s')
  end.
Definition Str (s : string) : regex := Lits (ofString s).

Fixpoint Alts (l : list regex) : regex :=
  match l with
  | [] => Class (fun _ => false)
  | [r] => r
  | r :: l' => Alt r (Alts l')
  end.

Record flags := { ignoreCase : bool; multiline : bool }.

(** The matcher state: the end index reached and the capture of group 1. *)
Record mstate := { pos : nat; cap1 : option (nat * nat) }.

Definition advance (s : mstate) : mstate :=
  {| pos := S (pos s); cap1 := cap1 s |}.
Definition capture (from : nat) (s : mstate) : mstate :=
  {| pos := pos s; cap1 := Some (from, pos s) |}.

Section Matcher.
Variable fl : flags.
Variable input : jsString.

Definition litMatches (c x : char) : bool :=
  if ignoreCase fl then N.eqb (canonicalize x) (canonicalize c) else N.eqb x c.

(** A class under [i] accepts [x] when one of its members canonicalizes as
    [x] does; on ASCII case folding the candidates are [x] and its two cases. *)
Definition classMatches (p : char -> bool) (x : char) : bool :=
  if ignoreCase fl then (p x || p (canonicalize x) || p (toLowerAscii x))%bool
  else p x.

Definition atBol (i : nat) : bool :=
  match i with
  | O => true
  | S j => if multiline fl
           then match nth_error input j with
                | Some c => isLineTerminator c
                | None => false
                end
           else false
  end.

Definition atEol (i : nat) : bool :=
  if Nat.eqb i (length input) then true
  else if multiline fl
       then match nth_error input i with
            | Some c => isLineTerminator c
            | None => false
            end
       else false.

Definition orElse {A} (a b : option A) : option A :=
  match a with Some x => Some x | None => b end.

(** The iterations of a quantifier from the state [s], [m1] being the
    matcher of its body and [k] the rest of the pattern: a greedy quantifier
    tries one more iteration before the rest, a lazy one the rest first. An
    iteration that consumes nothing is rejected, so at most
    [length input - pos s] iterations can follow and [n] counts them down. *)
Fixpoint starLoop (greedy : bool)
    (m1 : mstate -> (mstate -> option mstate) -> option mstate)
    (k : mstate -> option mstate) (n : nat) (s : mstate) : option mstate :=
  match n with
  | O => k s
  | S n' =>
      let again :=
        m1 s (fun s1 => if pos s <? pos s1 then starLoop greedy m1 k n' s1
                        else None) in
      if greedy then orElse again (k s) else orElse (k s) again
  end.

(** [m r s k]: match [r] from the state [s], then the rest of the pattern
    [k]; the first success in backtracking order is the result. *)
Fixpoint m (r : regex) (s : mstate) (k : mstate -> option mstate)
  : option mstate :=
  match r with
  | Eps => k s
  | Lit c =>
      match nth_error input (pos s) with
      | Some x => if litMatches c x then k (advance s) else None
      | None => None
      end
  | Class p =>
      match nth_error input (pos s) with
      | Some x => if classMatches p x then k (advance s) else None
      | None => None
      end
  | Seq r1 r2 => m r1 s (fun s1 => m r2 s1 k)
  | Alt r1 r2 => orElse (m r1 s k) (m r2 s k)
  | Star greedy r1 => starLoop greedy (m r1) k (length input - pos s) s
  | Bol => if atBol (pos s) then k s else None
  | Eol => if atEol (pos s) then k s else None
  | Group r1 => m r1 s (fun s1 => k (capture (pos s) s1))
  end.

(** The pattern tried at index [i] alone. *)
Definition matchAt (r : regex) (i : nat) : option mstate :=
  m r {| pos := i; cap1 := None |} Some.

(** The result of [exec]: [index], [match[0]] and [match[1]], with the end
    index of the match (the new [lastIndex] of a global pattern). *)
Record execResult := {
  index : nat;
  endIndex : nat;
  match0 : jsString;
  match1 : option jsString
}.

Definition mkResult (i : nat) (s : mstate) : execResult :=
  {| index := i;
     endIndex := pos s;
     match0 := substring input i (pos s);
     match1 := match cap1 s with
               | Some (a, b) => Some (substring input a b)
               | None => None
               end |}.

(** The indices [i, i+1, ..., i+n] tried in turn. *)
Fixpoint scan (r : regex) (n i : nat) : option execResult :=
  match matchAt r i with
  | Some s => Some (mkResult i s)
  | None => match n with
            | O => None
            | S n' => scan r n' (S i)
            end
  end.

(** [regex.exec(input)] with [regex.lastIndex = lastIndex]: [None] is the
    [null] result. *)
Definition exec (r : regex) (lastIndex : nat) : option execResult :=
  if length input <? lastIndex then None
  else scan r (length input - lastIndex) lastIndex.

(** [regex.test(input)] of a pattern without the [g] flag. *)
Definition test (r : regex) : bool :=
  match exec r 0 with Some _ => true | None => false end.

(** [while ((match = regex.exec(input)) !== null) body] for a pattern with
    the [g] flag: the state of the loop is [lastIndex] and what [body]
    updates. A pass of the loop costs one unit of [fuel]; [None] is a loop
    that has not ended within the fuel. *)
Fixpoint execLoop {A : Type} (r : regex) (body : A -> execResult -> A)
    (fuel lastIndex : nat) (acc : A) : option A :=
  match fuel with
  | O => None
  | S fuel' =>
      match exec r lastIndex with
      | None => Some acc
      | Some res => execLoop r body fuel' (endIndex res) (body acc res)
      end
  end.

(** The results of the successive calls of [exec] in such a loop. *)
Definition execAll (r : regex) : option (list execResult) :=
  execLoop r (fun acc res => acc ++ [res]) (S (length input)) 0 [].

(** [input.split(separator)] for a pattern separator, without a limit. The
    search index [q] of the specification runs over [0 .. size-1]; after a
    separator that ends at [e] was found it resumes at [e], so the indices
    below the start [p] of the current piece are passed over; a separator
    that would end at [p] is ignored. *)
Definition splitStep (r : regex) (st : nat * list jsString) (q : nat)
  : nat * list jsString :=
  let '(p, pieces) := st in
  if q <? p then st
  else match matchAt r q with
       | None => st
       | Some s =>
           let e := Nat.min (pos s) (length input) in
           if e =? p then st
           else (e, pieces ++ [substring input p q])
       end.

Definition split (r : regex) : list jsString :=
  match input with
  | [] => match matchAt r 0 with Some _ => [] | None => [input] end
  | _ =>
      let '(p, pieces) :=
        fold_left (splitStep r) (seq 0 (length input)) (0, []) in
      pieces ++ [substring input p (length input)]
  end.

End Matcher.

End Regex.

(* ===================================================================== *)
(** ** types.ts *)
(* ===================================================================== *)

Inductive Kind := phrase | word | entity | idiom.

Definition Kind_eqb (a b : Kind) : bool :=
  match a, b with
  | phrase, phrase | word, word | entity, entity | idiom, idiom => true
  | _, _ => false
  end.

Module Chunk.
(** [delayModifier] is declared optional in the interface and never
    written; [focalIndex] is optional. *)
Record t := {
  text : JS.jsString;
  start : Z;
  end_ : Z;
  kind : Kind;
  focalIndex : option Num.number
}.
End Chunk.

Module Chapter.
Record t := {
  title : JS.jsString;
  chunkIndex : Z
}.
End Chapter.

Module Book.
(** The fields read or written by the embedded functions ([createdAt],
    [metadata] and [primingSummary] are carried along untouched by them). *)
Record t := {
  id : JS.jsString;
  title : JS.jsString;
  content : JS.jsString;
  chunks : list Chunk.t;
  chapters : option (list Chapter.t);
  progressIndex : Z
}.
End Book.

(* ===================================================================== *)
(** ** services/rsvpUtils.ts *)
(* ===================================================================== *)

Module RsvpUtils.
Import JS Num Regex.

Definition noFlags : flags := {| ignoreCase := false; multiline := false |}.

(** [calculateFocalIndex] *)
Definition calculateFocalIndex (text : jsString) : number :=
  let wordPart := trim text in
  if length wordPart <=? 1 then ofZ 0
  else Math_floor (mul (ofNat (length wordPart)) lit_0_35).

(** [/\s+/] *)
Definition whitespaceRun : regex := Plus (Class isWhiteSpace).

(** [/^([A-Za-z]\.)+$/] *)
Definition acronymRe : regex :=
  Seq Bol (Seq (Plus (Group (Seq (Class isLetter) (Lit 46%N)))) Eol).

(** [/^(Mr|Mrs|Ms|Dr|Prof|Sr|Jr|St)\.$/i] *)
Definition abbreviationRe : regex :=
  Seq Bol
    (Seq (Group (Alts [Str "Mr"; Str "Mrs"; Str "Ms"; Str "Dr"; Str "Prof";
                       Str "Sr"; Str "Jr"; Str "St"]))
         (Seq (Lit 46%N) Eol)).
Definition abbreviationFlags : flags :=
  {| ignoreCase := true; multiline := false |}.

(** [/\d,$/] *)
Definition numericCommaRe : regex := Seq (Class isDigit) (Seq (Lit 44%N) Eol).

Definition isPhraseKind (k : Kind) : bool :=
  (Kind_eqb k phrase || Kind_eqb k idiom)%bool.

(** [calculateChunkDelay] *)
Definition calculateChunkDelay (chunk : Chunk.t) (wpm : number) : number :=
  let baseDelayMs := div (ofZ 60000) wpm in
  let delay := baseDelayMs in
  let token := trim (Chunk.text chunk) in
  let length := List.length token in
  (* 1. Length Modifier *)
  let delay :=
    if 10 <? length then mul delay lit_1_3
    else if length <? 3 then mul delay lit_0_9
    else delay in
  (* 2. Phrase Modifier *)
  let delay :=
    if isPhraseKind (Chunk.kind chunk) then
      let wordCount := List.length (split noFlags token whitespaceRun) in
      if 1 <? wordCount then mul baseDelayMs (mul (ofNat wordCount) lit_0_85)
      else delay
    else delay in
  (* 3. Punctuation Modifiers *)
  let lastChar := sliceLast token in
  let isAcronym := test noFlags token acronymRe in
  let isAbbreviation := test abbreviationFlags token abbreviationRe in
  let isNumericComma := test noFlags token numericCommaRe in
  let delay :=
    if (negb isAcronym && negb isAbbreviation && negb isNumericComma)%bool then
      if includes [ofString "."; ofString "!"; ofString "?"] lastChar
      then add delay (ofZ 300)
      else if includes [ofString ","; ofString ";"; ofString ":"] lastChar
      then div baseDelayMs lit_0_9
      else delay
    else delay in
  Math_round delay.

(** [[\w'\u2019\u2019-]]: word characters, the apostrophe, the right single
    quotation mark (written twice in the source) and the hyphen. *)
Definition isWordish (c : char) : bool :=
  (isWordChar c || N.eqb c 39 || N.eqb c 8217 || N.eqb c 8217 || N.eqb c 45)%bool.
(** [[.,!?;:]] *)
Definition isTrailingPunct (c : char) : bool :=
  (N.eqb c 46 || N.eqb c 44 || N.eqb c 33 || N.eqb c 63 || N.eqb c 59
   || N.eqb c 58)%bool.
Definition isNonSpace (c : char) : bool := negb (isWhiteSpace c).

(** The pattern of [algorithmicChunker], flag [g]. *)
Definition chunkRe : regex :=
  Alt (Seq (Plus (Class isWordish)) (Star true (Class isTrailingPunct)))
      (Plus (Class isNonSpace)).

Definition chunkBody (chunks : list Chunk.t) (match_ : execResult)
  : list Chunk.t :=
  let token := match0 match_ in
  let start := Z.of_nat (index match_) in
  let end_ := (start + Z.of_nat (length token))%Z in
  chunks ++ [ {| Chunk.text := token;
                 Chunk.start := start;
                 Chunk.end_ := end_;
                 Chunk.kind := word;
                 Chunk.focalIndex := Some (calculateFocalIndex token) |} ].

(** The [while] loop of [algorithmicChunker] run with the given fuel. *)
Definition algorithmicChunkerFuel (fuel : nat) (text : jsString)
  : option (list Chunk.t) :=
  execLoop noFlags text chunkRe chunkBody fuel 0 [].

(** [algorithmicChunker]: every match consumes a character at least, hence
    [length text + 1] passes of the loop are enough. *)
Definition algorithmicChunker (text : jsString) : option (list Chunk.t) :=
  algorithmicChunkerFuel (S (length text)) text.

(** The pattern of [extractChapters], flags [gim]. *)
Definition dot : regex := Class (fun c => negb (isLineTerminator c)).
Definition isRomanDigit (c : char) : bool :=
  existsb (N.eqb c) (ofString "ivxlcdm").

Definition chapterRe : regex :=
  Seq (Alt Bol (Lit 10%N))
   (Seq (Star true (Class isWhiteSpace))
    (Seq (Group
            (Alt (Seq (Alts [Str "chapter"; Str "part"; Str "book"])
                  (Seq (Plus (Class isWhiteSpace))
                   (Seq (Alts [Plus (Class isLower); Plus (Class isDigit);
                               Plus (Class isRomanDigit)])
                        (Star false dot))))
                 (Seq (Alts [Str "prologue"; Str "epilogue";
                             Str "introduction"; Str "preface";
                             Str "foreword"])
                      (Star false dot))))
         (Alt (Seq (Opt (Lit 13%N)) (Lit 10%N)) Eol))).
Definition chapterFlags : flags := {| ignoreCase := true; multiline := true |}.

(** [array.findIndex(f)] *)
Fixpoint findIndexFrom {A : Type} (f : A -> bool) (l : list A) (i : Z) : Z :=
  match l with
  | [] => (-1)%Z
  | x :: l' => if f x then i else findIndexFrom f l' (i + 1)%Z
  end.
Definition findIndex {A : Type} (f : A -> bool) (l : list A) : Z :=
  findIndexFrom f l 0.

Definition ellipsis : jsString := ofString "...".
Definition defaultChapter : Chapter.t :=
  {| Chapter.title := ofString "Start of Text"; Chapter.chunkIndex := 0 |}.

(** [chapters[chapters.length - 1].chunkIndex], read when the list is not empty. *)
Definition lastChunkIndex (chapters : list Chapter.t) : Z :=
  Chapter.chunkIndex (last chapters defaultChapter).

(** The body of the loop of [extractChapters]. Group 1 takes part in every
    match of the pattern, so [match[1]] is a string. *)
Definition chapterBody (chunks : list Chunk.t) (chapters : list Chapter.t)
    (match_ : execResult) : list Chapter.t :=
  let title := trim (match match1 match_ with Some t => t | None => [] end) in
  let chunkIndex :=
    findIndex (fun c => (Z.of_nat (index match_) <=? Chunk.start c)%Z) chunks in
  if negb (chunkIndex =? -1)%Z then
    if ((length chapters =? 0)
        || negb (lastChunkIndex chapters =? chunkIndex)%Z)%bool then
      chapters ++
        [ {| Chapter.title :=
               if 50 <? length title
               then substring title 0 50 ++ ellipsis
               else title;
             Chapter.chunkIndex := chunkIndex |} ]
    else chapters
  else chapters.

Definition extractChaptersFuel (fuel : nat) (text : jsString)
    (chunks : list Chunk.t) : option (list Chapter.t) :=
  match execLoop chapterFlags text chapterRe (chapterBody chunks) fuel 0 [] with
  | Some chapters =>
      Some (if length chapters =? 0 then chapters ++ [defaultChapter]
            else chapters)
  | None => None
  end.

(** [extractChapters] *)
Definition extractChapters (text : jsString) (chunks : list Chunk.t)
  : option (list Chapter.t) :=
  extractChaptersFuel (S (length text)) text chunks.

End RsvpUtils.

(* ===================================================================== *)
(** ** services/aiService.ts *)
(* ===================================================================== *)

Module AiService.
Import JS Num Regex RsvpUtils.

(** An element of [AIResponse.chunks]. *)
Module Item.
Record t := { text : jsString; kind : Kind }.
End Item.

(** The loop of [semanticChunkText] that re-maps the items of the reply to
    offsets of [text]; its state is [currentSearchIndex] and [finalChunks]. *)
Fixpoint remapLoop (text : jsString) (items : list Item.t)
    (currentSearchIndex : Z) (finalChunks : list Chunk.t) : list Chunk.t :=
  match items with
  | [] => finalChunks
  | item :: rest =>
      let start := indexOf text (Item.text item) currentSearchIndex in
      if (start =? -1)%Z then remapLoop text rest currentSearchIndex finalChunks
      else
        let end_ := (start + Z.of_nat (length (Item.text item)))%Z in
        remapLoop text rest end_
          (finalChunks ++
             [ {| Chunk.text := Item.text item;
                  Chunk.start := start;
                  Chunk.end_ := end_;
                  Chunk.kind := Item.kind item;
                  Chunk.focalIndex := Some (calculateFocalIndex (Item.text item)) |} ])
  end.

(** [semanticChunkText]: the reply of the enrichment service is the argument
    [parsed]; [None] stands for every path that ends in the fallback (no API
    key, a failed request, a reply that is not the expected JSON). *)
Definition semanticChunkText (text : jsString) (parsed : option (list Item.t))
  : option (list Chunk.t) :=
  match parsed with
  | None => algorithmicChunker text
  | Some items => Some (remapLoop text items 0 [])
  end.

End AiService.

(* ===================================================================== *)
(** ** App.tsx *)
(* ===================================================================== *)

Module App.
Import JS.

Definition LIMIT : nat := 2500.

(** [activeBook.content.slice(0, LIMIT)] *)
Definition textSegment (activeBook : Book.t) : jsString :=
  substring (Book.content activeBook) 0 LIMIT.

(** [smartChunks[smartChunks.length - 1].end], read when the list is not empty. *)
Definition boundaryEndIndex (smartChunks : list Chunk.t) : Z :=
  match rev smartChunks with
  | lastSmartChunk :: _ => Chunk.end_ lastSmartChunk
  | [] => 0
  end.

(** The chunks of the book after [processAIChunks] has received
    [smartChunks]: merged when there are smart chunks, left as they are
    otherwise. *)
Definition mergedChunks (existing smartChunks : list Chunk.t) : list Chunk.t :=
  if 0 <? length smartChunks then
    let remainingChunks :=
      filter (fun c => (boundaryEndIndex smartChunks <=? Chunk.start c)%Z)
             existing in
    smartChunks ++ remainingChunks
  else existing.

Definition updatedBook (activeBook : Book.t) (smartChunks : list Chunk.t)
  : Book.t :=
  {| Book.id := Book.id activeBook;
     Book.title := Book.title activeBook;
     Book.content := Book.content activeBook;
     Book.chunks := mergedChunks (Book.chunks activeBook) smartChunks;
     Book.chapters := Book.chapters activeBook;
     Book.progressIndex := Book.progressIndex activeBook |}.

End App.

(* ===================================================================== *)
(** ** store/useReadallStore.ts *)
(* ===================================================================== *)

Module Store.

Inductive View := library | reader | settings.

(** The part of [ReadallState] the playback actions read and write. *)
Record ReadallState := {
  currentView : View;
  activeBookId : option JS.jsString;
  activeBook : option Book.t;
  isPlaying : bool;
  currentIndex : Z
}.

Definition set_isPlaying (b : bool) (st : ReadallState) : ReadallState :=
  {| currentView := currentView st;
     activeBookId := activeBookId st;
     activeBook := activeBook st;
     isPlaying := b;
     currentIndex := currentIndex st |}.

Definition set_currentIndex (i : Z) (st : ReadallState) : ReadallState :=
  {| currentView := currentView st;
     activeBookId := activeBookId st;
     activeBook := activeBook st;
     isPlaying := isPlaying st;
     currentIndex := i |}.

Definition chunksLength (b : Book.t) : Z := Z.of_nat (length (Book.chunks b)).

(** [loadBook]; [book.progressIndex || 0] is [book.progressIndex]. *)
Definition loadBook (book : Book.t) (st : ReadallState) : ReadallState :=
  {| currentView := reader;
     activeBookId := Some (Book.id book);
     activeBook := Some book;
     isPlaying := false;
     currentIndex := Book.progressIndex book |}.

Definition setIsPlaying (playing : bool) (st : ReadallState) : ReadallState :=
  set_isPlaying playing st.

(** [setCurrentIndex] *)
Definition setCurrentIndex (index : Z) (st : ReadallState) : ReadallState :=
  match activeBook st with
  | None => st
  | Some activeBook =>
      let safeIndex := Z.max 0 (Z.min index (chunksLength activeBook - 1)) in
      set_currentIndex safeIndex st
  end.

(** [advanceIndex] *)
Definition advanceIndex (st : ReadallState) : ReadallState :=
  match activeBook st with
  | None => set_isPlaying false st
  | Some activeBook =>
      if (chunksLength activeBook - 1 <=? currentIndex st)%Z
      then set_isPlaying false st
      else set_currentIndex (currentIndex st + 1) st
  end.

(** [rewindIndex] *)
Definition rewindIndex (amount : Z) (st : ReadallState) : ReadallState :=
  set_currentIndex (Z.max 0 (currentIndex st - amount)) st.

End Store.

(* ===================================================================== *)
(** ** types.ts: the settings; store/useReadallStore.ts: the other actions *)
(* ===================================================================== *)

Module AppSettings.
Import JS Num.

Inductive ChunkingMode := algorithmic | ai.
Inductive Theme := oled | sepia | high_contrast.
Inductive FontFamily := sans | serif | mono | opendyslexic | lexend.
Inductive FontSize := sm | md | lg | xl.

Record t := {
  wpm : number;
  chunkingMode : ChunkingMode;
  apiKey : jsString;
  theme : Theme;
  fontFamily : FontFamily;
  fontSize : FontSize;
  showReticle : bool
}.

(** [Partial<AppSettings>]: an absent key is [None]. *)
Record partial := {
  p_wpm : option number;
  p_chunkingMode : option ChunkingMode;
  p_apiKey : option jsString;
  p_theme : option Theme;
  p_fontFamily : option FontFamily;
  p_fontSize : option FontSize;
  p_showReticle : option bool
}.

Definition DEFAULT_SETTINGS : t :=
  {| wpm := ofZ 350; chunkingMode := algorithmic; apiKey := [];
     theme := oled; fontFamily := sans; fontSize := lg; showReticle := true |}.

Definition orKeep {A : Type} (new : option A) (old : A) : A :=
  match new with Some x => x | None => old end.

(** [{ ...settings, ...partial }] *)
Definition spread (settings : t) (p : partial) : t :=
  {| wpm := orKeep (p_wpm p) (wpm settings);
     chunkingMode := orKeep (p_chunkingMode p) (chunkingMode settings);
     apiKey := orKeep (p_apiKey p) (apiKey settings);
     theme := orKeep (p_theme p) (theme settings);
     fontFamily := orKeep (p_fontFamily p) (fontFamily settings);
     fontSize := orKeep (p_fontSize p) (fontSize settings);
     showReticle := orKeep (p_showReticle p) (showReticle settings) |}.

Definition noChange : partial :=
  {| p_wpm := None; p_chunkingMode := None; p_apiKey := None;
     p_theme := None; p_fontFamily := None; p_fontSize := None;
     p_showReticle := None |}.

(** The object literals [{ wpm: v }], [{ fontFamily: v }], [{ fontSize: v }]
    and a whole settings object passed as a partial one. *)
Definition only_wpm (v : number) : partial :=
  {| p_wpm := Some v; p_chunkingMode := None; p_apiKey := None;
     p_theme := None; p_fontFamily := None; p_fontSize := None;
     p_showReticle := None |}.
Definition only_fontFamily (v : FontFamily) : partial :=
  {| p_wpm := None; p_chunkingMode := None; p_apiKey := None;
     p_theme := None; p_fontFamily := Some v; p_fontSize := None;
     p_showReticle := None |}.
Definition only_fontSize (v : FontSize) : partial :=
  {| p_wpm := None; p_chunkingMode := None; p_apiKey := None;
     p_theme := None; p_fontFamily := None; p_fontSize := Some v;
     p_showReticle := None |}.
Definition whole (s : t) : partial :=
  {| p_wpm := Some (wpm s); p_chunkingMode := Some (chunkingMode s);
     p_apiKey := Some (apiKey s); p_theme := Some (theme s);
     p_fontFamily := Some (fontFamily s); p_fontSize := Some (fontSize s);
     p_showReticle := Some (showReticle s) |}.

End AppSettings.

(** The whole state of the store: the playback part of [Store] together
    with [previousView], [books] and [settings]. *)
Module FullStore.
Import JS.

Record State := {
  playback : Store.ReadallState;
  previousView : Store.View;
  books : list Book.t;
  settings : AppSettings.t
}.

Definition View_eqb (a b : Store.View) : bool :=
  match a, b with
  | Store.library, Store.library | Store.reader, Store.reader
  | Store.settings, Store.settings => true
  | _, _ => false
  end.

Definition set_currentView (v : Store.View) (st : Store.ReadallState)
  : Store.ReadallState :=
  {| Store.currentView := v;
     Store.activeBookId := Store.activeBookId st;
     Store.activeBook := Store.activeBook st;
     Store.isPlaying := Store.isPlaying st;
     Store.currentIndex := Store.currentIndex st |}.

Definition set_activeBook (b : option Book.t) (st : Store.ReadallState)
  : Store.ReadallState :=
  {| Store.currentView := Store.currentView st;
     Store.activeBookId := Store.activeBookId st;
     Store.activeBook := b;
     Store.isPlaying := Store.isPlaying st;
     Store.currentIndex := Store.currentIndex st |}.

(** An action of the playback part run on the whole state. *)
Definition onPlayback (f : Store.ReadallState -> Store.ReadallState)
    (st : State) : State :=
  {| playback := f (playback st);
     previousView := previousView st;
     books := books st;
     settings := settings st |}.

(** [setView] *)
Definition setView (view : Store.View) (st : State) : State :=
  if (View_eqb view Store.settings
      && negb (View_eqb (Store.currentView (playback st)) Store.settings))%bool
  then {| playback := set_currentView view (playback st);
          previousView := Store.currentView (playback st);
          books := books st;
          settings := settings st |}
  else onPlayback (set_currentView view) st.

(** [setBooks]: the argument is an array, so it is stored as it is. *)
Definition setBooks (bs : list Book.t) (st : State) : State :=
  {| playback := playback st;
     previousView := previousView st;
     books := bs;
     settings := settings st |}.

(** [updateSettings] *)
Definition updateSettings (p : AppSettings.partial) (st : State) : State :=
  {| playback := playback st;
     previousView := previousView st;
     books := books st;
     settings := AppSettings.spread (settings st) p |}.

(** [{ ...b, progressIndex: index }] *)
Definition withProgress (index : Z) (b : Book.t) : Book.t :=
  {| Book.id := Book.id b;
     Book.title := Book.title b;
     Book.content := Book.content b;
     Book.chunks := Book.chunks b;
     Book.chapters := Book.chapters b;
     Book.progressIndex := index |}.

(** [state.activeBook?.id === id] *)
Definition activeHasId (id : jsString) (st : Store.ReadallState) : bool :=
  match Store.activeBook st with
  | Some b => string_eqb (Book.id b) id
  | None => false
  end.

(** [updateBookProgress] *)
Definition updateBookProgress (id : jsString) (index : Z) (st : State)
  : State :=
  {| playback :=
       if activeHasId id (playback st)
       then set_activeBook
              (option_map (withProgress index) (Store.activeBook (playback st)))
              (playback st)
       else playback st;
     previousView := previousView st;
     books := map (fun b => if string_eqb (Book.id b) id
                            then withProgress index b else b) (books st);
     settings := settings st |}.

(** [removeBook] *)
Definition removeBook (id : jsString) (st : State) : State :=
  {| playback :=
       if activeHasId id (playback st)
       then set_activeBook None (playback st)
       else playback st;
     previousView := previousView st;
     books := filter (fun b => negb (string_eqb (Book.id b) id)) (books st);
     settings := settings st |}.

Definition loadBook (book : Book.t) : State -> State :=
  onPlayback (Store.loadBook book).
Definition setIsPlaying (playing : bool) : State -> State :=
  onPlayback (Store.setIsPlaying playing).
Definition setCurrentIndex (index : Z) : State -> State :=
  onPlayback (Store.setCurrentIndex index).
Definition advanceIndex : State -> State := onPlayback Store.advanceIndex.
Definition rewindIndex (amount : Z) : State -> State :=
  onPlayback (Store.rewindIndex amount).

(** The initial state of the store. *)
Definition initial : State :=
  {| playback := {| Store.currentView := Store.library;
                    Store.activeBookId := None;
                    Store.activeBook := None;
                    Store.isPlaying := false;
                    Store.currentIndex := 0 |};
     previousView := Store.library;
     books := [];
     settings := AppSettings.DEFAULT_SETTINGS |}.

End FullStore.

(* ===================================================================== *)
(** ** More of the numbers: subtraction, [Math.abs], [Math.max],
       [Math.min], [===] *)
(* ===================================================================== *)

Module NumOps.
Import Num.

Definition sub : number -> number -> number := SF64sub.
Definition Math_abs : number -> number := SFabs.
Definition lit_0_8 : number := Eval vm_compute in Prim2SF 0.8%float.

Definition isNaN (x : number) : bool :=
  match x with S754_nan => true | _ => false end.

(** [x === y] on numbers: false when one is NaN, true on the two zeros. *)
Definition strictEq (x y : number) : bool := SFeqb x y.

(** [Math.max(x, y)]: NaN when an argument is NaN; [+0] is larger than
    [-0]. *)
Definition Math_max (x y : number) : number :=
  if (isNaN x || isNaN y)%bool then S754_nan
  else if ltb x y then y
  else if ltb y x then x
  else match x with S754_zero true => y | _ => x end.

(** [Math.min(x, y)]: NaN when an argument is NaN; [-0] is smaller than
    [+0]. *)
Definition Math_min (x y : number) : number :=
  if (isNaN x || isNaN y)%bool then S754_nan
  else if ltb x y then x
  else if ltb y x then y
  else match x with S754_zero false => y | _ => x end.

End NumOps.

(* ===================================================================== *)
(** ** components/Reader.tsx *)
(* ===================================================================== *)

Module Reader.
Import JS Num NumOps RsvpUtils.

(** [saveSession], called with [currentIndexRef.current]: the state of the
    store afterwards and the book handed to [saveBookToDB], if any. *)
Definition saveSession (currentIndexRef : Z) (st : FullStore.State)
  : FullStore.State * option Book.t :=
  match Store.activeBook (FullStore.playback st) with
  | Some activeBook =>
      if negb (currentIndexRef =? Book.progressIndex activeBook)%Z then
        let current := currentIndexRef in
        let updatedBook := FullStore.withProgress current activeBook in
        (FullStore.updateBookProgress (Book.id activeBook) current st,
         Some updatedBook)
      else (st, None)
  | None => (st, None)
  end.

(** *** The lookahead cache *)

Record Prepared := { focalIndex : number; delay : number }.

(** [Map<number, { focalIndex, delay }>], the entries in insertion order;
    the keys are indices. *)
Definition Cache := list (Z * Prepared).

Fixpoint Map_get (k : Z) (m : Cache) : option Prepared :=
  match m with
  | [] => None
  | (k', v) :: m' => if (k =? k')%Z then Some v else Map_get k m'
  end.

Definition Map_has (k : Z) (m : Cache) : bool :=
  match Map_get k m with Some _ => true | None => false end.

Fixpoint Map_set (k : Z) (v : Prepared) (m : Cache) : Cache :=
  match m with
  | [] => [(k, v)]
  | (k', v') :: m' =>
      if (k =? k')%Z then (k, v) :: m' else (k', v') :: Map_set k v m'
  end.

Definition PRELOAD_WINDOW : nat := 50.

(** [chunks[i]]: [None] is [undefined]. *)
Definition chunkAt (chunks : list Chunk.t) (i : Z) : option Chunk.t :=
  if (i <? 0)%Z then None else nth_error chunks (Z.to_nat i).

(** What the effect stores for a chunk. *)
Definition prepare (chunk : Chunk.t) (wpm : number) : Prepared :=
  {| focalIndex := match Chunk.focalIndex chunk with
                   | Some f => f
                   | None => calculateFocalIndex (Chunk.text chunk)
                   end;
     delay := calculateChunkDelay chunk wpm |}.

(** The loop of the pre-calculation effect from [i] on, [n] passes being
    left; [None] is the TypeError of reading a field of [undefined] (a
    negative target index). *)
Fixpoint preloadLoop (chunks : list Chunk.t) (wpm : number)
    (currentIndex : Z) (i : Z) (n : nat) (cache : Cache) : option Cache :=
  match n with
  | O => Some cache
  | S n' =>
      let targetIndex := (currentIndex + i)%Z in
      if (Z.of_nat (length chunks) <=? targetIndex)%Z then Some cache
      else if negb (Map_has targetIndex cache) then
        match chunkAt chunks targetIndex with
        | None => None
        | Some chunk =>
            preloadLoop chunks wpm currentIndex (i + 1)%Z n'
              (Map_set targetIndex (prepare chunk wpm) cache)
        end
      else preloadLoop chunks wpm currentIndex (i + 1)%Z n' cache
  end.

(** The pre-calculation effect. *)
Definition preload (activeBook : option Book.t) (wpm : number)
    (currentIndex : Z) (cache : Cache) : option Cache :=
  match activeBook with
  | None => Some cache
  | Some b => preloadLoop (Book.chunks b) wpm currentIndex 0 PRELOAD_WINDOW cache
  end.




(** *** The animation loop *)

Record Refs := {
  lastTimeRef : option number;
  chunkRef : option Chunk.t;
  currentIndexRef : Z;
  preparedCacheRef : Cache
}.

Definition set_lastTime (t : number) (r : Refs) : Refs :=
  {| lastTimeRef := Some t;
     chunkRef := chunkRef r;
     currentIndexRef := currentIndexRef r;
     preparedCacheRef := preparedCacheRef r |}.

(** The delay [animate] waits for: the cached one when there is one. *)
Definition tickDelay (wpm : number) (r : Refs) (chunk : Chunk.t) : number :=
  match Map_get (currentIndexRef r) (preparedCacheRef r) with
  | Some cached => delay cached
  | None => calculateChunkDelay chunk wpm
  end.

(** [animate(time)]: the refs and the store afterwards, and whether another
    frame is requested. *)
Definition animate (wpm : number) (time : number) (r : Refs)
    (st : Store.ReadallState) : Refs * Store.ReadallState * bool :=
  let lastTime := match lastTimeRef r with Some t => t | None => time end in
  let r1 := set_lastTime lastTime r in
  let deltaTime := sub time lastTime in
  match chunkRef r with
  | None => (r1, Store.setIsPlaying false st, false)
  | Some chunk =>
      let delay := tickDelay wpm r chunk in
      if leb delay deltaTime then
        let st' := Store.advanceIndex st in
        (set_lastTime time r1, st', Store.isPlaying st')
      else (r1, st, Store.isPlaying st)
  end.

(** *** The font controls *)

Definition FontFamily_eqb (a b : AppSettings.FontFamily) : bool :=
  match a, b with
  | AppSettings.sans, AppSettings.sans
  | AppSettings.serif, AppSettings.serif
  | AppSettings.mono, AppSettings.mono
  | AppSettings.opendyslexic, AppSettings.opendyslexic
  | AppSettings.lexend, AppSettings.lexend => true
  | _, _ => false
  end.

Definition FontSize_eqb (a b : AppSettings.FontSize) : bool :=
  match a, b with
  | AppSettings.sm, AppSettings.sm | AppSettings.md, AppSettings.md
  | AppSettings.lg, AppSettings.lg | AppSettings.xl, AppSettings.xl => true
  | _, _ => false
  end.

Definition fonts : list AppSettings.FontFamily :=
  [AppSettings.sans; AppSettings.serif; AppSettings.mono;
   AppSettings.opendyslexic; AppSettings.lexend].
Definition sizes : list AppSettings.FontSize :=
  [AppSettings.sm; AppSettings.md; AppSettings.lg; AppSettings.xl].

(** [(list.indexOf(x) + 1) % list.length] *)
Definition nextIdx {A : Type} (eqb : A -> A -> bool) (l : list A) (x : A)
  : Z :=
  Z.rem (findIndex (eqb x) l + 1) (Z.of_nat (length l)).

(** [cycleFontFamily]; [fonts[nextIdx]] is an element of the list, the
    index being below its length. *)
Definition cycleFontFamily (st : FullStore.State) : FullStore.State :=
  match
    nth_error fonts
      (Z.to_nat (nextIdx FontFamily_eqb fonts
                   (AppSettings.fontFamily (FullStore.settings st))))
  with
  | Some f => FullStore.updateSettings (AppSettings.only_fontFamily f) st
  | None => st
  end.

(** [cycleFontSize] *)
Definition cycleFontSize (st : FullStore.State) : FullStore.State :=
  match
    nth_error sizes
      (Z.to_nat (nextIdx FontSize_eqb sizes
                   (AppSettings.fontSize (FullStore.settings st))))
  with
  | Some f => FullStore.updateSettings (AppSettings.only_fontSize f) st
  | None => st
  end.

(** *** The gestures *)

(** [touchRef.current]; the times are those of [Date.now()], integers. *)
Record Touch := {
  startX : number;
  startY : number;
  startTime : Z;
  lastTapTime : Z;
  initialWpm : number;
  isSwiping : bool
}.

(** [handleTouchStart] *)
Definition handleTouchStart (clientX clientY : number) (now : Z)
    (wpm : number) (t : Touch) : Touch :=
  {| startX := clientX; startY := clientY; startTime := now;
     lastTapTime := lastTapTime t; initialWpm := wpm; isSwiping := false |}.

Definition set_isSwiping (b : bool) (t : Touch) : Touch :=
  {| startX := startX t; startY := startY t; startTime := startTime t;
     lastTapTime := lastTapTime t; initialWpm := initialWpm t;
     isSwiping := b |}.

Definition set_lastTapTime (time : Z) (t : Touch) : Touch :=
  {| startX := startX t; startY := startY t; startTime := startTime t;
     lastTapTime := time; initialWpm := initialWpm t;
     isSwiping := isSwiping t |}.

(** The pacing rate a drag of [deltaY] pixels asks for. *)
Definition newWpm (initialWpm deltaY : number) : number :=
  let change := Math_round (mul deltaY lit_0_8) in
  Math_max (ofZ 50) (Math_min (ofZ 1200) (add initialWpm change)).

(** [handleTouchMove]; the feedback overlay is left out. *)
Definition handleTouchMove (currentY : number) (t : Touch)
    (st : FullStore.State) : Touch * FullStore.State :=
  let deltaY := sub (startY t) currentY in
  if ltb (ofZ 20) (Math_abs deltaY) then
    let t' := set_isSwiping true t in
    let w := newWpm (initialWpm t) deltaY in
    if negb (strictEq w (AppSettings.wpm (FullStore.settings st)))
    then (t', FullStore.updateSettings (AppSettings.only_wpm w) st)
    else (t', st)
  else (t, st).

(** [handleTouchEnd]: [time] is [Date.now()], [currentX] the position of
    the released touch, [width] is [window.innerWidth]; the feedback overlay
    is left out. *)
Definition handleTouchEnd (time : Z) (currentX width : number) (t : Touch)
    (st : FullStore.State) : Touch * FullStore.State :=
  if isSwiping t then (t, st)
  else
    let duration := (time - startTime t)%Z in
    let deltaX := Math_abs (sub currentX (startX t)) in
    if ((duration <? 300)%Z && ltb deltaX (ofZ 10))%bool then
      let timeSinceLastTap := (time - lastTapTime t)%Z in
      if (timeSinceLastTap <? 350)%Z then
        let st' :=
          if ltb (startX t) (div width (ofZ 2))
          then FullStore.rewindIndex 10 st
          else
            let current := Store.currentIndex (FullStore.playback st) in
            FullStore.setCurrentIndex (current + 10) st in
        (set_lastTapTime 0 t, st')
      else (set_lastTapTime time t, st)
    else (t, st).

End Reader.

(* ===================================================================== *)
(** ** components/Library.tsx *)
(* ===================================================================== *)

Module Library.
Import JS Num Regex RsvpUtils.

(** [(?:^|\n)\s*] *)
Definition lineStart : regex :=
  Seq (Alt Bol (Lit 10%N)) (Star true (Class isWhiteSpace)).

(** [(?:\s+|$|[.:-])] *)
Definition headingEnd : regex :=
  Alts [Plus (Class isWhiteSpace); Eol;
        Class (fun c => (N.eqb c 46 || N.eqb c 58 || N.eqb c 45)%bool)].

(** The patterns of [detectStartChapterIndex], flag [i], in their order. *)
Definition patterns : list regex :=
  [ Seq lineStart
      (Seq (Alts [Str "chapter"; Str "part"])
         (Seq (Plus (Class isWhiteSpace))
            (Seq (Alts [Str "one"; Str "1"; Str "i"]) headingEnd)));
    Seq lineStart (Seq (Str "prologue") headingEnd);
    Seq lineStart (Seq (Str "introduction") headingEnd) ].
Definition patternFlags : flags := {| ignoreCase := true; multiline := false |}.

(** The loop over the patterns; [text.match(pattern)] of a pattern without
    the [g] flag is its first match. *)
Fixpoint detectLoop (text : jsString) (chunks : list Chunk.t)
    (ps : list regex) : Z :=
  match ps with
  | [] => 0
  | pattern :: rest =>
      match exec patternFlags text pattern 0 with
      | Some match_ =>
          let foundChunkIndex :=
            findIndex (fun c => (Z.of_nat (index match_) <=? Chunk.start c)%Z)
                      chunks in
          if negb (foundChunkIndex =? -1)%Z then foundChunkIndex
          else detectLoop text chunks rest
      | None => detectLoop text chunks rest
      end
  end.

(** [detectStartChapterIndex] *)
Definition detectStartChapterIndex (text : jsString) (chunks : list Chunk.t)
  : Z :=
  detectLoop text chunks patterns.

(** An entry of the table of contents of an EPUB: [{ title, offset }]. *)
Module TocItem.
Record t := { title : jsString; offset : Z }.
End TocItem.

(** The chapter of an entry of the table of contents. *)
Definition tocChapter (initialChunks : list Chunk.t) (item : TocItem.t)
  : Chapter.t :=
  let index :=
    findIndex (fun c => (TocItem.offset item <=? Chunk.start c)%Z)
              initialChunks in
  {| Chapter.title := TocItem.title item;
     Chapter.chunkIndex := if (index =? -1)%Z then 0%Z else index |}.

(** [array.sort((a, b) => a.chunkIndex - b.chunkIndex)]: the sort is
    stable, so an element goes before the later elements whose chunk index
    is not below its own. *)
Fixpoint insertByChunkIndex (x : Chapter.t) (l : list Chapter.t)
  : list Chapter.t :=
  match l with
  | [] => [x]
  | y :: l' =>
      if (Chapter.chunkIndex y <? Chapter.chunkIndex x)%Z
      then y :: insertByChunkIndex x l'
      else x :: y :: l'
  end.
Definition sortByChunkIndex (l : list Chapter.t) : list Chapter.t :=
  fold_right insertByChunkIndex [] l.

(** [ary.filter((item, pos, ary) => !pos || item.chunkIndex !==
    ary[pos - 1].chunkIndex)]; [prev] is [ary[pos - 1]]. *)
Fixpoint dropRepeated (prev : option Chapter.t) (ary : list Chapter.t)
  : list Chapter.t :=
  match ary with
  | [] => []
  | item :: rest =>
      let keep :=
        match prev with
        | None => true
        | Some p => negb (Chapter.chunkIndex item =? Chapter.chunkIndex p)%Z
        end in
      if keep then item :: dropRepeated (Some item) rest
      else dropRepeated (Some item) rest
  end.

(** The chapter list of [handleFileUpload]: from the table of contents when
    there is one with an entry, from the headings of the text otherwise. *)
Definition bookChapters (text : jsString) (initialChunks : list Chunk.t)
    (epubToc : option (list TocItem.t)) : option (list Chapter.t) :=
  let chapters :=
    match epubToc with
    | Some toc =>
        if 0 <? length toc
        then dropRepeated None
               (sortByChunkIndex (map (tocChapter initialChunks) toc))
        else []
    | None => []
    end in
  if length chapters =? 0 then extractChapters text initialChunks
  else Some chapters.

(** [/\.[^/.]+$/] *)
Definition extensionRe : regex :=
  Seq (Lit 46%N)
      (Seq (Plus (Class (fun c => negb (N.eqb c 47 || N.eqb c 46)%bool))) Eol).

(** [s.replace(pattern, replacement)] for a pattern without the [g] flag and a
    replacement without [$]: the first match is replaced. *)
Definition replaceFirst (fl : flags) (s : jsString) (r : regex)
    (replacement : jsString) : jsString :=
  match exec fl s r 0 with
  | Some res =>
      firstn (index res) s ++ replacement ++ skipn (endIndex res) s
  | None => s
  end.

(** The title of the book: that of the metadata when it is not blank, the
    file name without its extension otherwise. *)
Definition bookTitle (fileName : jsString) (metaTitle : option jsString)
  : jsString :=
  let bookTitle := replaceFirst noFlags fileName extensionRe [] in
  match metaTitle with
  | Some title =>
      if ((0 <? length title) && (0 <? length (trim title)))%bool
      then trim title else bookTitle
  | None => bookTitle
  end.

(** What [handleFileUpload] makes of the extracted text: [inl] is the error
    it raises for a text without content, [inr] the new book. The
    identifier is that of [crypto.randomUUID()]. *)
Definition newBook (id : jsString) (fileName : jsString)
    (metaTitle : option jsString) (text : jsString)
    (epubToc : option (list TocItem.t)) : option (string + Book.t) :=
  if ((length text =? 0) || (length (trim text) =? 0))%bool
  then Some (inl "No text content extracted. The file might be empty, password protected, or contain only images."%string)
  else
    match algorithmicChunker text with
    | None => None
    | Some initialChunks =>
        let startProgressIndex := detectStartChapterIndex text initialChunks in
        match bookChapters text initialChunks epubToc with
        | None => None
        | Some chapters =>
            Some (inr {| Book.id := id;
                         Book.title := bookTitle fileName metaTitle;
                         Book.content := text;
                         Book.chunks := initialChunks;
                         Book.chapters := Some chapters;
                         Book.progressIndex := startProgressIndex |})
        end
    end.

End Library.

(* ===================================================================== *)
(** ** services/aiService.ts: extractJSON *)
(* ===================================================================== *)

Module ExtractJSON.
Import JS Regex RsvpUtils.

(** The search of [lastIndexOf] on the suffix [s] that starts at offset
    [k]: the largest offset at which [p] occurs, [found] being the largest
    one seen before. *)
Fixpoint lastIndexOfFrom (p s : jsString) (k : nat) (found : option nat)
  : option nat :=
  let found' := if isPrefix p s then Some k else found in
  match s with
  | [] => found'
  | _ :: s' => lastIndexOfFrom p s' (S k) found'
  end.

(** [s.lastIndexOf(p)] *)
Definition lastIndexOf (s p : jsString) : Z :=
  match lastIndexOfFrom p s 0 None with
  | Some i => Z.of_nat i
  | None => (-1)%Z
  end.

(** [s.replace(pattern, replacement)] for a pattern with the [g] flag that
    matches no empty string and a replacement without [$]: the state of the
    loop is the end of the last match and the text put out so far. *)
Definition replaceStep (input replacement : jsString)
    (acc : nat * jsString) (res : execResult) : nat * jsString :=
  let '(p, out) := acc in
  (endIndex res, out ++ substring input p (index res) ++ replacement).

Definition replaceAll (fl : flags) (input : jsString) (r : regex)
    (replacement : jsString) : option jsString :=
  match execLoop fl input r (replaceStep input replacement)
                 (S (length input)) 0 (0, []) with
  | Some (p, out) => Some (out ++ skipn p input)
  | None => None
  end.

(** [/```json\s*|\s*```/g] *)
Definition fenceRe : regex :=
  Alt (Seq (Str "```json") (Star true (Class isWhiteSpace)))
      (Seq (Star true (Class isWhiteSpace)) (Str "```")).

Definition openBrace : jsString := ofString "{".
Definition closeBrace : jsString := ofString "}".

(** The message of the error of [extractJSON]. *)
Definition failure (text : jsString) : jsString :=
  ofString "Failed to parse JSON response: " ++ substring text 0 50
  ++ ofString "...".

Section Parse.
(** [JSON.parse] at the type of the reply; [None] is its SyntaxError. *)
Variable T : Type.
Variable JSON_parse : jsString -> option T.

(** The first attempt: the text from the first [{] to the last [}]. *)
Definition candidate (text : jsString) : option jsString :=
  let start := indexOf text openBrace 0 in
  let end_ := lastIndexOf text closeBrace in
  if (negb (start =? -1) && negb (end_ =? -1) && (start <? end_))%Z%bool
  then Some (substring text (Z.to_nat start) (Z.to_nat (end_ + 1)))
  else None.

(** [extractJSON]: [inr] is the value returned, [inl] the message of the
    error raised. *)
Definition extractJSON (text : jsString) : option (jsString + T) :=
  let direct :=
    match candidate text with
    | Some jsonCandidate => JSON_parse jsonCandidate
    | None => None
    end in
  match direct with
  | Some v => Some (inr v)
  | None =>
      match replaceAll noFlags text fenceRe [] with
      | None => None
      | Some cleaned =>
          let cleanMarkdown := trim cleaned in
          match JSON_parse cleanMarkdown with
          | Some v => Some (inr v)
          | None => Some (inl (failure text))
          end
      end
  end.

End Parse.

End ExtractJSON.

(* ===================================================================== *)
(** ** App.tsx: processAIChunks *)
(* ===================================================================== *)

Module AppProcess.
Import JS.

(** [chunks.some(c => c.kind === 'phrase' || c.kind === 'idiom')] *)
Definition hasSmartChunks (chunks : list Chunk.t) : bool :=
  existsb (fun c => (Kind_eqb (Chunk.kind c) phrase
                     || Kind_eqb (Chunk.kind c) idiom)%bool) chunks.

Definition isAiMode (m : AppSettings.ChunkingMode) : bool :=
  match m with AppSettings.ai => true | AppSettings.algorithmic => false end.

(** [processAIChunks]: [processing] is [processingRef.current] and [reply]
    the parsed reply of the service, [None] standing for every path of
    [semanticChunkText] to its fallback. The result is the book that is
    saved (and loaded when it is still the active one), [None] when the
    function returns without a change. *)
Definition processAIChunks (activeBook : option Book.t)
    (settings : AppSettings.t) (processing : bool)
    (reply : option (list AiService.Item.t)) : option (option Book.t) :=
  match activeBook with
  | None => Some None
  | Some activeBook =>
      if (negb (isAiMode (AppSettings.chunkingMode settings))
          || (length (AppSettings.apiKey settings) =? 0)
          || processing)%bool
      then Some None
      else if hasSmartChunks (Book.chunks activeBook) then Some None
      else
        match AiService.semanticChunkText (App.textSegment activeBook) reply
        with
        | None => None
        | Some smartChunks =>
            if 0 <? length smartChunks
            then Some (Some (App.updatedBook activeBook smartChunks))
            else Some None
        end
  end.

End AppProcess.

(* ===================================================================== *)
(** * Properties *)
(* ===================================================================== *)

(** ** Lists and strings *)

Module ListFacts.
Import JS.

Lemma substring_split {A : Type} (l : list A) (i j : nat) :
  i <= j -> skipn i l = firstn (j - i) (skipn i l) ++ skipn j l.
Proof.
  intros Hij.
  replace j with ((j - i) + i) at 2 by lia.
  rewrite <- skipn_skipn. symmetry. apply firstn_skipn.
Qed.

Lemma nth_error_skipn {A : Type} (l : list A) (i k : nat) :
  nth_error (skipn i l) k = nth_error l (i + k).
Proof.
  revert l; induction i as [|i IH]; intros l; simpl; [reflexivity|].
  destruct l as [|x l]; simpl; [now destruct k | apply IH].
Qed.

Lemma forallb_nth {A : Type} (P : A -> bool) (l : list A) :
  (forall k, k < length l ->
             exists x, nth_error l k = Some x /\ P x = true) ->
  forallb P l = true.
Proof.
  induction l as [|a l IH]; intros H; simpl; [reflexivity|].
  apply andb_true_intro; split.
  - destruct (H 0) as [x [Hx HP]]; [simpl; lia|].
    simpl in Hx. now inversion Hx; subst.
  - apply IH. intros k Hk. destruct (H (S k)) as [x Hx]; [simpl; lia|].
    now exists x.
Qed.

Lemma forallb_substring (P : char -> bool) (l : jsString) (i j : nat) :
  (forall k, i <= k < j ->
             exists x, nth_error l k = Some x /\ P x = true) ->
  forallb P (substring l i j) = true.
Proof.
  intros H. unfold substring. apply forallb_nth. intros k Hk.
  rewrite length_firstn in Hk.
  rewrite nth_error_firstn.
  destruct (Nat.ltb_spec k (j - i)); [|lia].
  rewrite nth_error_skipn. apply H. lia.
Qed.

Lemma filter_all {A : Type} (P : A -> bool) (l : list A) :
  forallb P l = true -> filter P l = l.
Proof.
  induction l as [|a l IH]; simpl; [reflexivity|].
  intros H. apply andb_prop in H. destruct H as [Ha Hl].
  now rewrite Ha, IH.
Qed.

Lemma filter_none {A : Type} (P : A -> bool) (l : list A) :
  forallb (fun x => negb (P x)) l = true -> filter P l = [].
Proof.
  induction l as [|a l IH]; simpl; [reflexivity|].
  intros H. apply andb_prop in H. destruct H as [Ha Hl].
  apply negb_true_iff in Ha. now rewrite Ha, IH.
Qed.

Lemma length_substring {A : Type} (l : list A) (i j : nat) :
  i <= j -> j <= length l -> length (firstn (j - i) (skipn i l)) = j - i.
Proof.
  intros. rewrite length_firstn, length_skipn. lia.
Qed.

End ListFacts.

(** ** The matcher against the declarative reading of a pattern *)

Module RegexFacts.
Import JS Regex.

Section Semantics.
Variable fl : flags.
Variable input : jsString.

(** [matches r s s']: the pattern [r] can match from the state [s] and end
    in the state [s'], whatever the order in which the matcher would try. *)
Inductive matches : regex -> mstate -> mstate -> Prop :=
| M_Eps s : matches Eps s s
| M_Lit c s x :
    nth_error input (pos s) = Some x -> litMatches fl c x = true ->
    matches (Lit c) s (advance s)
| M_Class p s x :
    nth_error input (pos s) = Some x -> classMatches fl p x = true ->
    matches (Class p) s (advance s)
| M_Seq r1 r2 s s1 s2 :
    matches r1 s s1 -> matches r2 s1 s2 -> matches (Seq r1 r2) s s2
| M_AltL r1 r2 s s' : matches r1 s s' -> matches (Alt r1 r2) s s'
| M_AltR r1 r2 s s' : matches r2 s s' -> matches (Alt r1 r2) s s'
| M_Star0 g r s : matches (Star g r) s s
| M_StarS g r s s1 s2 :
    matches r s s1 -> pos s < pos s1 -> matches (Star g r) s1 s2 ->
    matches (Star g r) s s2
| M_Bol s : atBol fl input (pos s) = true -> matches Bol s s
| M_Eol s : atEol fl input (pos s) = true -> matches Eol s s
| M_Group r s s1 :
    matches r s s1 -> matches (Group r) s (capture (pos s) s1).

Lemma nth_error_in_range (x : char) (i : nat) :
  nth_error input i = Some x -> i < length input.
Proof. intros H. apply nth_error_Some. congruence. Qed.

(** A match only moves forward, and never past the end of the input. *)
Lemma matches_pos r s s' :
  matches r s s' ->
  pos s <= pos s' /\ (pos s < pos s' -> pos s' <= length input).
Proof.
  induction 1; simpl in *;
    try match goal with
        | H : nth_error input _ = Some _ |- _ =>
            apply nth_error_in_range in H
        end; lia.
Qed.

Lemma orElse_Some {A : Type} (a b : option A) (x : A) :
  orElse a b = Some x -> a = Some x \/ (a = None /\ b = Some x).
Proof. destruct a; simpl; intros H; [left | right]; auto. Qed.

Lemma orElse_None {A : Type} (a b : option A) :
  orElse a b = None -> a = None /\ b = None.
Proof. destruct a; simpl; intros H; [discriminate | auto]. Qed.

Section StarLoop.
Variables (g : bool) (r1 : regex).
Variable m1 : mstate -> (mstate -> option mstate) -> option mstate.
Hypothesis m1_sound : forall s k x,
  m1 s k = Some x -> exists s', matches r1 s s' /\ k s' = Some x.
Hypothesis m1_complete : forall s k,
  m1 s k = None -> forall s', matches r1 s s' -> k s' = None.

Lemma starLoop_sound k n : forall s x,
  starLoop g m1 k n s = Some x ->
  exists s', matches (Star g r1) s s' /\ k s' = Some x.
Proof.
  induction n as [|n IH]; intros s x H; simpl in H.
  - exists s; split; [constructor | exact H].
  - assert (Hagain : forall y,
      m1 s (fun s1 => if pos s <? pos s1 then starLoop g m1 k n s1 else None)
        = Some y ->
      exists s', matches (Star g r1) s s' /\ k s' = Some y).
    { intros y Hy. apply m1_sound in Hy. destruct Hy as [s1 [Hm Hk]].
      destruct (Nat.ltb_spec (pos s) (pos s1)) as [Hlt|]; [|discriminate].
      apply IH in Hk. destruct Hk as [s2 [Hs Hk]].
      exists s2; split; [eapply M_StarS; eauto | exact Hk]. }
    destruct g; apply orElse_Some in H; destruct H as [H | [_ H]]; auto;
      exists s; split; auto using M_Star0.
Qed.

Lemma starLoop_complete k n : forall s,
  length input - pos s <= n ->
  starLoop g m1 k n s = None ->
  forall s', matches (Star g r1) s s' -> k s' = None.
Proof.
  induction n as [|n IH]; intros s Hn H s' Hm; simpl in H.
  - inversion Hm; subst; [exact H|].
    match goal with
    | Hr : matches r1 s _ |- _ => apply matches_pos in Hr
    end. lia.
  - assert (Hboth :
      m1 s (fun s1 => if pos s <? pos s1 then starLoop g m1 k n s1 else None)
        = None /\ k s = None).
    { destruct g; apply orElse_None in H; tauto. }
    destruct Hboth as [Hagain Hk].
    inversion Hm; subst; [exact Hk|].
    match goal with
    | Hr : matches r1 s ?s1, Hlt : pos s < pos ?s1,
      Hs : matches (Star g r1) ?s1 s' |- _ =>
        pose proof (m1_complete _ _ Hagain _ Hr) as Hc;
        pose proof (matches_pos _ _ _ Hr) as Hp;
        simpl in Hc;
        rewrite (proj2 (Nat.ltb_lt _ _) Hlt) in Hc;
        apply (IH s1); [lia | exact Hc | exact Hs]
    end.
Qed.

End StarLoop.

(** Soundness: a result of the matcher is a match of the pattern followed
    by a success of the rest. *)
Lemma m_sound r : forall s k x,
  m fl input r s k = Some x ->
  exists s', matches r s s' /\ k s' = Some x.
Proof.
  induction r as [ | c | p | r1 IH1 r2 IH2 | r1 IH1 r2 IH2 | g r1 IH1 | |
                   | r1 IH1 ]; intros s k x H; simpl in H.
  - exists s; split; [constructor | exact H].
  - destruct (nth_error input (pos s)) as [y|] eqn:Hy; [|discriminate].
    destruct (litMatches fl c y) eqn:Hc; [|discriminate].
    exists (advance s); split; [econstructor; eauto | exact H].
  - destruct (nth_error input (pos s)) as [y|] eqn:Hy; [|discriminate].
    destruct (classMatches fl p y) eqn:Hc; [|discriminate].
    exists (advance s); split; [econstructor; eauto | exact H].
  - apply IH1 in H. destruct H as [s1 [H1 H]].
    apply IH2 in H. destruct H as [s2 [H2 H]].
    exists s2; split; [econstructor; eauto | exact H].
  - apply orElse_Some in H. destruct H as [H | [_ H]].
    + apply IH1 in H. destruct H as [s' [Hm H]].
      exists s'; split; [now apply M_AltL | exact H].
    + apply IH2 in H. destruct H as [s' [Hm H]].
      exists s'; split; [now apply M_AltR | exact H].
  - eapply starLoop_sound; eauto.
  - destruct (atBol fl input (pos s)) eqn:Hb; [|discriminate].
    exists s; split; [now constructor | exact H].
  - destruct (atEol fl input (pos s)) eqn:Hb; [|discriminate].
    exists s; split; [now constructor | exact H].
  - apply IH1 in H. destruct H as [s1 [H1 H]].
    exists (capture (pos s) s1); split; [now constructor | exact H].
Qed.

(** Completeness: when the matcher fails, the rest of the pattern fails
    after every match of the pattern: backtracking has tried them all. *)
Lemma m_complete r : forall s k,
  m fl input r s k = None ->
  forall s', matches r s s' -> k s' = None.
Proof.
  induction r as [ | c | p | r1 IH1 r2 IH2 | r1 IH1 r2 IH2 | g r1 IH1 | |
                   | r1 IH1 ]; intros s k H s' Hm; simpl in H.
  - inversion Hm; subst; exact H.
  - inversion Hm; subst.
    match goal with
    | H1 : nth_error _ _ = Some _, H2 : litMatches _ _ _ = true |- _ =>
        rewrite H1, H2 in H
    end. exact H.
  - inversion Hm; subst.
    match goal with
    | H1 : nth_error _ _ = Some _, H2 : classMatches _ _ _ = true |- _ =>
        rewrite H1, H2 in H
    end. exact H.
  - inversion Hm; subst.
    match goal with
    | H1 : matches r1 s ?s1, H2 : matches r2 ?s1 s' |- _ =>
        exact (IH2 _ _ (IH1 _ _ H _ H1) _ H2)
    end.
  - apply orElse_None in H. destruct H as [Ha Hb].
    inversion Hm; subst; eauto.
  - eapply starLoop_complete; eauto using m_sound.
  - inversion Hm; subst.
    match goal with Hb : atBol _ _ _ = true |- _ => rewrite Hb in H end.
    exact H.
  - inversion Hm; subst.
    match goal with Hb : atEol _ _ _ = true |- _ => rewrite Hb in H end.
    exact H.
  - inversion Hm; subst.
    match goal with
    | H1 : matches r1 s ?s1 |- _ => exact (IH1 _ _ H _ H1)
    end.
Qed.

Definition init (i : nat) : mstate := {| pos := i; cap1 := None |}.

Lemma matchAt_sound r i s' :
  matchAt fl input r i = Some s' -> matches r (init i) s'.
Proof.
  intros H. apply m_sound in H. destruct H as [s1 [Hm H]].
  now inversion H; subst.
Qed.

Lemma matchAt_complete r i :
  matchAt fl input r i = None -> forall s', ~ matches r (init i) s'.
Proof.
  intros H s' Hm. pose proof (m_complete _ _ _ H _ Hm). discriminate.
Qed.

(** *** What a pattern consumes *)

(** [consumes r]: every match of [r] takes one character at least. *)
Fixpoint consumes (r : regex) : bool :=
  match r with
  | Lit _ | Class _ => true
  | Seq r1 r2 => (consumes r1 || consumes r2)%bool
  | Alt r1 r2 => (consumes r1 && consumes r2)%bool
  | Group r1 => consumes r1
  | Eps | Star _ _ | Bol | Eol => false
  end.

Lemma consumes_progress r s s' :
  matches r s s' -> consumes r = true -> pos s < pos s'.
Proof.
  induction 1; simpl; intros Hc; try discriminate; try lia.
  - apply orb_prop in Hc.
    match goal with
    | H1 : matches r1 _ _, H2 : matches r2 _ _ |- _ =>
        apply matches_pos in H1; apply matches_pos in H2
    end.
    destruct Hc as [Hc | Hc]; [apply IHmatches1 in Hc | apply IHmatches2 in Hc];
      simpl in *; lia.
  - apply andb_prop in Hc. destruct Hc as [Hc _]. auto.
  - apply andb_prop in Hc. destruct Hc as [_ Hc]. auto.
  - auto.
Qed.

(** [atomsIn P r]: the literals and classes of [r] accept characters of [P] only. *)
Fixpoint atomsIn (P : char -> bool) (r : regex) : Prop :=
  match r with
  | Lit c => forall x, litMatches fl c x = true -> P x = true
  | Class p => forall x, classMatches fl p x = true -> P x = true
  | Seq r1 r2 | Alt r1 r2 => atomsIn P r1 /\ atomsIn P r2
  | Star _ r1 | Group r1 => atomsIn P r1
  | Eps | Bol | Eol => True
  end.

Lemma matches_span P r s s' :
  matches r s s' -> atomsIn P r ->
  forall j, pos s <= j < pos s' ->
            exists x, nth_error input j = Some x /\ P x = true.
Proof.
  induction 1; simpl; intros Ha j Hj; try lia.
  - exists x. replace j with (pos s) by lia. auto.
  - exists x. replace j with (pos s) by lia. auto.
  - destruct Ha as [Ha1 Ha2].
    destruct (Nat.lt_ge_cases j (pos s1)); [apply IHmatches1 | apply IHmatches2];
      auto; lia.
  - apply IHmatches; tauto.
  - apply IHmatches; tauto.
  - destruct (Nat.lt_ge_cases j (pos s1)); [apply IHmatches1 | apply IHmatches2];
      auto; lia.
  - apply IHmatches; auto.
Qed.

(** *** [exec] and the loop over its results *)

Lemma scan_Some r n : forall i res,
  scan fl input r n i = Some res ->
  exists j s', i <= j <= i + n
    /\ (forall j', i <= j' < j -> matchAt fl input r j' = None)
    /\ matchAt fl input r j = Some s' /\ res = mkResult input j s'.
Proof.
  induction n as [|n IH]; intros i res H; simpl in H.
  - destruct (matchAt fl input r i) as [s'|] eqn:Hm; [|discriminate].
    inversion H; subst. exists i, s'. repeat split; auto; lia.
  - destruct (matchAt fl input r i) as [s'|] eqn:Hm.
    + inversion H; subst. exists i, s'. repeat split; auto; lia.
    + apply IH in H. destruct H as [j [s' [Hj [Hbefore [Hat Hres]]]]].
      exists j, s'. repeat split; auto; try lia.
      intros j' Hj'. destruct (Nat.eq_dec j' i); [subst; auto|].
      apply Hbefore. lia.
Qed.

Lemma scan_None r n : forall i,
  scan fl input r n i = None ->
  forall j, i <= j <= i + n -> matchAt fl input r j = None.
Proof.
  induction n as [|n IH]; intros i H j Hj; simpl in H;
    destruct (matchAt fl input r i) eqn:Hm; try discriminate.
  - now replace j with i by lia.
  - destruct (Nat.eq_dec j i); [subst; auto|]. apply (IH (S i)); auto. lia.
Qed.

Lemma exec_Some r i res :
  exec fl input r i = Some res ->
  exists j s', i <= j <= length input
    /\ (forall j', i <= j' < j -> matchAt fl input r j' = None)
    /\ matchAt fl input r j = Some s'
    /\ res = mkResult input j s'.
Proof.
  unfold exec. destruct (Nat.ltb_spec (length input) i); [discriminate|].
  intros H'. apply scan_Some in H'.
  destruct H' as [j [s' [Hj [Hbefore [Hat Hres]]]]].
  exists j, s'. repeat split; auto; lia.
Qed.

Lemma exec_None r i :
  exec fl input r i = None ->
  forall j, i <= j <= length input -> matchAt fl input r j = None.
Proof.
  unfold exec. destruct (Nat.ltb_spec (length input) i); intros H' j Hj;
    [lia|]. eapply scan_None; eauto. lia.
Qed.

(** The results of the successive calls of [exec] from [lastIndex = i]. *)
Inductive MatchSeq (r : regex) : nat -> list execResult -> Prop :=
| MS_nil i : exec fl input r i = None -> MatchSeq r i []
| MS_cons i res rs :
    exec fl input r i = Some res -> MatchSeq r (endIndex res) rs ->
    MatchSeq r i (res :: rs).

Lemma exec_progress r i res :
  consumes r = true -> exec fl input r i = Some res ->
  i <= index res /\ index res < endIndex res <= length input.
Proof.
  intros Hc H. apply exec_Some in H.
  destruct H as [j [s' [Hi [_ [Hat Hres]]]]]. subst res. simpl in *.
  apply matchAt_sound in Hat.
  pose proof (consumes_progress _ _ _ Hat Hc) as Hlt.
  apply matches_pos in Hat. simpl in *. lia.
Qed.

(** The loop ends within [length input - lastIndex + 1] passes when the
    pattern consumes, and its result folds [body] over the results of [exec]. *)
Lemma execLoop_MatchSeq {A : Type} r (body : A -> execResult -> A) :
  consumes r = true ->
  forall fuel i acc,
    i <= length input -> length input - i < fuel ->
    exists rs, MatchSeq r i rs
               /\ execLoop fl input r body fuel i acc = Some (fold_left body rs acc).
Proof.
  intros Hc. induction fuel as [|fuel IH]; intros i acc Hi Hf; [lia|].
  simpl. destruct (exec fl input r i) as [res|] eqn:He.
  - pose proof (exec_progress _ _ _ Hc He) as Hp.
    destruct (IH (endIndex res) (body acc res)) as [rs [Hrs Hl]];
      [lia | lia |].
    exists (res :: rs). split; [now constructor | exact Hl].
  - exists []. split; [now constructor | reflexivity].
Qed.

Lemma execAll_MatchSeq r :
  consumes r = true ->
  exists rs, execAll fl input r = Some rs /\ MatchSeq r 0 rs.
Proof.
  intros Hc.
  destruct (execLoop_MatchSeq r (fun acc res => acc ++ [res]) Hc
              (S (length input)) 0 []) as [rs [Hrs Hl]]; try lia.
  exists rs. split; [|exact Hrs]. unfold execAll. rewrite Hl. f_equal.
  assert (Hsnoc : forall l acc : list execResult,
            fold_left (fun acc res => acc ++ [res]) l acc = acc ++ l).
  { clear. induction l as [|x l IH]; intros acc; simpl.
    - now rewrite app_nil_r.
    - rewrite IH, <- app_assoc. reflexivity. }
  apply Hsnoc.
Qed.

Lemma MatchSeq_fun r i rs rs' :
  MatchSeq r i rs -> MatchSeq r i rs' -> rs = rs'.
Proof.
  intros H; revert rs'; induction H; intros rs' H'; inversion H'; subst;
    try congruence.
  match goal with
  | H1 : exec _ _ _ i = Some res, H2 : exec _ _ _ i = Some ?res' |- _ =>
      rewrite H1 in H2; inversion H2; subst
  end. f_equal. auto.
Qed.

End Semantics.
End RegexFacts.

(** ** The tokenizer *)

Module ChunkerFacts.
Import JS Num Regex RsvpUtils ListFacts RegexFacts.

(** Boolean tests on code units as arithmetic facts, for [lia]. *)
Ltac chars_to_prop :=
  unfold isNonSpace, isWordish, isTrailingPunct, isWordChar, isLetter, isUpper,
    isLower, isDigit, isWhiteSpace, isLineTerminator, inRange in *;
  repeat (rewrite ?negb_true_iff, ?negb_false_iff, ?orb_true_iff,
            ?andb_true_iff, ?orb_false_iff, ?andb_false_iff, ?N.eqb_eq,
            ?N.eqb_neq, ?N.leb_le, ?N.leb_gt in * ).

Lemma isWordish_nonSpace x : isWordish x = true -> isNonSpace x = true.
Proof. chars_to_prop. lia. Qed.

Lemma isTrailingPunct_nonSpace x : isTrailingPunct x = true -> isNonSpace x = true.
Proof. chars_to_prop. lia. Qed.

Lemma chunkRe_consumes : consumes chunkRe = true.
Proof. reflexivity. Qed.

Lemma chunkRe_atoms : atomsIn noFlags isNonSpace chunkRe.
Proof.
  simpl. unfold classMatches; simpl.
  repeat split; auto using isWordish_nonSpace, isTrailingPunct_nonSpace.
Qed.

Section Text.
Variable text : jsString.

(** The pattern fails at an index only where a white space character stands. *)
Lemma chunkRe_fails_on_space i x :
  matchAt noFlags text chunkRe i = None ->
  nth_error text i = Some x -> isWhiteSpace x = true.
Proof.
  intros Hnone Hx.
  destruct (isWhiteSpace x) eqn:Hw; [reflexivity|exfalso].
  apply (matchAt_complete _ _ _ _ Hnone (advance (init i))).
  apply M_AltR. unfold Plus. eapply M_Seq; [|apply M_Star0].
  eapply M_Class; [exact Hx|].
  unfold classMatches, isNonSpace; simpl. now rewrite Hw.
Qed.

(** The chunk pushed for a result of [exec]. *)
Definition chunkOf (res : execResult) : Chunk.t :=
  {| Chunk.text := match0 res;
     Chunk.start := Z.of_nat (index res);
     Chunk.end_ := (Z.of_nat (index res) + Z.of_nat (length (match0 res)))%Z;
     Chunk.kind := word;
     Chunk.focalIndex := Some (calculateFocalIndex (match0 res)) |}.

Lemma fold_chunkBody rs : forall acc,
  fold_left chunkBody rs acc = acc ++ map chunkOf rs.
Proof.
  induction rs as [|res rs IH]; intros acc; simpl.
  - now rewrite app_nil_r.
  - rewrite IH. unfold chunkBody, chunkOf. now rewrite <- app_assoc.
Qed.

(** The slice of [text] a chunk points to. *)
Definition sliceOf (c : Chunk.t) : jsString :=
  substring text (Z.to_nat (Chunk.start c)) (Z.to_nat (Chunk.end_ c)).

(** A chunk with offsets inside [text], not empty, whose text is its slice. *)
Definition wellPlaced (lo : nat) (c : Chunk.t) : Prop :=
  (Z.of_nat lo <= Chunk.start c < Chunk.end_ c)%Z
  /\ (Chunk.end_ c <= Z.of_nat (length text))%Z
  /\ Chunk.text c = sliceOf c
  /\ Chunk.kind c = word.

Lemma wellPlaced_weaken lo lo' c :
  lo' <= lo -> wellPlaced lo c -> wellPlaced lo' c.
Proof. unfold wellPlaced. intros Hle H. repeat split; try tauto; lia. Qed.

Lemma exec_chunk i res :
  exec noFlags text chunkRe i = Some res ->
  i <= index res /\ index res < endIndex res <= length text
  /\ match0 res = substring text (index res) (endIndex res)
  /\ forallb isWhiteSpace (substring text i (index res)) = true
  /\ forallb isNonSpace (match0 res) = true.
Proof.
  intros He. pose proof (exec_progress _ _ _ _ _ chunkRe_consumes He) as Hp.
  apply exec_Some in He.
  destruct He as [j [s' [Hj [Hbefore [Hat Hres]]]]]. subst res; simpl in *.
  repeat split; try tauto.
  - apply forallb_substring. intros k Hk.
    destruct (nth_error text k) as [x|] eqn:Hx.
    + exists x; split; [reflexivity|].
      eapply chunkRe_fails_on_space; eauto.
    + apply nth_error_None in Hx. lia.
  - apply forallb_substring. intros k Hk.
    apply matchAt_sound in Hat.
    apply (matches_span _ _ _ _ _ _ Hat chunkRe_atoms). simpl. exact Hk.
Qed.

Lemma exec_none_spaces i :
  i <= length text ->
  exec noFlags text chunkRe i = None ->
  forallb isWhiteSpace (skipn i text) = true.
Proof.
  intros Hi He. apply forallb_nth. intros k Hk.
  rewrite length_skipn in Hk. rewrite nth_error_skipn.
  destruct (nth_error text (i + k)) as [x|] eqn:Hx.
  - exists x; split; [reflexivity|].
    eapply chunkRe_fails_on_space; [|exact Hx].
    eapply exec_None; eauto. lia.
  - apply nth_error_None in Hx. lia.
Qed.

Lemma nonSpace_negb l :
  forallb isWhiteSpace l = true ->
  forallb (fun x => negb (isNonSpace x)) l = true.
Proof.
  induction l as [|x l IH]; simpl; [reflexivity|].
  intros H. apply andb_prop in H. destruct H as [Hx Hl].
  unfold isNonSpace at 1. now rewrite negb_involutive, Hx, IH.
Qed.

(** The invariant of the loop, read on the results of [exec] from [i]. *)
Lemma matchSeq_chunks i rs :
  MatchSeq noFlags text chunkRe i rs -> i <= length text ->
  Forall (wellPlaced i) (map chunkOf rs)
  /\ StronglySorted (fun a b => (Chunk.end_ a <= Chunk.start b)%Z)
                    (map chunkOf rs)
  /\ concat (map sliceOf (map chunkOf rs)) = filter isNonSpace (skipn i text).
Proof.
  induction 1 as [i He | i res rs He Hrs IH]; intros Hi; simpl.
  - repeat split; try constructor.
    symmetry. apply filter_none, nonSpace_negb. now apply exec_none_spaces.
  - destruct (exec_chunk _ _ He) as [Hidx [Hend [Hm0 [Hsp Hns]]]].
    destruct IH as [Hwp [Hsorted Hcat]]; [lia|].
    assert (Hlen : length (match0 res) = endIndex res - index res).
    { rewrite Hm0. unfold substring. apply length_substring; lia. }
    assert (Hslice : sliceOf (chunkOf res) = match0 res).
    { unfold sliceOf, chunkOf; simpl. rewrite Hlen.
      rewrite <- Nat2Z.inj_add, !Nat2Z.id.
      replace (index res + (endIndex res - index res)) with (endIndex res)
        by lia.
      now rewrite Hm0. }
    assert (Hw : wellPlaced i (chunkOf res)).
    { unfold wellPlaced. rewrite Hslice. simpl. rewrite Hlen.
      repeat split; try lia. }
    repeat split.
    + constructor; [exact Hw|].
      eapply Forall_impl; [|exact Hwp].
      intros c. apply wellPlaced_weaken. lia.
    + constructor; [exact Hsorted|].
      eapply Forall_impl; [|exact Hwp].
      intros c Hc. unfold wellPlaced in Hc. simpl. rewrite Hlen. lia.
    + rewrite Hslice, Hcat.
      rewrite (substring_split text i (index res)) by lia.
      rewrite (substring_split text (index res) (endIndex res)) by lia.
      rewrite !filter_app.
      fold (substring text i (index res)).
      fold (substring text (index res) (endIndex res)).
      rewrite (filter_none _ _ (nonSpace_negb _ Hsp)).
      rewrite <- Hm0, (filter_all _ _ Hns). reflexivity.
Qed.

Lemma algorithmicChunker_eq :
  exists rs, MatchSeq noFlags text chunkRe 0 rs
             /\ algorithmicChunker text = Some (map chunkOf rs).
Proof.
  destruct (execLoop_MatchSeq noFlags text chunkRe chunkBody chunkRe_consumes
              (S (length text)) 0 []) as [rs [Hrs Hl]]; try lia.
  exists rs. split; [exact Hrs|].
  unfold algorithmicChunker, algorithmicChunkerFuel.
  now rewrite Hl, fold_chunkBody.
Qed.

Lemma wellPlaced_slice_nonempty lo c : wellPlaced lo c -> sliceOf c <> [].
Proof.
  unfold wellPlaced, sliceOf, substring. intros [Hs [He _]] Hnil.
  apply (f_equal (@length char)) in Hnil.
  rewrite length_substring in Hnil; simpl in Hnil; lia.
Qed.

Lemma starts_increase cs lo :
  Forall (wellPlaced lo) cs ->
  StronglySorted (fun a b => (Chunk.end_ a <= Chunk.start b)%Z) cs ->
  StronglySorted (fun a b => (Chunk.start a < Chunk.start b)%Z) cs.
Proof.
  induction cs as [|c cs IH]; intros Hw Hs; [constructor|].
  inversion Hw; subst. inversion Hs; subst.
  constructor; [auto|].
  eapply Forall_impl; [|eassumption].
  intros b Hb. unfold wellPlaced in *. simpl in Hb. lia.
Qed.

End Text.
End ChunkerFacts.

(** ** The chapter extractor *)

Module ChapterFacts.
Import JS Num Regex RsvpUtils ListFacts RegexFacts.

Lemma chapterRe_consumes : consumes chapterRe = true.
Proof. reflexivity. Qed.

(** *** [findIndex] *)

Lemma findIndexFrom_range {A : Type} (f : A -> bool) l : forall i,
  findIndexFrom f l i = (-1)%Z
  \/ (i <= findIndexFrom f l i < i + Z.of_nat (length l))%Z.
Proof.
  induction l as [|x l IH]; intros i; simpl; [now left|].
  destruct (f x); [right; lia|].
  destruct (IH (i + 1)%Z) as [H | H]; [now left | right; lia].
Qed.

(** A weaker test is met no later: the index found moves right (or is lost)
    when the test gets stronger. *)
Lemma findIndexFrom_mono {A : Type} (f g : A -> bool) l :
  (forall x, g x = true -> f x = true) ->
  forall i, (0 <= i)%Z ->
    findIndexFrom g l i = (-1)%Z
    \/ (0 <= findIndexFrom f l i <= findIndexFrom g l i)%Z.
Proof.
  intros Himp. induction l as [|x l IH]; intros i Hi; simpl; [now left|].
  destruct (g x) eqn:Hg.
  - rewrite (Himp x Hg). right; lia.
  - destruct (f x).
    + destruct (findIndexFrom_range g l (i + 1)%Z); [now left | right; lia].
    + apply IH. lia.
Qed.

Section Extract.
Variable text : jsString.
Variable chunks : list Chunk.t.

(** The chunk index a match resolves to: the first chunk that starts at or
    after the offset of the match, [-1] when there is none. *)
Definition resolveIndex (res : execResult) : Z :=
  findIndex (fun c => (Z.of_nat (index res) <=? Chunk.start c)%Z) chunks.

Lemma resolveIndex_range res :
  resolveIndex res = (-1)%Z \/ (0 <= resolveIndex res)%Z.
Proof.
  unfold resolveIndex, findIndex.
  destruct (findIndexFrom_range
              (fun c => (Z.of_nat (index res) <=? Chunk.start c)%Z) chunks 0%Z);
    [now left | right; lia].
Qed.

Lemma resolveIndex_mono res res' :
  index res <= index res' ->
  resolveIndex res' = (-1)%Z
  \/ (0 <= resolveIndex res <= resolveIndex res')%Z.
Proof.
  intros Hle. unfold resolveIndex, findIndex.
  apply findIndexFrom_mono; [|lia].
  intros c Hc. apply Z.leb_le in Hc. apply Z.leb_le. lia.
Qed.

(** The title of a match: the line trimmed, cut to 50 characters and an
    ellipsis when longer. *)
Definition titleOf (res : execResult) : jsString :=
  let title := trim (match match1 res with Some t => t | None => [] end) in
  if 50 <? length title then substring title 0 50 ++ ellipsis else title.

Definition markerOf (res : execResult) : Chapter.t :=
  {| Chapter.title := titleOf res; Chapter.chunkIndex := resolveIndex res |}.

(** The markers of the matches that resolve to a chunk, in order. *)
Definition resolvedMarkers (rs : list execResult) : list Chapter.t :=
  map markerOf
      (filter (fun res => negb (resolveIndex res =? -1)%Z) rs).

(** Runs of markers with the same chunk index reduced to their first
    marker; [prev] is the chunk index of the marker before, if any. *)
Fixpoint dedupFirst (prev : option Z) (l : list Chapter.t) : list Chapter.t :=
  match l with
  | [] => []
  | a :: l' =>
      match prev with
      | Some p =>
          if (p =? Chapter.chunkIndex a)%Z then dedupFirst prev l'
          else a :: dedupFirst (Some (Chapter.chunkIndex a)) l'
      | None => a :: dedupFirst (Some (Chapter.chunkIndex a)) l'
      end
  end.

Definition lastIndexOf (chapters : list Chapter.t) : option Z :=
  match chapters with
  | [] => None
  | _ => Some (lastChunkIndex chapters)
  end.

Lemma lastChunkIndex_snoc acc a :
  lastChunkIndex (acc ++ [a]) = Chapter.chunkIndex a.
Proof. unfold lastChunkIndex. now rewrite last_last. Qed.

Lemma lastIndexOf_snoc acc a :
  lastIndexOf (acc ++ [a]) = Some (Chapter.chunkIndex a).
Proof.
  unfold lastIndexOf. rewrite lastChunkIndex_snoc.
  destruct acc; reflexivity.
Qed.

(** The loop body is the deduplication of the resolved markers. *)
Lemma fold_chapterBody rs : forall acc,
  fold_left (chapterBody chunks) rs acc
  = acc ++ dedupFirst (lastIndexOf acc) (resolvedMarkers rs).
Proof.
  induction rs as [|res rs IH]; intros acc.
  - simpl. now rewrite app_nil_r.
  - cbn [fold_left]. rewrite IH. clear IH.
    unfold resolvedMarkers. cbn [filter].
    unfold chapterBody. fold (resolveIndex res). fold (titleOf res).
    destruct (resolveIndex res =? -1)%Z eqn:Hneg; cbn [negb map];
      [reflexivity|].
    destruct acc as [|a0 acc0] eqn:Hacc.
    + cbn [length Nat.eqb orb lastIndexOf dedupFirst app].
      reflexivity.
    + rewrite <- Hacc.
      assert (Hlast : lastIndexOf acc = Some (lastChunkIndex acc))
        by (subst acc; reflexivity).
      assert (Hlen : (length acc =? 0) = false) by (subst acc; reflexivity).
      rewrite Hlen, Hlast. cbn [orb dedupFirst markerOf Chapter.chunkIndex].
      destruct (lastChunkIndex acc =? resolveIndex res)%Z eqn:Heq;
        cbn [negb].
      * now rewrite Hlast.
      * rewrite lastIndexOf_snoc, <- app_assoc. reflexivity.
Qed.

(** *** Order of the markers *)

Definition nonDecreasing (l : list Chapter.t) : Prop :=
  StronglySorted
    (fun a b => (Chapter.chunkIndex a <= Chapter.chunkIndex b)%Z) l.
Definition increasing (l : list Chapter.t) : Prop :=
  StronglySorted
    (fun a b => (Chapter.chunkIndex a < Chapter.chunkIndex b)%Z) l.

Lemma dedupFirst_increasing l : forall prev,
  nonDecreasing l ->
  Forall (fun a => forall p, prev = Some p -> (p <= Chapter.chunkIndex a)%Z) l ->
  increasing (dedupFirst prev l)
  /\ Forall (fun a => forall p, prev = Some p -> (p < Chapter.chunkIndex a)%Z)
            (dedupFirst prev l).
Proof.
  induction l as [|a l IH]; intros prev Hnd Hlo; simpl.
  - split; constructor.
  - inversion Hnd as [|? ? Hnd' Hle]; subst.
    inversion Hlo as [|? ? Ha Hlo']; subst.
    assert (Hnext :
      increasing (a :: dedupFirst (Some (Chapter.chunkIndex a)) l)
      /\ Forall (fun b => (Chapter.chunkIndex a < Chapter.chunkIndex b)%Z)
                (dedupFirst (Some (Chapter.chunkIndex a)) l)).
    { destruct (IH (Some (Chapter.chunkIndex a)) Hnd') as [Hinc Hgt].
      - eapply Forall_impl; [|exact Hle].
        intros b Hb p Hp. inversion Hp; subst. exact Hb.
      - assert (Hgt' : Forall
          (fun b => (Chapter.chunkIndex a < Chapter.chunkIndex b)%Z)
          (dedupFirst (Some (Chapter.chunkIndex a)) l)).
        { eapply Forall_impl; [|exact Hgt]. intros b Hb. now apply Hb. }
        split; [constructor; assumption | assumption]. }
    destruct Hnext as [Hinc Hgt].
    destruct prev as [p|].
    + destruct (Z.eqb_spec p (Chapter.chunkIndex a)) as [Heq | Hne].
      * apply IH; assumption.
      * split; [exact Hinc|].
        pose proof (Ha p eq_refl) as Hpa.
        constructor.
        -- intros q Hq. inversion Hq; subst. lia.
        -- eapply Forall_impl; [|exact Hgt].
           intros b Hb q Hq. inversion Hq; subst. simpl in Hb. lia.
    + split; [exact Hinc|].
      constructor; [discriminate|].
      eapply Forall_impl; [|exact Hgt]. intros b Hb q Hq. discriminate.
Qed.

(** The matches come at increasing offsets, so the chunk indices they
    resolve to never decrease. *)
Lemma matchSeq_indices r fl i rs :
  consumes r = true -> MatchSeq fl text r i rs ->
  Forall (fun res => i <= index res) rs
  /\ StronglySorted (fun a b => index a <= index b) rs.
Proof.
  intros Hc. induction 1 as [i He | i res rs He Hrs IH].
  - split; constructor.
  - destruct (exec_progress _ _ _ _ _ Hc He) as [Hi [Hlt Hend]].
    destruct IH as [Hlo Hs]. split.
    + constructor; [exact Hi|].
      eapply Forall_impl; [|exact Hlo]. intros; simpl in *; lia.
    + constructor; [exact Hs|].
      eapply Forall_impl; [|exact Hlo]. intros; simpl in *; lia.
Qed.

Lemma resolvedMarkers_nonDecreasing rs :
  StronglySorted (fun a b => index a <= index b) rs ->
  nonDecreasing (resolvedMarkers rs)
  /\ Forall (fun a => (0 <= Chapter.chunkIndex a)%Z) (resolvedMarkers rs).
Proof.
  unfold resolvedMarkers, nonDecreasing.
  induction 1 as [|res rs Hs IH Hle]; simpl; [split; constructor|].
  destruct IH as [IHs IHp].
  destruct (Z.eqb_spec (resolveIndex res) (-1)) as [Heq | Hne]; simpl;
    [split; assumption|].
  split.
  - constructor; [exact IHs|].
    apply Forall_forall. intros a Ha.
    apply in_map_iff in Ha. destruct Ha as [res' [Hres' Hin]]. subst a.
    apply filter_In in Hin. destruct Hin as [Hin Hok].
    apply negb_true_iff, Z.eqb_neq in Hok.
    rewrite Forall_forall in Hle.
    destruct (resolveIndex_mono res res' (Hle _ Hin)); simpl; lia.
  - constructor; [|exact IHp]. simpl.
    destruct (resolveIndex_range res); lia.
Qed.

Lemma findIndexFrom_none {A : Type} (f : A -> bool) l :
  (forall x, In x l -> f x = false) -> forall i, findIndexFrom f l i = (-1)%Z.
Proof.
  induction l as [|x l IH]; intros Hf i; simpl; [reflexivity|].
  rewrite (Hf x (or_introl eq_refl)). apply IH. intros y Hy. apply Hf. now right.
Qed.

Lemma resolvedMarkers_none rs :
  (forall res c, In res rs -> In c chunks ->
                 (Chunk.start c < Z.of_nat (index res))%Z) ->
  resolvedMarkers rs = [].
Proof.
  intros H. unfold resolvedMarkers.
  induction rs as [|res rs IH]; simpl; [reflexivity|].
  assert (Hres : resolveIndex res = (-1)%Z).
  { unfold resolveIndex, findIndex. apply findIndexFrom_none.
    intros c Hc. apply Z.leb_gt. apply H; [now left | exact Hc]. }
  rewrite Hres. simpl. apply IH. intros res' c Hr Hc. apply H; [now right | exact Hc].
Qed.

End Extract.

(** A text without a match of the heading pattern has no result of [exec]. *)
Lemma no_heading_no_match text rs :
  (forall i s', ~ matches chapterFlags text chapterRe (init i) s') ->
  MatchSeq chapterFlags text chapterRe 0 rs -> rs = [].
Proof.
  intros Hno Hrs. inversion Hrs as [i He | i res rs' He Hrs']; subst;
    [reflexivity|exfalso].
  apply exec_Some in He. destruct He as [j [s' [_ [_ [Hat _]]]]].
  apply matchAt_sound in Hat. exact (Hno _ _ Hat).
Qed.

(** The result of [extractChapters] on the results [rs] of [exec]. *)
Lemma extractChapters_eq text chunks :
  exists rs,
    execAll chapterFlags text chapterRe = Some rs
    /\ MatchSeq chapterFlags text chapterRe 0 rs
    /\ extractChapters text chunks
        = Some (match dedupFirst None (resolvedMarkers chunks rs) with
                | [] => [defaultChapter]
                | chapters => chapters
                end).
Proof.
  destruct (execAll_MatchSeq chapterFlags text chapterRe chapterRe_consumes)
    as [rs [Hall Hrs]].
  exists rs. split; [exact Hall|]. split; [exact Hrs|].
  destruct (execLoop_MatchSeq chapterFlags text chapterRe (chapterBody chunks)
              chapterRe_consumes (S (length text)) 0 []) as [rs' [Hrs' Hl]];
    try lia.
  rewrite (MatchSeq_fun _ _ _ _ _ _ Hrs' Hrs) in Hl.
  unfold extractChapters, extractChaptersFuel. rewrite Hl, fold_chapterBody.
  simpl. destruct (dedupFirst None (resolvedMarkers chunks rs)); reflexivity.
Qed.

End ChapterFacts.

(** ** The reconciler *)

Module ReconcilerFacts.
Import JS Num Regex RsvpUtils AiService App ListFacts.

Section Text.
Variable text : jsString.

(** [p] occurs in [text] at offset [k]. *)
Definition occursAt (p : jsString) (k : nat) : Prop :=
  k + length p <= length text /\ substring text k (k + length p) = p.

(** [k] is the offset of the first occurrence of [p] at or after [from]. *)
Definition firstOccurrenceFrom (p : jsString) (from k : nat) : Prop :=
  from <= k /\ occursAt p k
  /\ forall k', from <= k' < k -> ~ occursAt p k'.

(** The chunk of an item resolved at offset [k]. *)
Definition chunkAt (item : Item.t) (k : nat) : Chunk.t :=
  {| Chunk.text := Item.text item;
     Chunk.start := Z.of_nat k;
     Chunk.end_ := Z.of_nat (k + length (Item.text item));
     Chunk.kind := Item.kind item;
     Chunk.focalIndex := Some (calculateFocalIndex (Item.text item)) |}.

(** [Resolves from items chunks E]: scanning [text] from the offset [from],
    every item is resolved to the first occurrence of its text at or after
    the end of the item resolved before it, an item without such an
    occurrence is dropped, and [E] is the end offset of the last resolved
    item ([from] when none is resolved). *)
Inductive Resolves : nat -> list Item.t -> list Chunk.t -> nat -> Prop :=
| Resolves_nil from : Resolves from [] [] from
| Resolves_found from item items k chunks E :
    firstOccurrenceFrom (Item.text item) from k ->
    Resolves (k + length (Item.text item)) items chunks E ->
    Resolves from (item :: items) (chunkAt item k :: chunks) E
| Resolves_dropped from item items chunks E :
    (forall k, from <= k -> ~ occursAt (Item.text item) k) ->
    Resolves from items chunks E ->
    Resolves from (item :: items) chunks E.

(** *** [indexOf] *)

Lemma isPrefix_firstn p : forall s,
  isPrefix p s = true <-> (length p <= length s /\ firstn (length p) s = p).
Proof.
  induction p as [|x p IH]; intros s; simpl.
  - split; [intros _; split; [lia | reflexivity] | reflexivity].
  - destruct s as [|y s]; simpl.
    + split; [discriminate | intros [H _]; lia].
    + rewrite andb_true_iff, N.eqb_eq, IH. split.
      * intros [Hxy [Hl Hf]]. subst. split; [lia | now rewrite Hf].
      * intros [Hl Hf]. injection Hf as Hxy Hp.
        repeat split; auto; lia.
Qed.

Lemma occursAt_prefix p k :
  k <= length text ->
  (isPrefix p (skipn k text) = true <-> occursAt p k).
Proof.
  intros Hk. rewrite isPrefix_firstn. unfold occursAt, substring.
  rewrite length_skipn.
  replace (k + length p - k) with (length p) by lia.
  split; intros [H1 H2]; split; auto; lia.
Qed.

Lemma indexOfFrom_spec p : forall n k,
  k + n = length text ->
  match indexOfFrom p (skipn k text) k with
  | Some i => firstOccurrenceFrom p k i
  | None => forall j, k <= j -> ~ occursAt p j
  end.
Proof.
  induction n as [|n IH]; intros k Hk.
  - rewrite skipn_all2 by lia.
    pose proof (occursAt_prefix p k ltac:(lia)) as Hocc.
    rewrite skipn_all2 in Hocc by lia.
    simpl. destruct (isPrefix p []) eqn:Hp.
    + split; [lia | split; [now apply Hocc | intros; lia]].
    + intros j Hj [Hlen _]. assert (j = k) by lia. subst j.
      destruct p; [discriminate | simpl in Hlen; lia].
  - pose proof (occursAt_prefix p k ltac:(lia)) as Hocc.
    specialize (IH (S k) ltac:(lia)).
    destruct (skipn k text) as [|c rest] eqn:Hs.
    { apply (f_equal (@length char)) in Hs. rewrite length_skipn in Hs.
      simpl in Hs. lia. }
    assert (Hrest : skipn (S k) text = rest).
    { replace (S k) with (1 + k) by lia. rewrite <- skipn_skipn, Hs.
      reflexivity. }
    rewrite Hrest in IH.
    cbn [indexOfFrom]. destruct (isPrefix p (c :: rest)) eqn:Hp.
    + split; [lia | split; [now apply Hocc | intros; lia]].
    + assert (Hnot : ~ occursAt p k).
      { intros Ho. apply Hocc in Ho. congruence. }
      destruct (indexOfFrom p rest (S k)) as [i|].
      * destruct IH as [Hi [Ho Hbefore]].
        split; [lia | split; [exact Ho|]].
        intros k' Hk'. destruct (Nat.eq_dec k' k); [subst; exact Hnot|].
        apply Hbefore. lia.
      * intros j Hj. destruct (Nat.eq_dec j k); [subst; exact Hnot|].
        apply IH. lia.
Qed.

Lemma indexOf_spec p from :
  from <= length text ->
  (exists k, indexOf text p (Z.of_nat from) = Z.of_nat k
             /\ firstOccurrenceFrom p from k)
  \/ (indexOf text p (Z.of_nat from) = (-1)%Z
      /\ forall k, from <= k -> ~ occursAt p k).
Proof.
  intros Hfrom. unfold indexOf. rewrite Nat2Z.id, Nat.min_l by exact Hfrom.
  pose proof (indexOfFrom_spec p (length text - from) from ltac:(lia)) as H.
  destruct (indexOfFrom p (skipn from text) from) as [i|].
  - left. exists i. split; [reflexivity | exact H].
  - right. split; [reflexivity | exact H].
Qed.

(** *** The re-mapping loop *)

(** [end] of the last chunk, [d] for the empty list. *)
Definition lastEnd (d : Z) (chunks : list Chunk.t) : Z :=
  match rev chunks with
  | c :: _ => Chunk.end_ c
  | [] => d
  end.

Lemma lastEnd_cons d c chunks :
  lastEnd d (c :: chunks) = lastEnd (Chunk.end_ c) chunks.
Proof.
  unfold lastEnd. simpl. destruct (rev chunks) as [|c' l]; reflexivity.
Qed.

Lemma remapLoop_resolves items : forall from acc,
  from <= length text ->
  exists chunks E,
    remapLoop text items (Z.of_nat from) acc = acc ++ chunks
    /\ Resolves from items chunks E
    /\ lastEnd (Z.of_nat from) chunks = Z.of_nat E.
Proof.
  induction items as [|item items IH]; intros from acc Hfrom.
  - exists [], from. simpl. rewrite app_nil_r.
    repeat split. constructor.
  - cbn [remapLoop].
    destruct (indexOf_spec (Item.text item) from Hfrom)
      as [[k [Hidx Hfirst]] | [Hidx Hnone]]; rewrite Hidx.
    + destruct (Z.eqb_spec (Z.of_nat k) (-1)); [lia|].
      assert (Hend : k + length (Item.text item) <= length text)
        by (destruct Hfirst as [_ [[Hle _] _]]; exact Hle).
      rewrite <- Nat2Z.inj_add.
      destruct (IH (k + length (Item.text item))
                   (acc ++ [chunkAt item k]) Hend) as [chunks [E [Hl [Hr He]]]].
      exists (chunkAt item k :: chunks), E.
      split; [|split].
      * unfold chunkAt in Hl. rewrite Hl, <- app_assoc. reflexivity.
      * econstructor; eauto.
      * rewrite lastEnd_cons. exact He.
    + simpl. destruct (IH from acc Hfrom) as [chunks [E [Hl [Hr He]]]].
      exists chunks, E. split; [exact Hl|]. split; [|exact He].
      now constructor.
Qed.

End Text.

Lemma mergedChunks_spec existing smartChunks :
  Forall (fun c => (0 <= Chunk.start c)%Z) existing ->
  mergedChunks existing smartChunks
  = smartChunks
    ++ filter (fun c => (lastEnd 0 smartChunks <=? Chunk.start c)%Z) existing.
Proof.
  intros Hpos. unfold mergedChunks.
  destruct smartChunks as [|c cs]; [|reflexivity].
  simpl. symmetry. apply filter_all.
  apply forallb_forall. rewrite Forall_forall in Hpos.
  intros c Hc. apply Z.leb_le. unfold lastEnd; simpl. auto.
Qed.

End ReconcilerFacts.

(** ** The delay calculator: the punctuation step *)

Module DelayFacts.
Import JS Num Regex RsvpUtils.

Definition sentenceMarks : list jsString :=
  [ofString "."; ofString "!"; ofString "?"].
Definition clauseMarks : list jsString :=
  [ofString ","; ofString ";"; ofString ":"].

(** A last character is not both a clause mark and a sentence mark. *)
Lemma clause_not_sentence (lastChar : jsString) :
  includes clauseMarks lastChar = true ->
  includes sentenceMarks lastChar = false.
Proof.
  destruct lastChar as [|x [|y l]]; simpl.
  - reflexivity.
  - rewrite !andb_true_r, !orb_false_r.
    rewrite !orb_true_iff, !orb_false_iff, !N.eqb_eq, !N.eqb_neq. lia.
  - rewrite !andb_false_r. discriminate.
Qed.

End DelayFacts.

(** ** binary64 arithmetic: bounds on the rounded results *)

Module NumFacts.
Import Num.
Local Open Scope Z_scope.

(** *** Digits and shifts *)

Lemma digits2_pos_bounds p :
  2 ^ (Zpos (digits2_pos p) - 1) <= Zpos p < 2 ^ Zpos (digits2_pos p).
Proof.
  induction p as [p IH | p IH |]; simpl digits2_pos.
  - rewrite Pos2Z.inj_succ, (Pos2Z.inj_xI p).
    replace (Z.succ (Zpos (digits2_pos p)) - 1)
      with (Z.succ (Zpos (digits2_pos p) - 1)) by lia.
    rewrite (Z.pow_succ_r 2 (Zpos (digits2_pos p))) by lia.
    rewrite (Z.pow_succ_r 2 (Zpos (digits2_pos p) - 1)) by lia. lia.
  - rewrite Pos2Z.inj_succ, (Pos2Z.inj_xO p).
    replace (Z.succ (Zpos (digits2_pos p)) - 1)
      with (Z.succ (Zpos (digits2_pos p) - 1)) by lia.
    rewrite (Z.pow_succ_r 2 (Zpos (digits2_pos p))) by lia.
    rewrite (Z.pow_succ_r 2 (Zpos (digits2_pos p) - 1)) by lia. lia.
  - simpl. lia.
Qed.

Lemma Zdigits2_bounds z :
  0 < z -> 2 ^ (Zdigits2 z - 1) <= z < 2 ^ Zdigits2 z.
Proof.
  destruct z as [|p|p]; try lia. intros _. apply digits2_pos_bounds.
Qed.

Lemma Zdigits2_unique z d :
  2 ^ (d - 1) <= z < 2 ^ d -> 0 < z -> Zdigits2 z = d.
Proof.
  intros Hz Hpos. pose proof (Zdigits2_bounds z Hpos) as Hd.
  assert (Hd1 : 1 <= Zdigits2 z) by (destruct z; simpl; lia).
  assert (Hdpos : 1 <= d).
  { destruct (Z.le_gt_cases 1 d) as [|Hd0]; [assumption|exfalso].
    destruct (Z.eq_dec d 0) as [-> | Hne]; [simpl in Hz; lia|].
    rewrite (Z.pow_neg_r 2 d) in Hz by lia. lia. }
  destruct (Z.lt_trichotomy (Zdigits2 z) d) as [Hlt | [Heq | Hgt]];
    [exfalso | exact Heq | exfalso].
  - assert (2 ^ Zdigits2 z <= 2 ^ (d - 1)) by (apply Z.pow_le_mono_r; lia).
    lia.
  - assert (2 ^ d <= 2 ^ (Zdigits2 z - 1)) by (apply Z.pow_le_mono_r; lia).
    lia.
Qed.

Lemma iter_pos_nat {A : Type} (f : A -> A) p : forall x,
  iter_pos f p x = Nat.iter (Pos.to_nat p) f x.
Proof.
  induction p as [p IH | p IH |]; intros x; cbn [iter_pos].
  - rewrite !IH, Pos2Nat.inj_xI.
    replace (S (2 * Pos.to_nat p))%nat
      with (Pos.to_nat p + S (Pos.to_nat p))%nat by lia.
    rewrite Nat.iter_add, Nat.iter_succ_r. reflexivity.
  - rewrite !IH, Pos2Nat.inj_xO.
    replace (2 * Pos.to_nat p)%nat with (Pos.to_nat p + Pos.to_nat p)%nat
      by lia.
    now rewrite Nat.iter_add.
  - reflexivity.
Qed.

Lemma shr_1_m mrs : 0 <= shr_m mrs -> shr_m (shr_1 mrs) = shr_m mrs / 2.
Proof.
  destruct mrs as [m r s]; simpl. intros Hm.
  destruct m as [|[p|p|]|p]; simpl; try lia; try reflexivity.
  - rewrite (Pos2Z.inj_xI p).
    apply Z.div_unique with (r := 1); lia.
  - rewrite (Pos2Z.inj_xO p).
    apply Z.div_unique with (r := 0); lia.
Qed.

Lemma shr_iter_m n : forall mrs,
  0 <= shr_m mrs ->
  shr_m (Nat.iter n shr_1 mrs) = shr_m mrs / 2 ^ Z.of_nat n.
Proof.
  induction n as [|n IH]; intros mrs Hm.
  - simpl. now rewrite Z.div_1_r.
  - rewrite Nat.iter_succ_r, IH.
    + rewrite shr_1_m by exact Hm.
      rewrite Nat2Z.inj_succ, Z.pow_succ_r by lia.
      rewrite Z.div_div by lia. reflexivity.
    + rewrite shr_1_m by exact Hm. apply Z.div_pos; lia.
Qed.

(** [shr] by [n >= 0] places divides the mantissa by [2^n]. *)
Lemma shr_spec mrs e n :
  0 <= shr_m mrs -> 0 <= n ->
  shr_m (fst (shr mrs e n)) = shr_m mrs / 2 ^ n /\ snd (shr mrs e n) = e + n.
Proof.
  intros Hm Hn. destruct n as [|p|p]; try lia; simpl.
  - split; [now rewrite Z.div_1_r | lia].
  - split; [|reflexivity].
    rewrite iter_pos_nat, shr_iter_m by exact Hm.
    now rewrite positive_nat_Z.
Qed.

Lemma round_nearest_even_range m l :
  round_nearest_even m l = m \/ round_nearest_even m l = m + 1.
Proof.
  destruct l as [|[]]; simpl; auto. destruct (Z.even m); auto.
Qed.

Lemma shr_record_of_loc_m m l : shr_m (shr_record_of_loc m l) = m.
Proof. destruct l as [|[]]; reflexivity. Qed.

Lemma fexp_normal e : -1074 <= e - 53 -> fexp prec emax e = e - 53.
Proof. unfold fexp, SpecFloat.emin, prec, emax. lia. Qed.


(** *** Rounding to nearest of a positive value *)

(** A positive number of the normal range: a mantissa of 53 bits. *)
Definition normalPos (x : number) : Prop :=
  exists m e, x = S754_finite false m e
              /\ 2 ^ 52 <= Zpos m < 2 ^ 53 /\ -1074 <= e <= 971.

Lemma pow2_split a b : 0 <= a -> 0 <= b -> 2 ^ (a + b) = 2 ^ a * 2 ^ b.
Proof. intros. now rewrite Z.pow_add_r. Qed.

Lemma pow2_pos a : 0 <= a -> 0 < 2 ^ a.
Proof. intros. apply Z.pow_pos_nonneg; lia. Qed.

(** The mantissa [mx] of [d >= 53] bits cut to its 53 leading bits. *)
Lemma leading_bits mx d :
  53 <= d -> 2 ^ (d - 1) <= mx < 2 ^ d ->
  2 ^ 52 <= mx / 2 ^ (d - 53) < 2 ^ 53.
Proof.
  intros Hd Hmx.
  pose proof (pow2_pos (d - 53) ltac:(lia)) as Hpos.
  split.
  - apply Z.div_le_lower_bound; [exact Hpos|].
    rewrite Z.mul_comm, <- pow2_split by lia.
    replace (52 + (d - 53)) with (d - 1) by lia. tauto.
  - apply Z.div_lt_upper_bound; [exact Hpos|].
    rewrite <- pow2_split by lia.
    replace (d - 53 + 53) with d by lia. tauto.
Qed.

(** The second normalisation of [binary_round_aux], on a mantissa that is
    [2^53] at most. *)
Lemma renormalise m1 e' :
  2 ^ 52 <= m1 <= 2 ^ 53 -> -1074 <= e' ->
  let r := shr_fexp prec emax m1 e' loc_Exact in
  (m1 < 2 ^ 53 /\ shr_m (fst r) = m1 /\ snd r = e')
  \/ (m1 = 2 ^ 53 /\ shr_m (fst r) = 2 ^ 52 /\ snd r = e' + 1).
Proof.
  intros Hm He. unfold shr_fexp.
  destruct (Z.eq_dec m1 (2 ^ 53)) as [Heq | Hne].
  - right. subst m1. split; [reflexivity|].
    change (Zdigits2 (2 ^ 53)) with 54.
    rewrite fexp_normal by lia.
    replace (54 + e' - 53 - e') with 1 by lia.
    split; reflexivity.
  - left. split; [lia|].
    rewrite (Zdigits2_unique m1 53) by (simpl; lia).
    rewrite fexp_normal by lia.
    replace (53 + e' - 53 - e') with 0 by lia.
    split; reflexivity.
Qed.

(** The rounding of [mx * 2^ex], [mx] of [d >= 53] bits, in the normal
    range: the result is the value cut to 53 bits or the next one up. *)
Lemma bra_core mx ex lx d :
  Zdigits2 mx = d -> 0 < mx -> 53 <= d -> -1074 <= ex + d - 53 ->
  (binary_round_aux prec emax false mx ex lx = S754_infinity false
   /\ 971 <= ex + d - 53)
  \/ exists m e,
       binary_round_aux prec emax false mx ex lx = S754_finite false m e
       /\ 2 ^ 52 <= Zpos m < 2 ^ 53 /\ -1074 <= e <= 971
       /\ ((Zpos m = mx / 2 ^ (d - 53) /\ e = ex + d - 53)
           \/ (Zpos m = mx / 2 ^ (d - 53) + 1 /\ e = ex + d - 53)
           \/ (Zpos m = 2 ^ 52 /\ e = ex + d - 53 + 1
               /\ mx / 2 ^ (d - 53) + 1 = 2 ^ 53)).
Proof.
  intros Hd Hpos Hd53 Hrange.
  pose proof (Zdigits2_bounds mx Hpos) as Hmx. rewrite Hd in Hmx.
  pose proof (leading_bits mx d Hd53 Hmx) as Hlead.
  remember (binary_round_aux prec emax false mx ex lx) as x eqn:Hx.
  revert Hx. unfold binary_round_aux.
  unfold shr_fexp at 1. rewrite Hd, fexp_normal by lia.
  replace (d + ex - 53 - ex) with (d - 53) by lia.
  destruct (shr_spec (shr_record_of_loc mx lx) ex (d - 53)) as [Hm He];
    [rewrite shr_record_of_loc_m; lia | lia |].
  rewrite shr_record_of_loc_m in Hm.
  destruct (shr (shr_record_of_loc mx lx) ex (d - 53)) as [mrs' e'].
  simpl in Hm, He. subst e'. rewrite Hm.
  set (m' := mx / 2 ^ (d - 53)) in *.
  set (m1 := round_nearest_even m' (loc_of_shr_record mrs')).
  assert (Hm1 : m1 = m' \/ m1 = m' + 1) by apply round_nearest_even_range.
  destruct (renormalise m1 (ex + (d - 53)) ltac:(lia) ltac:(lia))
    as [[Hlt [Hr He]] | [Heq [Hr He]]];
    destruct (shr_fexp prec emax m1 (ex + (d - 53)) loc_Exact) as [mrs'' e''];
    simpl in Hr, He; subst e''; rewrite Hr.
  - destruct m1 as [|p1|p1] eqn:Hp1; try lia.
    change (emax - prec) with 971.
    destruct (Z.leb_spec (ex + (d - 53)) 971) as [Hle | Hgt]; intros ->.
    + right. exists p1, (ex + (d - 53)).
      split; [reflexivity|]. split; [lia|]. split; [lia|].
      destruct Hm1 as [Hm1 | Hm1]; [left | right; left]; lia.
    + left. split; [reflexivity | lia].
  - change (2 ^ 52) with (Zpos (2 ^ 52)%positive).
    cbv beta iota. change (emax - prec) with 971.
    destruct (Z.leb_spec (ex + (d - 53) + 1) 971) as [Hle | Hgt]; intros ->.
    + right. exists (2 ^ 52)%positive, (ex + (d - 53) + 1).
      split; [reflexivity|]. split; [simpl; lia|]. split; [lia|].
      right; right. split; [reflexivity|]. split; [lia|]. lia.
    + left. split; [reflexivity | lia].
Qed.

(** *** Values as rationals *)

(** The relative error of one rounding, [2^-52]. *)
Definition eps : Q := 1 # 4503599627370496.

Lemma Q2pow_pos e : (0 < 2 ^ e)%Q.
Proof. apply Qpower_0_lt. reflexivity. Qed.

Lemma Q2pow_add a b : (2 ^ (a + b) == 2 ^ a * 2 ^ b)%Q.
Proof. apply Qpower_plus. discriminate. Qed.

Lemma Q2pow_Z n : 0 <= n -> (inject_Z (2 ^ n) == 2 ^ n)%Q.
Proof. intros Hn. now rewrite Zpower_Qpower. Qed.

Lemma Q2pow_le a b : a <= b -> (2 ^ a <= 2 ^ b)%Q.
Proof. intros H. apply Qpower_le_compat_l; [exact H | discriminate]. Qed.

Lemma Q2pow_lt a b : a < b -> (2 ^ a < 2 ^ b)%Q.
Proof. intros H. apply Qpower_lt_compat_l; [exact H | reflexivity]. Qed.

(** [a * 2^n <= b] on integers, read on the values [a * 2^(ex+n)] and
    [b * 2^ex]. *)
Lemma scale_le a b n ex :
  0 <= n -> a * 2 ^ n <= b ->
  (inject_Z a * 2 ^ (ex + n) <= inject_Z b * 2 ^ ex)%Q.
Proof.
  intros Hn Hab.
  rewrite Q2pow_add, <- (Q2pow_Z n Hn).
  setoid_replace (inject_Z a * (2 ^ ex * inject_Z (2 ^ n)))%Q
    with (inject_Z (a * 2 ^ n) * 2 ^ ex)%Q
    by (rewrite inject_Z_mult; ring).
  apply Qmult_le_compat_r; [|apply Qlt_le_weak, Q2pow_pos].
  now rewrite <- Zle_Qle.
Qed.

Lemma scale_ge a b n ex :
  0 <= n -> b <= a * 2 ^ n ->
  (inject_Z b * 2 ^ ex <= inject_Z a * 2 ^ (ex + n))%Q.
Proof.
  intros Hn Hab.
  rewrite Q2pow_add, <- (Q2pow_Z n Hn).
  setoid_replace (inject_Z a * (2 ^ ex * inject_Z (2 ^ n)))%Q
    with (inject_Z (a * 2 ^ n) * 2 ^ ex)%Q
    by (rewrite inject_Z_mult; ring).
  apply Qmult_le_compat_r; [|apply Qlt_le_weak, Q2pow_pos].
  now rewrite <- Zle_Qle.
Qed.

Lemma toQ_pos m e : toQ (S754_finite false m e) = (inject_Z (Zpos m) * 2 ^ e)%Q.
Proof. reflexivity. Qed.

Lemma div_pow2_bounds mx n :
  0 <= n -> (mx / 2 ^ n) * 2 ^ n <= mx /\ mx + 1 <= (mx / 2 ^ n + 1) * 2 ^ n.
Proof.
  intros Hn. pose proof (pow2_pos n Hn) as Hp.
  pose proof (Z.mul_div_le mx (2 ^ n) Hp).
  pose proof (Z.mul_succ_div_gt mx (2 ^ n) Hp). lia.
Qed.

(** The relative error of rounding: for a true value [T] between
    [mx * 2^ex] and [(mx+1) * 2^ex], the rounded result is [+infinity] or a
    normal number within [T * (1 -+ 2^-52)]. *)
Lemma bra_bounds mx ex lx d (T : Q) :
  Zdigits2 mx = d -> 0 < mx -> 53 <= d -> -1074 <= ex + d - 53 ->
  (inject_Z mx * 2 ^ ex <= T)%Q -> (T <= inject_Z (mx + 1) * 2 ^ ex)%Q ->
  (binary_round_aux prec emax false mx ex lx = S754_infinity false
   /\ 971 <= ex + d - 53)
  \/ (normalPos (binary_round_aux prec emax false mx ex lx)
      /\ (T * (1 - eps) <= toQ (binary_round_aux prec emax false mx ex lx))%Q
      /\ (toQ (binary_round_aux prec emax false mx ex lx) <= T * (1 + eps))%Q).
Proof.
  intros Hd Hpos Hd53 Hrange Hlo Hhi.
  destruct (bra_core mx ex lx d Hd Hpos Hd53 Hrange)
    as [Hinf | [m [e [Hx [Hm [He Hcases]]]]]]; [left; exact Hinf | right].
  rewrite Hx. split; [exists m, e; auto|].
  rewrite toQ_pos.
  pose proof (Zdigits2_bounds mx Hpos) as Hmx. rewrite Hd in Hmx.
  pose proof (leading_bits mx d Hd53 Hmx) as Hlead.
  destruct (div_pow2_bounds mx (d - 53) ltac:(lia)) as [Hdown Hup].
  set (m' := mx / 2 ^ (d - 53)) in *.
  set (E := ex + (d - 53)).
  assert (HA : (inject_Z m' * 2 ^ E <= T)%Q).
  { eapply Qle_trans; [|exact Hlo]. apply scale_le; lia. }
  assert (HB : (T <= inject_Z (m' + 1) * 2 ^ E)%Q).
  { eapply Qle_trans; [exact Hhi|]. apply scale_ge; lia. }
  assert (HP : (0 < 2 ^ E)%Q) by apply Q2pow_pos.
  assert (HC : (inject_Z (2 ^ 52) * 2 ^ E <= inject_Z m' * 2 ^ E)%Q).
  { apply Qmult_le_compat_r; [|apply Qlt_le_weak, HP].
    rewrite <- Zle_Qle. lia. }
  assert (Hv : (inject_Z (Zpos m) * 2 ^ e == inject_Z m' * 2 ^ E
                \/ inject_Z (Zpos m) * 2 ^ e == inject_Z (m' + 1) * 2 ^ E)%Q).
  { destruct Hcases as [[H1 H2] | [[H1 H2] | [H1 [H2 H3]]]].
    - left. rewrite H1. replace e with E by (unfold E; lia). reflexivity.
    - right. rewrite H1. replace e with E by (unfold E; lia). reflexivity.
    - right. rewrite H1, H3. replace e with (E + 1) by (unfold E; lia).
      rewrite Q2pow_add. change (inject_Z (2 ^ 53)) with (inject_Z (2 ^ 52) * 2)%Q.
      change (2 ^ 1)%Q with 2%Q. ring. }
  rewrite inject_Z_plus in HB, Hv.
  change (inject_Z (2 ^ 52)) with (4503599627370496 # 1)%Q in HC.
  unfold eps.
  set (A := (inject_Z m' * 2 ^ E)%Q) in *.
  set (P := (2 ^ E)%Q) in *.
  set (V := (inject_Z (Zpos m) * 2 ^ e)%Q) in *.
  change (inject_Z 1) with 1%Q in *.
  assert (HB' : (T <= A + P)%Q).
  { eapply Qle_trans; [exact HB|]. unfold A. ring_simplify. apply Qle_refl. }
  assert (Hv' : (V == A \/ V == A + P)%Q).
  { destruct Hv as [Hv | Hv]; [left; exact Hv | right].
    rewrite Hv. unfold A. ring. }
  clearbody A P V. clear - HA HB' HP HC Hv'.
  destruct Hv' as [Hv | Hv]; rewrite Hv; split; lra.
Qed.

(** *** Exact results *)

Lemma bra_exact mx ex :
  2 ^ 52 <= Zpos mx < 2 ^ 53 -> -1074 <= ex <= 971 ->
  binary_round_aux prec emax false (Zpos mx) ex loc_Exact
  = S754_finite false mx ex.
Proof.
  intros Hm He. unfold binary_round_aux.
  assert (Hs : shr_fexp prec emax (Zpos mx) ex loc_Exact
               = ({| shr_m := Zpos mx; shr_r := false; shr_s := false |}, ex)).
  { unfold shr_fexp. rewrite (Zdigits2_unique (Zpos mx) 53) by (simpl; lia).
    rewrite fexp_normal by lia.
    replace (53 + ex - 53 - ex) with 0 by lia. reflexivity. }
  rewrite Hs. cbn [shr_m loc_of_shr_record round_nearest_even]. rewrite Hs.
  cbn [shr_m]. change (emax - prec) with 971.
  destruct (Z.leb_spec ex 971); [reflexivity | lia].
Qed.

Lemma iter_xO p k : Zpos (Pos.iter xO p k) = Zpos p * 2 ^ Zpos k.
Proof.
  induction k as [|k IH] using Pos.peano_ind.
  - simpl. lia.
  - rewrite Pos.iter_succ, Pos2Z.inj_succ, Z.pow_succ_r by lia.
    rewrite (Pos2Z.inj_xO (Pos.iter xO p k)), IH. ring.
Qed.

(** The mantissa aligned to a smaller exponent. *)
Lemma shl_align_fst m e ez :
  ez <= e -> Zpos (fst (shl_align m e ez)) = Zpos m * 2 ^ (e - ez).
Proof.
  intros Hle. unfold shl_align.
  destruct (ez - e) as [|p|p] eqn:Hd; try lia.
  - replace (e - ez) with 0 by lia. cbn [fst]. rewrite Z.pow_0_r. lia.
  - cbn [fst]. rewrite iter_xO. f_equal. f_equal. lia.
Qed.

(** [binary_round] of [mx * 2^ex]: exact when [mx] has 53 bits at most. *)
Lemma binary_round_small mx ex :
  Zpos mx < 2 ^ 53 ->
  -1074 <= Zpos (digits2_pos mx) + ex - 53 <= 971 ->
  normalPos (binary_round prec emax false mx ex)
  /\ (toQ (binary_round prec emax false mx ex) == inject_Z (Zpos mx) * 2 ^ ex)%Q.
Proof.
  intros Hm Hrange. unfold binary_round.
  pose proof (digits2_pos_bounds mx) as Hd.
  set (d := Zpos (digits2_pos mx)) in *.
  assert (Hd53 : d <= 53).
  { destruct (Z.le_gt_cases d 53); [assumption|].
    assert (2 ^ 53 <= 2 ^ (d - 1)) by (apply Z.pow_le_mono_r; lia). lia. }
  rewrite fexp_normal by lia.
  unfold shl_align.
  destruct (d + ex - 53 - ex) as [|p|p] eqn:Hshift; try lia.
  - assert (Hd1 : d - 1 = 52) by lia. rewrite Hd1 in Hd.
    assert (He : d + ex - 53 = ex) by lia. rewrite He in *.
    rewrite bra_exact; [|lia|lia].
    split; [exists mx, ex; repeat split; lia | reflexivity].
  - assert (Hk : Zpos p = 53 - d) by lia.
    assert (Hmz : Zpos (Pos.iter xO mx p) = Zpos mx * 2 ^ (53 - d))
      by (rewrite iter_xO, Hk; reflexivity).
    assert (Hbits : 2 ^ 52 <= Zpos (Pos.iter xO mx p) < 2 ^ 53).
    { rewrite Hmz. pose proof (pow2_pos (53 - d) ltac:(lia)).
      assert (H52 : 2 ^ 52 = 2 ^ (d - 1) * 2 ^ (53 - d))
        by (rewrite <- pow2_split by lia; f_equal; lia).
      assert (H53 : 2 ^ 53 = 2 ^ d * 2 ^ (53 - d))
        by (rewrite <- pow2_split by lia; f_equal; lia).
      rewrite H52, H53. nia. }
    rewrite bra_exact; [|exact Hbits|lia].
    split; [exists (Pos.iter xO mx p), (d + ex - 53); repeat split; lia|].
    rewrite toQ_pos, Hmz, inject_Z_mult, (Q2pow_Z (53 - d)) by lia.
    rewrite <- Qmult_assoc, <- Q2pow_add.
    replace (53 - d + (d + ex - 53)) with ex by lia. reflexivity.
Qed.

(** [binary_round] of [mx * 2^ex] when [mx] has 53 bits at least. *)
Lemma binary_round_large mx ex :
  2 ^ 52 <= Zpos mx ->
  -1074 <= ex ->
  (binary_round prec emax false mx ex = S754_infinity false)
  \/ (normalPos (binary_round prec emax false mx ex)
      /\ (inject_Z (Zpos mx) * 2 ^ ex * (1 - eps)
          <= toQ (binary_round prec emax false mx ex))%Q
      /\ (toQ (binary_round prec emax false mx ex)
          <= inject_Z (Zpos mx) * 2 ^ ex * (1 + eps))%Q).
Proof.
  intros Hm Hex. unfold binary_round.
  pose proof (digits2_pos_bounds mx) as Hd.
  set (d := Zpos (digits2_pos mx)) in *.
  assert (Hd53 : 53 <= d).
  { destruct (Z.le_gt_cases 53 d); [assumption|].
    assert (2 ^ d <= 2 ^ 52) by (apply Z.pow_le_mono_r; lia). lia. }
  rewrite fexp_normal by lia.
  unfold shl_align.
  destruct (d + ex - 53 - ex) as [|p|p] eqn:Hshift; try lia.
  - destruct (bra_bounds (Zpos mx) ex loc_Exact d
                (inject_Z (Zpos mx) * 2 ^ ex)%Q) as [[Hinf _] | Hok];
      try reflexivity; try lia; try apply Qle_refl; [|now left|now right].
    apply Qmult_le_compat_r; [|apply Qlt_le_weak, Q2pow_pos].
    rewrite <- Zle_Qle. lia.
  - destruct (bra_bounds (Zpos mx) ex loc_Exact d
                (inject_Z (Zpos mx) * 2 ^ ex)%Q) as [[Hinf _] | Hok];
      try reflexivity; try lia; try apply Qle_refl; [|now left|now right].
    apply Qmult_le_compat_r; [|apply Qlt_le_weak, Q2pow_pos].
    rewrite <- Zle_Qle. lia.
Qed.

(** No overflow when the exponent of the result stays below the largest. *)
Lemma binary_round_large_finite mx ex :
  2 ^ 52 <= Zpos mx -> -1074 <= ex ->
  Zpos (digits2_pos mx) + ex - 53 < 971 ->
  binary_round prec emax false mx ex <> S754_infinity false.
Proof.
  intros Hm Hex Hfin. unfold binary_round.
  pose proof (digits2_pos_bounds mx) as Hd.
  set (d := Zpos (digits2_pos mx)) in *.
  assert (Hd53 : 53 <= d).
  { destruct (Z.le_gt_cases 53 d); [assumption|].
    assert (2 ^ d <= 2 ^ 52) by (apply Z.pow_le_mono_r; lia). lia. }
  rewrite fexp_normal by lia.
  unfold shl_align.
  assert (Hb : binary_round_aux prec emax false (Zpos mx) ex loc_Exact
               <> S754_infinity false).
  { destruct (bra_core (Zpos mx) ex loc_Exact d eq_refl ltac:(lia) Hd53
                ltac:(lia)) as [[_ Hbig] | [m [e [Hx _]]]]; [lia|].
    rewrite Hx. discriminate. }
  destruct (d + ex - 53 - ex) as [|p|p] eqn:Hshift; try lia; exact Hb.
Qed.

(** Integers below [2^53] are numbers. *)
Lemma ofZ_exact z :
  0 < z < 2 ^ 53 -> normalPos (ofZ z) /\ (toQ (ofZ z) == inject_Z z)%Q.
Proof.
  intros Hz. destruct z as [|p|p]; try lia.
  unfold ofZ, binary_normalize.
  pose proof (digits2_pos_bounds p) as Hd.
  assert (Hd53 : Zpos (digits2_pos p) <= 53).
  { destruct (Z.le_gt_cases (Zpos (digits2_pos p)) 53); [assumption|].
    assert (2 ^ 53 <= 2 ^ (Zpos (digits2_pos p) - 1))
      by (apply Z.pow_le_mono_r; lia). lia. }
  destruct (binary_round_small p 0) as [Hn Hq]; [lia | lia |].
  split; [exact Hn|]. rewrite Hq. change (2 ^ 0)%Q with 1%Q. ring.
Qed.

(** *** Values and exponents *)

Lemma mantissa_value_bounds (m : Z) (d e : Z) :
  2 ^ (d - 1) <= m < 2 ^ d -> 1 <= d ->
  (2 ^ (d - 1 + e) <= inject_Z m * 2 ^ e)%Q
  /\ (inject_Z m * 2 ^ e < 2 ^ (d + e))%Q.
Proof.
  intros Hm Hd. rewrite !Q2pow_add.
  rewrite <- (Q2pow_Z (d - 1)), <- (Q2pow_Z d) by lia.
  pose proof (Q2pow_pos e) as Hp. split.
  - apply Qmult_le_compat_r; [|now apply Qlt_le_weak].
    rewrite <- Zle_Qle. tauto.
  - apply Qmult_lt_compat_r; [exact Hp|]. rewrite <- Zlt_Qlt. tauto.
Qed.

(** A lower bound of the value bounds the exponent from below. *)
Lemma exponent_lower m e k :
  Zpos m < 2 ^ 53 -> (2 ^ k <= inject_Z (Zpos m) * 2 ^ e)%Q -> k - 52 <= e.
Proof.
  intros Hm Hv.
  assert (Hlt : (inject_Z (Zpos m) * 2 ^ e < 2 ^ (53 + e))%Q).
  { rewrite Q2pow_add, <- (Q2pow_Z 53) by lia.
    apply Qmult_lt_compat_r; [apply Q2pow_pos|]. now rewrite <- Zlt_Qlt. }
  assert (Hk : (2 ^ k < 2 ^ (53 + e))%Q) by (eapply Qle_lt_trans; eauto).
  apply Qpower_lt_compat_l_inv in Hk; [lia | reflexivity].
Qed.

(** An upper bound of the value bounds the exponent from above. *)
Lemma exponent_upper m e k :
  2 ^ 52 <= Zpos m -> (inject_Z (Zpos m) * 2 ^ e <= 2 ^ k)%Q -> e <= k - 52.
Proof.
  intros Hm Hv.
  assert (Hle : (2 ^ (52 + e) <= inject_Z (Zpos m) * 2 ^ e)%Q).
  { rewrite Q2pow_add, <- (Q2pow_Z 52) by lia.
    apply Qmult_le_compat_r; [|apply Qlt_le_weak, Q2pow_pos].
    now rewrite <- Zle_Qle. }
  assert (Hk : (2 ^ (52 + e) <= 2 ^ k)%Q) by (eapply Qle_trans; eauto).
  apply Qpower_le_compat_l_inv in Hk; [lia | reflexivity].
Qed.

(** The window of values the delay computations stay in. *)
Definition qLo : Q := 1 # 1024.
Definition qHi : Q := 1180591620717411303424 # 1.

Lemma qLo_pow : (qLo == 2 ^ (-10))%Q.
Proof. reflexivity. Qed.
Lemma qHi_pow : (qHi == 2 ^ 70)%Q.
Proof. reflexivity. Qed.

Lemma normalPos_positive x : normalPos x -> (0 < toQ x)%Q.
Proof.
  intros [m [e [-> _]]]. rewrite toQ_pos.
  apply Qmult_lt_0_compat; [reflexivity | apply Q2pow_pos].
Qed.

(** *** Multiplication *)

Lemma mul_raw m1 e1 m2 e2 :
  2 ^ 52 <= Zpos m1 < 2 ^ 53 -> 2 ^ 52 <= Zpos m2 < 2 ^ 53 ->
  -1074 <= e1 + e2 + 52 ->
  let x := S754_finite false m1 e1 in
  let y := S754_finite false m2 e2 in
  (mul x y = S754_infinity false /\ 971 <= e1 + e2 + 53)
  \/ (normalPos (mul x y)
      /\ (toQ x * toQ y * (1 - eps) <= toQ (mul x y))%Q
      /\ (toQ (mul x y) <= toQ x * toQ y * (1 + eps))%Q).
Proof.
  intros H1 H2 He x y. unfold mul, SF64mul, SFmul, x, y. cbn [xorb].
  assert (Hprod : 2 ^ 104 <= Zpos (m1 * m2) < 2 ^ 106).
  { rewrite Pos2Z.inj_mul.
    change (2 ^ 104) with (2 ^ 52 * 2 ^ 52).
    change (2 ^ 106) with (2 ^ 53 * 2 ^ 53). nia. }
  pose proof (Zdigits2_bounds (Zpos (m1 * m2)) ltac:(lia)) as Hd.
  set (d := Zdigits2 (Zpos (m1 * m2))) in *.
  assert (Hd105 : 105 <= d <= 106).
  { split.
    - destruct (Z.le_gt_cases 105 d); [assumption|].
      assert (2 ^ d <= 2 ^ 104) by (apply Z.pow_le_mono_r; lia). lia.
    - destruct (Z.le_gt_cases d 106); [assumption|].
      assert (2 ^ 106 <= 2 ^ (d - 1)) by (apply Z.pow_le_mono_r; lia). lia. }
  assert (HT : (toQ (S754_finite false m1 e1) * toQ (S754_finite false m2 e2)
                == inject_Z (Zpos (m1 * m2)) * 2 ^ (e1 + e2))%Q).
  { rewrite !toQ_pos, Pos2Z.inj_mul, inject_Z_mult, Q2pow_add. ring. }
  destruct (bra_bounds (Zpos (m1 * m2)) (e1 + e2) loc_Exact d
              (inject_Z (Zpos (m1 * m2)) * 2 ^ (e1 + e2))%Q)
    as [[Hinf Hbig] | [Hn [Hlo Hhi]]]; try reflexivity; try lia.
  - apply Qle_refl.
  - apply Qmult_le_compat_r; [|apply Qlt_le_weak, Q2pow_pos].
    rewrite <- Zle_Qle. lia.
  - left. split; [exact Hinf | lia].
  - right. rewrite HT. auto.
Qed.

(** Two normal numbers of the window multiply to a normal number, within
    the relative error of one rounding. *)
Lemma mul_ok x y :
  normalPos x -> normalPos y ->
  (qLo <= toQ x <= qHi)%Q -> (qLo <= toQ y <= qHi)%Q ->
  normalPos (mul x y)
  /\ (toQ x * toQ y * (1 - eps) <= toQ (mul x y))%Q
  /\ (toQ (mul x y) <= toQ x * toQ y * (1 + eps))%Q.
Proof.
  intros [m1 [e1 [-> [Hm1 He1]]]] [m2 [e2 [-> [Hm2 He2]]]] Hx Hy.
  rewrite qLo_pow, qHi_pow in Hx, Hy. rewrite toQ_pos in Hx, Hy.
  pose proof (exponent_lower m1 e1 (-10) ltac:(lia) (proj1 Hx)).
  pose proof (exponent_lower m2 e2 (-10) ltac:(lia) (proj1 Hy)).
  pose proof (exponent_upper m1 e1 70 ltac:(lia) (proj2 Hx)).
  pose proof (exponent_upper m2 e2 70 ltac:(lia) (proj2 Hy)).
  destruct (mul_raw m1 e1 m2 e2 Hm1 Hm2 ltac:(lia)) as [[_ Hbig] | Hok];
    [lia | exact Hok].
Qed.

(** *** Addition *)

Lemma add_raw m1 e1 m2 e2 :
  2 ^ 52 <= Zpos m1 < 2 ^ 53 -> 2 ^ 52 <= Zpos m2 < 2 ^ 53 ->
  -1074 <= e1 -> -1074 <= e2 ->
  let x := S754_finite false m1 e1 in
  let y := S754_finite false m2 e2 in
  exists s : positive,
    add x y = binary_round prec emax false s (Z.min e1 e2)
    /\ 2 ^ 52 <= Zpos s
    /\ (inject_Z (Zpos s) * 2 ^ (Z.min e1 e2) == toQ x + toQ y)%Q.
Proof.
  intros H1 H2 He1 He2 x y. unfold add, SF64add, SFadd, x, y.
  cbn [cond_Zopp]. set (ez := Z.min e1 e2).
  pose proof (shl_align_fst m1 e1 ez ltac:(lia)) as Ha.
  pose proof (shl_align_fst m2 e2 ez ltac:(lia)) as Hb.
  set (a := fst (shl_align m1 e1 ez)) in *.
  set (b := fst (shl_align m2 e2 ez)) in *.
  exists (a + b)%positive. split; [reflexivity|].
  pose proof (pow2_pos (e1 - ez) ltac:(lia)).
  pose proof (pow2_pos (e2 - ez) ltac:(lia)).
  split; [rewrite Pos2Z.inj_add; nia|].
  rewrite Pos2Z.inj_add, inject_Z_plus, Ha, Hb, !inject_Z_mult, !toQ_pos.
  rewrite (Q2pow_Z (e1 - ez)), (Q2pow_Z (e2 - ez)) by lia.
  rewrite Qmult_plus_distr_l, <- !Qmult_assoc, <- !Q2pow_add.
  replace (e1 - ez + ez) with e1 by lia.
  replace (e2 - ez + ez) with e2 by lia. reflexivity.
Qed.

(** Two normal numbers of the window add to a normal number, within the
    relative error of one rounding. *)
Lemma add_ok x y :
  normalPos x -> normalPos y ->
  (qLo <= toQ x <= qHi)%Q -> (qLo <= toQ y <= qHi)%Q ->
  normalPos (add x y)
  /\ ((toQ x + toQ y) * (1 - eps) <= toQ (add x y))%Q
  /\ (toQ (add x y) <= (toQ x + toQ y) * (1 + eps))%Q.
Proof.
  intros [m1 [e1 [-> [Hm1 He1]]]] [m2 [e2 [-> [Hm2 He2]]]] Hx Hy.
  destruct (add_raw m1 e1 m2 e2 Hm1 Hm2 ltac:(lia) ltac:(lia))
    as [s [Heq [Hs HT]]]. cbv zeta in Heq, HT.
  rewrite Heq, <- HT.
  assert (Hfin : binary_round prec emax false s (Z.min e1 e2)
                 <> S754_infinity false).
  { apply binary_round_large_finite; [exact Hs | lia |].
    pose proof (digits2_pos_bounds s) as Hd.
    destruct (mantissa_value_bounds (Zpos s) (Zpos (digits2_pos s))
                (Z.min e1 e2) Hd ltac:(lia)) as [Hlow _].
    assert (Hsum : (inject_Z (Zpos s) * 2 ^ Z.min e1 e2 <= 2 ^ 71)%Q).
    { rewrite HT. rewrite qHi_pow in Hx, Hy.
      change (2 ^ 71)%Q with (2 ^ 70 + 2 ^ 70)%Q.
      apply Qplus_le_compat; tauto. }
    assert (Hk : (2 ^ (Zpos (digits2_pos s) - 1 + Z.min e1 e2) <= 2 ^ 71)%Q)
      by (eapply Qle_trans; eauto).
    apply Qpower_le_compat_l_inv in Hk; [lia | reflexivity]. }
  destruct (binary_round_large s (Z.min e1 e2) Hs ltac:(lia))
    as [Hinf | Hok]; [contradiction | exact Hok].
Qed.

(** *** Division *)

Lemma div_core_eq m1 e1 m2 e2 :
  2 ^ 52 <= Zpos m1 < 2 ^ 53 ->
  Zpos (digits2_pos m2) <= 53 ->
  -1074 <= e1 - e2 - Zpos (digits2_pos m2) ->
  exists q l,
    div (S754_finite false m1 e1) (S754_finite false m2 e2)
    = binary_round_aux prec emax false q
        (e1 - e2 - Zpos (digits2_pos m2)) l
    /\ q = (Zpos m1 * 2 ^ Zpos (digits2_pos m2)) / Zpos m2.
Proof.
  intros H1 Hd2 Hrange. unfold div, SF64div, SFdiv. cbn [xorb].
  unfold SFdiv_core_binary.
  rewrite (Zdigits2_unique (Zpos m1) 53) by (simpl; lia).
  cbn [Zdigits2].
  rewrite fexp_normal by lia.
  rewrite Z.min_l by lia.
  replace (e1 - e2 - (53 + e1 - (Zpos (digits2_pos m2) + e2) - 53))
    with (Zpos (digits2_pos m2)) by lia.
  cbv iota.
  rewrite Z.shiftl_mul_pow2 by lia.
  replace (53 + e1 - (Zpos (digits2_pos m2) + e2) - 53)
    with (e1 - e2 - Zpos (digits2_pos m2)) by lia.
  destruct (Z.div_eucl (Zpos m1 * 2 ^ Zpos (digits2_pos m2)) (Zpos m2))
    as [q r] eqn:Hqr.
  exists q, (new_location (Zpos m2) r). split; [reflexivity|].
  unfold Z.div. now rewrite Hqr.
Qed.

Lemma div_quotient_bounds m1 m2 q :
  2 ^ 52 <= Zpos m1 < 2 ^ 53 ->
  q = (Zpos m1 * 2 ^ Zpos (digits2_pos m2)) / Zpos m2 ->
  q * Zpos m2 <= Zpos m1 * 2 ^ Zpos (digits2_pos m2)
  /\ Zpos m1 * 2 ^ Zpos (digits2_pos m2) <= (q + 1) * Zpos m2
  /\ 2 ^ 52 <= q < 2 ^ 54.
Proof.
  intros H1 Hq.
  pose proof (digits2_pos_bounds m2) as Hm2.
  set (d2 := Zpos (digits2_pos m2)) in *.
  assert (Hpow : 0 < 2 ^ d2) by (apply pow2_pos; unfold d2; lia).
  assert (Hpow' : 2 ^ d2 = 2 * 2 ^ (d2 - 1)).
  { replace d2 with (Z.succ (d2 - 1)) at 1 by lia.
    apply Z.pow_succ_r. unfold d2; lia. }
  set (M := Zpos m1 * 2 ^ d2) in *.
  split; [|split; [|split]].
  - rewrite Hq, Z.mul_comm. apply Z.mul_div_le. lia.
  - rewrite Hq. pose proof (Z.mul_succ_div_gt M (Zpos m2) ltac:(lia)). lia.
  - rewrite Hq. apply Z.div_le_lower_bound; [lia|]. unfold M.
    apply Z.le_trans with (2 ^ d2 * 2 ^ 52).
    + apply Z.mul_le_mono_nonneg_r; lia.
    + rewrite Z.mul_comm. apply Z.mul_le_mono_nonneg_r; lia.
  - rewrite Hq. apply Z.div_lt_upper_bound; [lia|]. unfold M.
    apply Z.lt_le_trans with (2 ^ 53 * 2 ^ d2).
    + apply Z.mul_lt_mono_pos_r; lia.
    + rewrite Hpow'. change (2 ^ 54) with (2 * 2 ^ 53).
      replace (2 ^ 53 * (2 * 2 ^ (d2 - 1)))
        with (2 ^ (d2 - 1) * (2 * 2 ^ 53)) by ring.
      apply Z.mul_le_mono_nonneg_r; lia.
Qed.

Lemma digits_53_54 q : 2 ^ 52 <= q < 2 ^ 54 -> 53 <= Zdigits2 q <= 54.
Proof.
  intros Hq. pose proof (Zdigits2_bounds q ltac:(lia)) as Hdq. split.
  - destruct (Z.le_gt_cases 53 (Zdigits2 q)); [assumption|].
    assert (2 ^ Zdigits2 q <= 2 ^ 52) by (apply Z.pow_le_mono_r; lia). lia.
  - destruct (Z.le_gt_cases (Zdigits2 q) 54); [assumption|].
    assert (2 ^ 54 <= 2 ^ (Zdigits2 q - 1)) by (apply Z.pow_le_mono_r; lia).
    lia.
Qed.

Lemma div_raw m1 e1 m2 e2 :
  2 ^ 52 <= Zpos m1 < 2 ^ 53 ->
  Zpos (digits2_pos m2) <= 53 ->
  -1074 <= e1 - e2 - Zpos (digits2_pos m2) ->
  let x := S754_finite false m1 e1 in
  let y := S754_finite false m2 e2 in
  (div x y = S754_infinity false
   /\ 971 <= e1 - e2 - Zpos (digits2_pos m2) + 1)
  \/ (normalPos (div x y)
      /\ (toQ x / toQ y * (1 - eps) <= toQ (div x y))%Q
      /\ (toQ (div x y) <= toQ x / toQ y * (1 + eps))%Q).
Proof.
  intros H1 Hd2 Hrange x y. unfold x, y.
  destruct (div_core_eq m1 e1 m2 e2 H1 Hd2 Hrange) as [q [l [Heq Hq]]].
  destruct (div_quotient_bounds m1 m2 q H1 Hq) as [Hdown [Hup Hq52]].
  pose proof (digits_53_54 q Hq52) as Hdq.
  rewrite Heq.
  set (d2 := Zpos (digits2_pos m2)) in *.
  set (e' := e1 - e2 - d2) in *.
  assert (HY : (0 < inject_Z (Zpos m2) * 2 ^ e2)%Q).
  { apply Qmult_lt_0_compat; [reflexivity | apply Q2pow_pos]. }
  assert (He1 : e1 = e' + e2 + d2) by (unfold e'; lia).
  assert (Hd2pos : 0 <= d2) by (unfold d2; lia).
  destruct (bra_bounds q e' l (Zdigits2 q)
              (toQ (S754_finite false m1 e1) / toQ (S754_finite false m2 e2))%Q)
    as [[Hinf Hbig] | Hok]; try reflexivity; try lia.
  - rewrite !toQ_pos. apply Qle_shift_div_l; [exact HY|].
    setoid_replace (inject_Z q * 2 ^ e' * (inject_Z (Zpos m2) * 2 ^ e2))%Q
      with (inject_Z (q * Zpos m2) * 2 ^ (e' + e2))%Q
      by (rewrite inject_Z_mult, Q2pow_add; ring).
    rewrite He1. apply scale_ge; [exact Hd2pos | exact Hdown].
  - rewrite !toQ_pos. apply Qle_shift_div_r; [exact HY|].
    setoid_replace (inject_Z (q + 1) * 2 ^ e' * (inject_Z (Zpos m2) * 2 ^ e2))%Q
      with (inject_Z ((q + 1) * Zpos m2) * 2 ^ (e' + e2))%Q
      by (rewrite inject_Z_mult, Q2pow_add; ring).
    rewrite He1. apply scale_le; [exact Hd2pos | exact Hup].
  - left. split; [exact Hinf | lia].
  - now right.
Qed.


(** A normal number of the window divided by another one is a normal
    number, within the relative error of one rounding. *)
Lemma div_ok x y :
  normalPos x -> normalPos y ->
  (qLo <= toQ x <= qHi)%Q -> (qLo <= toQ y <= qHi)%Q ->
  normalPos (div x y)
  /\ (toQ x / toQ y * (1 - eps) <= toQ (div x y))%Q
  /\ (toQ (div x y) <= toQ x / toQ y * (1 + eps))%Q.
Proof.
  intros [m1 [e1 [-> [Hm1 He1]]]] [m2 [e2 [-> [Hm2 He2]]]] Hx Hy.
  rewrite qLo_pow, qHi_pow in Hx, Hy. rewrite toQ_pos in Hx, Hy.
  pose proof (exponent_lower m1 e1 (-10) ltac:(lia) (proj1 Hx)).
  pose proof (exponent_lower m2 e2 (-10) ltac:(lia) (proj1 Hy)).
  pose proof (exponent_upper m1 e1 70 ltac:(lia) (proj2 Hx)).
  pose proof (exponent_upper m2 e2 70 ltac:(lia) (proj2 Hy)).
  assert (Hd2 : Zpos (digits2_pos m2) = 53)
    by (apply (Zdigits2_unique (Zpos m2) 53); simpl; lia).
  destruct (div_raw m1 e1 m2 e2 Hm1 ltac:(lia) ltac:(lia))
    as [[_ Hbig] | Hok]; [lia | exact Hok].
Qed.


(** *** Comparison *)

Lemma ltb_normal x y :
  normalPos x -> normalPos y -> (toQ x < toQ y)%Q -> ltb x y = true.
Proof.
  intros [m1 [e1 [-> [Hm1 He1]]]] [m2 [e2 [-> [Hm2 He2]]]] Hlt.
  rewrite !toQ_pos in Hlt.
  unfold ltb, SFltb, SFcompare.
  destruct (Z.compare_spec e1 e2) as [Heq | Hl | Hg]; [|reflexivity|exfalso].
  - subst e2. apply Qmult_lt_r in Hlt; [|apply Q2pow_pos].
    rewrite <- Zlt_Qlt in Hlt.
    change (Pos.compare_cont Eq m1 m2) with (Pos.compare m1 m2).
    now rewrite (proj2 (Pos.compare_lt_iff m1 m2) Hlt).
  - destruct (mantissa_value_bounds (Zpos m1) 53 e1 ltac:(simpl; lia)
                ltac:(lia)) as [Hx _].
    destruct (mantissa_value_bounds (Zpos m2) 53 e2 ltac:(simpl; lia)
                ltac:(lia)) as [_ Hy].
    assert (Hpow : (2 ^ (53 + e2) <= 2 ^ (53 - 1 + e1))%Q)
      by (apply Q2pow_le; lia).
    apply (Qlt_irrefl (inject_Z (Zpos m1) * 2 ^ e1)).
    eapply Qlt_le_trans; [exact Hlt|].
    eapply Qle_trans; [apply Qlt_le_weak; exact Hy|].
    eapply Qle_trans; [exact Hpow | exact Hx].
Qed.

Lemma ltb_zero_normal x : normalPos x -> ltb (S754_zero false) x = true.
Proof. intros [m [e [-> _]]]. reflexivity. Qed.

(** *** [Math.floor] and [Math.round] *)


(** [Math.round] of a normal number that is 1/2 at least: a normal number
    within 1/2 of it. *)
Lemma round_ok x :
  normalPos x -> ((1 # 2) <= toQ x)%Q ->
  normalPos (Math_round x)
  /\ (toQ x - (1 # 2) <= toQ (Math_round x))%Q
  /\ (toQ (Math_round x) <= toQ x + (1 # 2))%Q.
Proof.
  intros [m [e [-> [Hm He]]]] Hhalf. unfold Math_round.
  destruct (Z.leb_spec 0 e) as [Hpos | Hneg].
  - split; [exists m, e; auto|]. split; lra.
  - cbn [cond_Zopp]. rewrite toQ_pos in *.
    set (k := - e). assert (Hk : 1 <= k) by (unfold k; lia).
    pose proof (pow2_pos k ltac:(lia)) as Hp.
    assert (Hk1 : 2 ^ (k + 1) = 2 * 2 ^ k)
      by (rewrite Z.add_1_r, Z.pow_succ_r by lia; reflexivity).
    replace (- e + 1) with (k + 1) by (unfold k; lia). rewrite Hk1.
    set (R := (2 * Zpos m + 2 ^ k) / (2 * 2 ^ k)).
    assert (HRdown : R * (2 * 2 ^ k) <= 2 * Zpos m + 2 ^ k)
      by (unfold R; rewrite Z.mul_comm; apply Z.mul_div_le; lia).
    assert (HRup : 2 * Zpos m + 2 ^ k < (R + 1) * (2 * 2 ^ k)).
    { unfold R.
      pose proof (Z.mul_succ_div_gt (2 * Zpos m + 2 ^ k) (2 * 2 ^ k)
                    ltac:(lia)). lia. }
    (* the value as a fraction over 2^k *)
    assert (HKP : (inject_Z (2 ^ k) * 2 ^ e == 1)%Q).
    { rewrite Q2pow_Z, <- Q2pow_add by lia.
      replace (k + e) with 0 by (unfold k; lia). reflexivity. }
    assert (HK : (0 < inject_Z (2 ^ k))%Q)
      by (change 0%Q with (inject_Z 0); rewrite <- Zlt_Qlt; lia).
    assert (Hmk : 2 ^ k <= 2 * Zpos m).
    { rewrite Zle_Qle, inject_Z_mult.
      apply (Qmult_le_r _ _ (2 ^ e)); [apply Q2pow_pos|].
      rewrite HKP.
      setoid_replace (inject_Z 2 * inject_Z (Zpos m) * 2 ^ e)%Q
        with (2 * (inject_Z (Zpos m) * 2 ^ e))%Q by ring.
      lra. }
    assert (HR1 : 0 < R < 2 ^ 53).
    { assert (2 ^ k >= 2) by (change 2 with (2 ^ 1) at 2;
        apply Z.le_ge, Z.pow_le_mono_r; lia).
      split; [nia|].
      assert (2 * Zpos m + 2 ^ k < 2 ^ 53 * (2 * 2 ^ k)) by nia. nia. }
    destruct (ofZ_exact R HR1) as [Hn Hq]. unfold ofZ in Hn, Hq.
    split; [exact Hn|]. rewrite Hq.
    rewrite Zle_Qle in HRdown. rewrite Zlt_Qlt in HRup.
    repeat rewrite ?inject_Z_mult, ?inject_Z_plus in HRdown.
    repeat rewrite ?inject_Z_mult, ?inject_Z_plus in HRup.
    change (inject_Z 2) with 2%Q in *. change (inject_Z 1) with 1%Q in *.
    set (K := inject_Z (2 ^ k)) in *.
    set (P := (2 ^ e)%Q) in *.
    set (r := inject_Z R) in *. set (mq := inject_Z (Zpos m)) in *.
    assert (HP : (0 < P)%Q) by apply Q2pow_pos.
    split.
    + apply (Qmult_le_r _ _ (2 * K)); [lra|].
      setoid_replace ((mq * P - (1 # 2)) * (2 * K))%Q
        with (2 * mq * (K * P) - K)%Q by ring.
      rewrite HKP. lra.
    + apply (Qmult_le_r _ _ (2 * K)); [lra|].
      setoid_replace ((mq * P + (1 # 2)) * (2 * K))%Q
        with (2 * mq * (K * P) + K)%Q by ring.
      rewrite HKP. lra.
Qed.

(** *** Lower bounds that survive an overflow *)

(** [atLeast a x]: [x] is [+infinity], or a normal number of value [a] at
    least. *)
Definition atLeast (a : Q) (x : number) : Prop :=
  x = S754_infinity false \/ (normalPos x /\ (a <= toQ x)%Q).

Lemma atLeast_weaken a b x : (b <= a)%Q -> atLeast a x -> atLeast b x.
Proof.
  intros Hba [Hinf | [Hn Ha]]; [now left | right].
  split; [exact Hn | now apply Qle_trans with a].
Qed.

Lemma one_minus_eps_pos : (0 < 1 - eps)%Q.
Proof. reflexivity. Qed.

Lemma mul_atLeast a b x c :
  atLeast a x -> normalPos c ->
  (qLo <= a)%Q -> (qLo <= b)%Q -> (b <= toQ c)%Q ->
  atLeast (a * b * (1 - eps)) (mul x c).
Proof.
  intros [-> | [Hx Ha]] Hc Hqa Hqb Hbc.
  - left. destruct Hc as [m [e [-> _]]]. reflexivity.
  - destruct Hx as [m1 [e1 [-> [Hm1 He1]]]].
    destruct Hc as [m2 [e2 [-> [Hm2 He2]]]].
    assert (Hx10 : (2 ^ (-10) <= inject_Z (Zpos m1) * 2 ^ e1)%Q).
    { rewrite <- toQ_pos, <- qLo_pow. now apply Qle_trans with a. }
    assert (Hc10 : (2 ^ (-10) <= inject_Z (Zpos m2) * 2 ^ e2)%Q).
    { rewrite <- toQ_pos, <- qLo_pow. now apply Qle_trans with b. }
    pose proof (exponent_lower m1 e1 (-10) ltac:(lia) Hx10).
    pose proof (exponent_lower m2 e2 (-10) ltac:(lia) Hc10).
    destruct (mul_raw m1 e1 m2 e2 Hm1 Hm2 ltac:(lia))
      as [[Hinf _] | [Hn [Hlo _]]]; [now left | right].
    split; [exact Hn|]. eapply Qle_trans; [|exact Hlo].
    apply Qmult_le_compat_r; [|apply Qlt_le_weak, one_minus_eps_pos].
    assert (H0a : (0 <= a)%Q) by (unfold qLo in Hqa; lra).
    assert (H0b : (0 <= b)%Q) by (unfold qLo in Hqb; lra).
    apply Qmult_le_compat_nonneg; split; assumption.
Qed.

Lemma add_atLeast a x c :
  atLeast a x -> normalPos c ->
  atLeast ((a + toQ c) * (1 - eps)) (add x c).
Proof.
  intros [-> | [Hx Ha]] Hc.
  - left. destruct Hc as [m [e [-> _]]]. reflexivity.
  - destruct Hx as [m1 [e1 [-> [Hm1 He1]]]].
    destruct Hc as [m2 [e2 [-> [Hm2 He2]]]].
    destruct (add_raw m1 e1 m2 e2 Hm1 Hm2 ltac:(lia) ltac:(lia))
      as [s [Heq [Hs HT]]]. cbv zeta in Heq, HT.
    rewrite Heq.
    destruct (binary_round_large s (Z.min e1 e2) Hs ltac:(lia))
      as [Hinf | [Hn [Hlo _]]]; [now left | right].
    split; [exact Hn|]. eapply Qle_trans; [|exact Hlo].
    apply Qmult_le_compat_r; [|apply Qlt_le_weak, one_minus_eps_pos].
    rewrite HT. apply Qplus_le_compat; [exact Ha | apply Qle_refl].
Qed.

Lemma div_atLeast a x c :
  atLeast a x -> normalPos c ->
  (qLo <= a)%Q -> (toQ c <= qHi)%Q ->
  atLeast (a / toQ c * (1 - eps)) (div x c).
Proof.
  intros [-> | [Hx Ha]] Hc Hqa Hqc.
  - left. destruct Hc as [m [e [-> _]]]. reflexivity.
  - pose proof (normalPos_positive c Hc) as Hcpos.
    destruct Hx as [m1 [e1 [-> [Hm1 He1]]]].
    destruct Hc as [m2 [e2 [-> [Hm2 He2]]]].
    assert (Hx10 : (2 ^ (-10) <= inject_Z (Zpos m1) * 2 ^ e1)%Q).
    { rewrite <- toQ_pos, <- qLo_pow. now apply Qle_trans with a. }
    pose proof (exponent_lower m1 e1 (-10) ltac:(lia) Hx10).
    rewrite qHi_pow, toQ_pos in Hqc.
    pose proof (exponent_upper m2 e2 70 ltac:(lia) Hqc).
    assert (Hd2 : Zpos (digits2_pos m2) = 53)
      by (apply (Zdigits2_unique (Zpos m2) 53); simpl; lia).
    destruct (div_raw m1 e1 m2 e2 Hm1 ltac:(lia) ltac:(lia))
      as [[Hinf _] | [Hn [Hlo _]]]; [now left | right].
    split; [exact Hn|]. eapply Qle_trans; [|exact Hlo].
    apply Qmult_le_compat_r; [|apply Qlt_le_weak, one_minus_eps_pos].
    unfold Qdiv. apply Qmult_le_compat_r; [exact Ha|].
    apply Qlt_le_weak, Qinv_lt_0_compat. exact Hcpos.
Qed.

(** A number with a positive value is finite and positive; a valid one has
    a mantissa of 53 bits at most and an exponent of 971 at most. *)
Lemma positive_value_finite x :
  (0 < toQ x)%Q -> exists m e, x = S754_finite false m e.
Proof.
  destruct x as [s | s | | s m e]; simpl; intros H;
    try (exfalso; revert H; apply Qlt_irrefl).
  destruct s; [exfalso | now exists m, e].
  pose proof (Q2pow_pos e) as Hp. simpl in H.
  assert (Hneg : (inject_Z (Zneg m) * 2 ^ e < 0)%Q).
  { setoid_replace (inject_Z (Zneg m) * 2 ^ e)%Q
      with (- (inject_Z (Zpos m) * 2 ^ e))%Q
      by (change (inject_Z (Zneg m)) with (- inject_Z (Zpos m))%Q; ring).
    assert ((0 < inject_Z (Zpos m) * 2 ^ e)%Q)
      by (apply Qmult_lt_0_compat; [reflexivity | exact Hp]).
    lra. }
  lra.
Qed.

Lemma valid_finite_bounds m e :
  SpecFloat.valid_binary prec emax (S754_finite false m e) = true ->
  Zpos (digits2_pos m) <= 53 /\ e <= 971.
Proof.
  simpl. unfold bounded, canonical_mantissa, fexp, SpecFloat.emin, prec, emax.
  intros H. apply andb_prop in H. destruct H as [Hc He].
  apply Z.eqb_eq in Hc. apply Z.leb_le in He. lia.
Qed.

(** The first division of the delay: [c / y] for a normal number [c] of the
    window and a valid positive divisor [y] (a subnormal one included). *)
Lemma div_by_valid c y t :
  normalPos c -> (qLo <= toQ c <= qHi)%Q ->
  SpecFloat.valid_binary prec emax y = true -> (0 < toQ y)%Q ->
  (qLo <= t)%Q -> (t * toQ y <= toQ c)%Q ->
  atLeast (t * (1 - eps)) (div c y).
Proof.
  intros Hc Hcw Hvalid Hpos Hqt Ht.
  destruct (positive_value_finite y Hpos) as [m2 [e2 ->]].
  destruct (valid_finite_bounds m2 e2 Hvalid) as [Hd2 He2].
  destruct Hc as [m1 [e1 [-> [Hm1 He1]]]].
  assert (Hy80 : (toQ (S754_finite false m2 e2) <= 2 ^ 80)%Q).
  { assert (Hty : (qLo * toQ (S754_finite false m2 e2)
                   <= t * toQ (S754_finite false m2 e2))%Q)
      by (apply Qmult_le_compat_r; [exact Hqt | now apply Qlt_le_weak]).
    change (2 ^ 80)%Q with (1208925819614629174706176 # 1)%Q.
    unfold qLo, qHi in *. lra. }
  rewrite qLo_pow, qHi_pow in Hcw. rewrite toQ_pos in Hcw, Hy80.
  pose proof (exponent_lower m1 e1 (-10) ltac:(lia) (proj1 Hcw)).
  pose proof (digits2_pos_bounds m2) as Hm2.
  destruct (mantissa_value_bounds (Zpos m2) (Zpos (digits2_pos m2)) e2 Hm2
              ltac:(lia)) as [Hlow _].
  assert (Hk : (2 ^ (Zpos (digits2_pos m2) - 1 + e2) <= 2 ^ 80)%Q)
    by (eapply Qle_trans; eauto).
  apply Qpower_le_compat_l_inv in Hk; [|reflexivity].
  destruct (div_raw m1 e1 m2 e2 Hm1 Hd2 ltac:(lia))
    as [[Hinf _] | [Hn [Hlo _]]]; [now left | right].
  split; [exact Hn|]. eapply Qle_trans; [|exact Hlo].
  apply Qmult_le_compat_r; [|apply Qlt_le_weak, one_minus_eps_pos].
  apply Qle_shift_div_l; [|rewrite !toQ_pos]; assumption.
Qed.

(** A delay of 1/2 at least rounds to a positive number. *)
Lemma round_atLeast x :
  atLeast (1 # 2) x -> ltb (ofZ 0) (Math_round x) = true.
Proof.
  intros [-> | [Hn Ha]]; [reflexivity|].
  destruct (round_ok x Hn Ha) as [Hr _].
  now apply ltb_zero_normal.
Qed.

End NumFacts.

(** ** The focal index and the delay: arithmetic facts *)

Module TimingFacts.
Import JS Num Regex RsvpUtils NumFacts.

Lemma length_trimStart s : length (trimStart s) <= length s.
Proof.
  induction s as [|c s IH]; simpl; [lia|].
  destruct (isWhiteSpace c); simpl; lia.
Qed.

Lemma length_trim s : length (trim s) <= length s.
Proof.
  unfold trim, trimEnd. rewrite length_rev.
  eapply Nat.le_trans; [apply length_trimStart|].
  rewrite length_rev. apply length_trimStart.
Qed.


Lemma lit_0_85_normal : normalPos lit_0_85.
Proof. do 2 eexists. split; [reflexivity|]. simpl. lia. Qed.
Lemma lit_0_85_value :
  (toQ lit_0_85 == 7656119366529843 # 9007199254740992)%Q.
Proof. reflexivity. Qed.

Lemma lit_0_9_normal : normalPos lit_0_9.
Proof. do 2 eexists. split; [reflexivity|]. simpl. lia. Qed.
Lemma lit_0_9_value :
  (toQ lit_0_9 == 8106479329266893 # 9007199254740992)%Q.
Proof. reflexivity. Qed.

Lemma lit_1_3_normal : normalPos lit_1_3.
Proof. do 2 eexists. split; [reflexivity|]. simpl. lia. Qed.
Lemma lit_1_3_value :
  (toQ lit_1_3 == 5854679515581645 # 4503599627370496)%Q.
Proof. reflexivity. Qed.




(** *** The delay at 100 and at 300 words per minute *)

Lemma ofNat_exact_le n :
  (1 <= n)%nat -> (Z.of_nat n <= 2 ^ 53)%Z ->
  normalPos (ofNat n) /\ (toQ (ofNat n) == inject_Z (Z.of_nat n))%Q.
Proof.
  intros Hn Hle. destruct (Z.eq_dec (Z.of_nat n) (2 ^ 53)) as [Heq | Hne].
  - unfold ofNat. rewrite Heq. split.
    + exists 4503599627370496%positive, 1%Z.
      split; [vm_compute; reflexivity | simpl; lia].
    + vm_compute. reflexivity.
  - apply ofZ_exact. lia.
Qed.

(** [split] gives one piece more than the separators found, and finds at
    most one separator for each index of the input. *)
Lemma splitStep_length fl input r l : forall st,
  length (snd (fold_left (splitStep fl input r) l st))
  <= length (snd st) + length l.
Proof.
  induction l as [|q l IH]; intros st; simpl; [lia|].
  eapply Nat.le_trans; [apply IH|].
  assert (Hstep : length (snd (splitStep fl input r st q))
                  <= S (length (snd st))).
  { unfold splitStep. destruct st as [p pieces].
    destruct (q <? p); simpl; [lia|].
    destruct (matchAt fl input r q); simpl; [|lia].
    destruct (_ =? p); simpl; [lia|]. rewrite length_app. simpl. lia. }
  lia.
Qed.

Lemma split_length_le fl input r :
  length (split fl input r) <= length input + 1.
Proof.
  unfold split. destruct input as [|c input'] eqn:Hin.
  - destruct (matchAt fl [] r 0); simpl; lia.
  - rewrite <- Hin.
    pose proof (splitStep_length fl input r (seq 0 (length input)) (0, []))
      as Hfold.
    destruct (fold_left (splitStep fl input r) (seq 0 (length input)) (0, []))
      as [p pieces].
    rewrite length_seq in Hfold. simpl in Hfold.
    rewrite length_app. simpl. lia.
Qed.

Lemma ofZ_200 : normalPos (ofZ 200) /\ (toQ (ofZ 200) == 200)%Q.
Proof. apply (ofZ_exact 200). simpl. lia. Qed.
Lemma ofZ_600 : normalPos (ofZ 600) /\ (toQ (ofZ 600) == 600)%Q.
Proof. apply (ofZ_exact 600). simpl. lia. Qed.
Lemma ofZ_300 : normalPos (ofZ 300) /\ (toQ (ofZ 300) == 300)%Q.
Proof. apply (ofZ_exact 300). simpl. lia. Qed.

(** The factor [wordCount * 0.85] of a phrase of two words at least. *)
Lemma phrase_factor wc :
  (2 <= wc)%nat -> (Z.of_nat wc <= 2 ^ 53)%Z ->
  normalPos (mul (ofNat wc) lit_0_85)
  /\ ((169 # 100) <= toQ (mul (ofNat wc) lit_0_85))%Q
  /\ (toQ (mul (ofNat wc) lit_0_85) <= 9007199254740992 # 1)%Q.
Proof.
  intros Hwc Hle.
  destruct (ofNat_exact_le wc ltac:(lia) Hle) as [Hn Hq].
  assert (Hlo : (2 <= inject_Z (Z.of_nat wc))%Q).
  { change 2%Q with (inject_Z 2). rewrite <- Zle_Qle. lia. }
  assert (Hhi : (inject_Z (Z.of_nat wc) <= 9007199254740992 # 1)%Q).
  { change (9007199254740992 # 1)%Q with (inject_Z (2 ^ 53)).
    rewrite <- Zle_Qle. exact Hle. }
  destruct (mul_ok (ofNat wc) lit_0_85 Hn lit_0_85_normal) as [Hy [Hylo Hyhi]].
  - rewrite Hq. unfold qLo, qHi. split; lra.
  - rewrite lit_0_85_value. unfold qLo, qHi. split; discriminate.
  - rewrite Hq, lit_0_85_value in Hylo, Hyhi. unfold eps in *.
    split; [exact Hy|]. split; lra.
Qed.

Section Phrase.
Variable y : number.
Hypothesis y_normal : normalPos y.
Hypothesis y_low : ((169 # 100) <= toQ y)%Q.
Hypothesis y_high : (toQ y <= 9007199254740992 # 1)%Q.

Lemma y_window : (qLo <= toQ y <= qHi)%Q.
Proof. unfold qLo, qHi. split; lra. Qed.

Lemma window_200 : (qLo <= toQ (ofZ 200) <= qHi)%Q.
Proof. rewrite (proj2 ofZ_200). unfold qLo, qHi. split; discriminate. Qed.
Lemma window_600 : (qLo <= toQ (ofZ 600) <= qHi)%Q.
Proof. rewrite (proj2 ofZ_600). unfold qLo, qHi. split; discriminate. Qed.
Lemma window_300 : (qLo <= toQ (ofZ 300) <= qHi)%Q.
Proof. rewrite (proj2 ofZ_300). unfold qLo, qHi. split; discriminate. Qed.

(** The phrase delay without a punctuation pause. *)
Lemma phrase_plain :
  ltb (Math_round (mul (ofZ 200) y)) (Math_round (mul (ofZ 600) y)) = true.
Proof.
  destruct (mul_ok (ofZ 200) y (proj1 ofZ_200) y_normal window_200 y_window)
    as [Hn3 [Hlo3 Hhi3]].
  destruct (mul_ok (ofZ 600) y (proj1 ofZ_600) y_normal window_600 y_window)
    as [Hn1 [Hlo1 Hhi1]].
  rewrite (proj2 ofZ_200) in Hlo3, Hhi3. rewrite (proj2 ofZ_600) in Hlo1, Hhi1.
  unfold eps in *.
  destruct (round_ok _ Hn3) as [Hr3 [_ Hr3hi]]; [lra|].
  destruct (round_ok _ Hn1) as [Hr1 [Hr1lo _]]; [lra|].
  apply ltb_normal; [exact Hr3 | exact Hr1 | lra].
Qed.

(** The phrase delay with the pause of a sentence end. *)
Lemma phrase_sentence :
  ltb (Math_round (add (mul (ofZ 200) y) (ofZ 300)))
      (Math_round (add (mul (ofZ 600) y) (ofZ 300))) = true.
Proof.
  destruct (mul_ok (ofZ 200) y (proj1 ofZ_200) y_normal window_200 y_window)
    as [Hn3 [Hlo3 Hhi3]].
  destruct (mul_ok (ofZ 600) y (proj1 ofZ_600) y_normal window_600 y_window)
    as [Hn1 [Hlo1 Hhi1]].
  rewrite (proj2 ofZ_200) in Hlo3, Hhi3. rewrite (proj2 ofZ_600) in Hlo1, Hhi1.
  unfold eps in *.
  destruct (add_ok _ (ofZ 300) Hn3 (proj1 ofZ_300)) as [Ha3 [Ha3lo Ha3hi]];
    [unfold qLo, qHi; split; lra | exact window_300 |].
  destruct (add_ok _ (ofZ 300) Hn1 (proj1 ofZ_300)) as [Ha1 [Ha1lo Ha1hi]];
    [unfold qLo, qHi; split; lra | exact window_300 |].
  rewrite (proj2 ofZ_300) in Ha3lo, Ha3hi, Ha1lo, Ha1hi.
  unfold eps in *.
  destruct (round_ok _ Ha3) as [Hr3 [_ Hr3hi]]; [lra|].
  destruct (round_ok _ Ha1) as [Hr1 [Hr1lo _]]; [lra|].
  apply ltb_normal; [exact Hr3 | exact Hr1 | lra].
Qed.

End Phrase.

(** *** The delay is positive up to 100000 words per minute *)

Lemma ofZ_60000 : normalPos (ofZ 60000) /\ (toQ (ofZ 60000) == 60000)%Q.
Proof. apply (ofZ_exact 60000). simpl. lia. Qed.

(** The base delay [60000 / wpm] is 0.59 ms at least. *)
Lemma base_atLeast wpm :
  SpecFloat.valid_binary prec emax wpm = true ->
  (0 < toQ wpm)%Q -> (toQ wpm <= 100000)%Q ->
  atLeast (59 # 100) (div (ofZ 60000) wpm).
Proof.
  intros Hvalid Hpos Hle.
  apply atLeast_weaken with ((6 # 10) * (1 - eps))%Q; [discriminate|].
  apply div_by_valid; try assumption.
  - exact (proj1 ofZ_60000).
  - rewrite (proj2 ofZ_60000). unfold qLo, qHi. split; discriminate.
  - discriminate.
  - rewrite (proj2 ofZ_60000). lra.
Qed.

Section Positive.
Variable base : number.
Hypothesis base_low : atLeast (59 # 100) base.

Lemma half_plain : atLeast (1 # 2) base.
Proof. apply atLeast_weaken with (59 # 100)%Q; [discriminate | exact base_low]. Qed.

(** The length modifiers and the phrase override: a factor of 0.89 at
    least. *)
Lemma half_mul c :
  normalPos c -> ((89 # 100) <= toQ c)%Q -> atLeast (1 # 2) (mul base c).
Proof.
  intros Hc Hlow.
  apply atLeast_weaken with ((59 # 100) * (89 # 100) * (1 - eps))%Q;
    [discriminate|].
  apply mul_atLeast; try assumption; discriminate.
Qed.

Lemma half_long : atLeast (1 # 2) (mul base lit_1_3).
Proof.
  apply half_mul; [exact lit_1_3_normal | rewrite lit_1_3_value; discriminate].
Qed.

Lemma half_short : atLeast (1 # 2) (mul base lit_0_9).
Proof.
  apply half_mul; [exact lit_0_9_normal | rewrite lit_0_9_value; discriminate].
Qed.

Lemma half_phrase wc :
  (2 <= wc)%nat -> (Z.of_nat wc <= 2 ^ 53)%Z ->
  atLeast (1 # 2) (mul base (mul (ofNat wc) lit_0_85)).
Proof.
  intros Hwc Hle. destruct (phrase_factor wc Hwc Hle) as [Hy [Hlo _]].
  apply half_mul; [exact Hy | lra].
Qed.

(** The pause of a sentence end. *)
Lemma half_sentence d : atLeast (1 # 2) d -> atLeast (1 # 2) (add d (ofZ 300)).
Proof.
  intros Hd.
  apply atLeast_weaken with (((1 # 2) + toQ (ofZ 300)) * (1 - eps))%Q.
  - rewrite (proj2 ofZ_300). discriminate.
  - apply add_atLeast; [exact Hd | exact (proj1 ofZ_300)].
Qed.

(** The replacement delay of a clause mark. *)
Lemma half_clause : atLeast (1 # 2) (div base lit_0_9).
Proof.
  apply atLeast_weaken with ((59 # 100) / toQ lit_0_9 * (1 - eps))%Q.
  - rewrite lit_0_9_value. discriminate.
  - apply div_atLeast; [exact base_low | exact lit_0_9_normal | discriminate |].
    rewrite lit_0_9_value. discriminate.
Qed.

End Positive.

End TimingFacts.

(* ===================================================================== *)
(** * The claims *)
(* ===================================================================== *)

Import JS Num Regex RsvpUtils.

(** C1. For every input text [algorithmicChunker] returns a chunk sequence:
    every chunk is a non-empty [[start, end)] slice of the text and carries
    that slice as its text; the slices concatenated in order are exactly the
    non-white-space characters of the text in their order; no two chunks
    overlap ([end] of a chunk is at most [start] of every later one) and the
    [start] offsets strictly increase; a text that is empty or made of white
    space only gives the empty sequence. *)
Theorem C1_chunker_partitions_text (text : jsString) :
  exists chunks,
    algorithmicChunker text = Some chunks
    /\ Forall (fun c =>
                 (0 <= Chunk.start c < Chunk.end_ c)%Z
                 /\ (Chunk.end_ c <= Z.of_nat (length text))%Z
                 /\ Chunk.text c = ChunkerFacts.sliceOf text c) chunks
    /\ concat (map (ChunkerFacts.sliceOf text) chunks)
        = filter (fun x => negb (isWhiteSpace x)) text
    /\ StronglySorted (fun a b => (Chunk.end_ a <= Chunk.start b)%Z) chunks
    /\ StronglySorted (fun a b => (Chunk.start a < Chunk.start b)%Z) chunks
    /\ (forallb isWhiteSpace text = true -> chunks = []).
Proof.
  destruct (ChunkerFacts.algorithmicChunker_eq text) as [rs [Hrs Heq]].
  destruct (ChunkerFacts.matchSeq_chunks text 0 rs Hrs) as [Hw [Hs Hc]];
    [lia|].
  exists (map (ChunkerFacts.chunkOf) rs).
  simpl in Hc. fold isNonSpace.
  repeat split; auto.
  - eapply Forall_impl; [|exact Hw]. unfold ChunkerFacts.wellPlaced.
    intros c H. simpl in H. tauto.
  - eapply ChunkerFacts.starts_increase; eauto.
  - intros Hsp.
    rewrite (ListFacts.filter_none _ _ (ChunkerFacts.nonSpace_negb _ Hsp)) in Hc.
    destruct (map ChunkerFacts.chunkOf rs) as [|c cs]; [reflexivity|exfalso].
    inversion Hw; subst. simpl in Hc.
    apply app_eq_nil in Hc. destruct Hc as [Hc _].
    eapply ChunkerFacts.wellPlaced_slice_nonempty; eauto.
Qed.

(** The sample texts of the examples: a text without a heading, and a text
    whose second line is a heading. *)
Definition plainText : jsString := ofString "Hello, world!".
Definition headedText : jsString :=
  ofString "Intro" ++ [10%N] ++ ofString "Chapter 1" ++ [10%N]
  ++ ofString "It begins.".

Example extractChapters_plainText :
  extractChapters plainText [] = Some [defaultChapter].
Proof. vm_compute. reflexivity. Qed.

Example extractChapters_headedText :
  match algorithmicChunker headedText with
  | Some chunks =>
      option_map (map Chapter.chunkIndex) (extractChapters headedText chunks)
  | None => None
  end = Some [1%Z].
Proof. vm_compute. reflexivity. Qed.

(** C9. For every text and every chunk sequence [extractChapters] returns a
    chapter list that strictly increases in [chunkIndex]; the list is the
    sequence of the markers of the heading matches that resolve to a chunk,
    each run of markers with one chunk index reduced to its first marker, or
    the single default marker when that sequence is empty; and when no line
    of the text matches the heading pattern the result is exactly
    [{title: "Start of Text", chunkIndex: 0}]. *)
Theorem C9_chapters_increasing_deduplicated (text : jsString)
    (chunks : list Chunk.t) :
  exists rs chapters,
    execAll chapterFlags text chapterRe = Some rs
    /\ extractChapters text chunks = Some chapters
    /\ StronglySorted
         (fun a b => (Chapter.chunkIndex a < Chapter.chunkIndex b)%Z) chapters
    /\ (chapters
         = match ChapterFacts.dedupFirst None
                   (ChapterFacts.resolvedMarkers chunks rs) with
           | [] => [defaultChapter]
           | markers => markers
           end)
    /\ ((forall i s', ~ RegexFacts.matches chapterFlags text chapterRe
                        (RegexFacts.init i) s') ->
        chapters = [defaultChapter]).
Proof.
  destruct (ChapterFacts.extractChapters_eq text chunks)
    as [rs [Hall [Hrs Heq]]].
  exists rs. eexists. split; [exact Hall|]. split; [exact Heq|].
  split; [|split; [reflexivity|]].
  - destruct (ChapterFacts.matchSeq_indices text chapterRe chapterFlags 0 rs
                ChapterFacts.chapterRe_consumes Hrs) as [_ Hsorted].
    destruct (ChapterFacts.resolvedMarkers_nonDecreasing chunks rs Hsorted)
      as [Hnd _].
    destruct (ChapterFacts.dedupFirst_increasing
                (ChapterFacts.resolvedMarkers chunks rs) None Hnd) as [Hinc _].
    + apply Forall_forall. intros a _ p Hp. discriminate.
    + destruct (ChapterFacts.dedupFirst None
                  (ChapterFacts.resolvedMarkers chunks rs)) eqn:Hd.
      * repeat constructor.
      * exact Hinc.
  - intros Hno.
    rewrite (ChapterFacts.no_heading_no_match text rs Hno Hrs). reflexivity.
Qed.

(** C10. When no chunk starts at or after the offset of any heading match
    (so in particular when [chunks] is empty) every match is discarded and
    [extractChapters] returns exactly the default marker, whatever headings
    the text has. *)
Theorem C10_unresolved_headings_give_default (text : jsString)
    (chunks : list Chunk.t) (rs : list execResult) :
  execAll chapterFlags text chapterRe = Some rs ->
  (forall res c, In res rs -> In c chunks ->
                 (Chunk.start c < Z.of_nat (index res))%Z) ->
  extractChapters text chunks = Some [defaultChapter]
  /\ extractChapters text [] = Some [defaultChapter].
Proof.
  intros Hall Hbefore.
  destruct (ChapterFacts.extractChapters_eq text chunks)
    as [rs1 [Hall1 [_ Heq1]]].
  destruct (ChapterFacts.extractChapters_eq text [])
    as [rs2 [Hall2 [_ Heq2]]].
  rewrite Hall in Hall1, Hall2.
  inversion Hall1; subst rs1. inversion Hall2; subst rs2.
  rewrite Heq1, Heq2.
  rewrite (ChapterFacts.resolvedMarkers_none chunks rs Hbefore).
  rewrite (ChapterFacts.resolvedMarkers_none [] rs); [split; reflexivity|].
  intros res c _ [].
Qed.

(** The chunk of the first line of [headedText]; its heading match starts at
    offset 5, after that chunk. *)
Definition introChunk : Chunk.t :=
  {| Chunk.text := ofString "Intro"; Chunk.start := 0; Chunk.end_ := 5;
     Chunk.kind := word;
     Chunk.focalIndex := Some (calculateFocalIndex (ofString "Intro")) |}.

Lemma C10_witness :
  extractChapters headedText [introChunk] = Some [defaultChapter]
  /\ extractChapters headedText [] = Some [defaultChapter].
Proof.
  apply (C10_unresolved_headings_give_default headedText [introChunk]
           [ {| index := 5; endIndex := 16;
                match0 := [10%N] ++ ofString "Chapter 1" ++ [10%N];
                match1 := Some (ofString "Chapter 1") |} ]).
  - vm_compute. reflexivity.
  - intros res c [Hres | []] [Hc | []]. subst res c. simpl. lia.
Defined.

(** C2. For every text, every list of existing chunks with offsets into it
    and every enriched list of (text, kind) items: the items are resolved
    left to right, each to the first occurrence of its text at or after the
    end of the item resolved before it, an item without such an occurrence
    being dropped; with [E] the end offset of the last resolved item ([0]
    when none is resolved) the merged sequence is the resolved items
    followed by exactly the existing chunks whose [start] is at least [E],
    so no existing chunk with [start >= E] is dropped. *)
Theorem C2_reconciler_merge (text : jsString) (existing : list Chunk.t)
    (items : list AiService.Item.t) :
  Forall (fun c => (0 <= Chunk.start c)%Z) existing ->
  exists smartChunks E,
    AiService.semanticChunkText text (Some items) = Some smartChunks
    /\ ReconcilerFacts.Resolves text 0 items smartChunks E
    /\ App.mergedChunks existing smartChunks
        = smartChunks
          ++ filter (fun c => (Z.of_nat E <=? Chunk.start c)%Z) existing
    /\ (forall c, In c existing -> (Z.of_nat E <= Chunk.start c)%Z ->
                  In c (App.mergedChunks existing smartChunks)).
Proof.
  intros Hpos.
  destruct (ReconcilerFacts.remapLoop_resolves text items 0 [] ltac:(lia))
    as [chunks [E [Hl [Hr He]]]].
  simpl in Hl, He.
  assert (Hmerged : App.mergedChunks existing chunks
                    = chunks ++ filter (fun c => (Z.of_nat E <=? Chunk.start c)%Z)
                                       existing).
  { rewrite (ReconcilerFacts.mergedChunks_spec existing chunks Hpos).
    now rewrite He. }
  exists chunks, E. simpl. rewrite Hl.
  repeat split; auto.
  intros c Hin Hc. rewrite Hmerged. apply in_or_app. right.
  apply filter_In. split; [exact Hin | now apply Z.leb_le].
Qed.

(** A sample reconciliation: the second item does not occur in the text. *)
Definition cityText : jsString := ofString "New York is big".
Definition cityChunk (s : string) (a b : Z) : Chunk.t :=
  {| Chunk.text := ofString s; Chunk.start := a; Chunk.end_ := b;
     Chunk.kind := word;
     Chunk.focalIndex := Some (calculateFocalIndex (ofString s)) |}.
Definition cityChunks : list Chunk.t :=
  [cityChunk "New" 0 3; cityChunk "York" 4 8; cityChunk "is" 9 11;
   cityChunk "big" 12 15].
Definition cityItems : list AiService.Item.t :=
  [ {| AiService.Item.text := ofString "New York";
       AiService.Item.kind := phrase |};
    {| AiService.Item.text := ofString "Boston";
       AiService.Item.kind := entity |};
    {| AiService.Item.text := ofString "is";
       AiService.Item.kind := word |} ].

Example cityChunks_computed : algorithmicChunker cityText = Some cityChunks.
Proof. vm_compute. reflexivity. Qed.

Example cityMerge_computed :
  option_map
    (fun smart =>
       map (fun c => (Chunk.start c, Chunk.end_ c))
           (App.mergedChunks cityChunks smart))
    (AiService.semanticChunkText cityText (Some cityItems))
  = Some [(0, 8); (9, 11); (12, 15)]%Z.
Proof. vm_compute. reflexivity. Qed.

Lemma C2_witness :
  exists smartChunks E,
    AiService.semanticChunkText cityText (Some cityItems) = Some smartChunks
    /\ ReconcilerFacts.Resolves cityText 0 cityItems smartChunks E
    /\ App.mergedChunks cityChunks smartChunks
        = smartChunks
          ++ filter (fun c => (Z.of_nat E <=? Chunk.start c)%Z) cityChunks
    /\ (forall c, In c cityChunks -> (Z.of_nat E <= Chunk.start c)%Z ->
                  In c (App.mergedChunks cityChunks smartChunks)).
Proof.
  apply (C2_reconciler_merge cityText cityChunks cityItems).
  repeat constructor; simpl; lia.
Defined.

(** C3. With a book loaded, [setCurrentIndex] clamps its target into
    [[0, len-1]] (a target inside the range is kept, a negative one gives 0,
    one past the end gives [len-1]) and leaves the play state alone; on 100
    chunks [setCurrentIndex(-5)] gives 0 and [setCurrentIndex(500)] gives 99;
    [advanceIndex] at the last index pauses and keeps [currentIndex]. Both
    are total functions of the state: no path raises. *)
Theorem C3_seek_clamps_advance_pauses (st : Store.ReadallState)
    (book : Book.t) :
  Store.activeBook st = Some book ->
  (forall index,
      (0 <= Store.currentIndex (Store.setCurrentIndex index st))%Z
      /\ (1 <= Store.chunksLength book ->
          Store.currentIndex (Store.setCurrentIndex index st)
          <= Store.chunksLength book - 1)%Z
      /\ (0 <= index <= Store.chunksLength book - 1 ->
          Store.currentIndex (Store.setCurrentIndex index st) = index)%Z
      /\ Store.isPlaying (Store.setCurrentIndex index st) = Store.isPlaying st)
  /\ (Store.chunksLength book = 100%Z ->
      Store.currentIndex (Store.setCurrentIndex (-5) st) = 0%Z
      /\ Store.currentIndex (Store.setCurrentIndex 500 st) = 99%Z)
  /\ (Store.currentIndex st = (Store.chunksLength book - 1)%Z ->
      Store.isPlaying (Store.advanceIndex st) = false
      /\ Store.currentIndex (Store.advanceIndex st)
         = (Store.chunksLength book - 1)%Z).
Proof.
  intros Hbook. unfold Store.setCurrentIndex, Store.advanceIndex.
  rewrite Hbook. simpl. repeat split; try lia.
  - rewrite H, Z.leb_refl. reflexivity.
  - rewrite H, Z.leb_refl. simpl. exact H.
Qed.

(** A state with a book of 100 chunks loaded, playing at its last index. *)
Definition book100 : Book.t :=
  {| Book.id := ofString "b"; Book.title := ofString "t";
     Book.content := []; Book.chunks := repeat introChunk 100;
     Book.chapters := None; Book.progressIndex := 0 |}.
Definition state100 : Store.ReadallState :=
  {| Store.currentView := Store.reader;
     Store.activeBookId := Some (ofString "b");
     Store.activeBook := Some book100;
     Store.isPlaying := true;
     Store.currentIndex := 99 |}.

Lemma C3_witness :
  Store.currentIndex (Store.setCurrentIndex (-5) state100) = 0%Z
  /\ Store.currentIndex (Store.setCurrentIndex 500 state100) = 99%Z
  /\ Store.isPlaying (Store.advanceIndex state100) = false
  /\ Store.currentIndex (Store.advanceIndex state100) = 99%Z.
Proof.
  destruct (C3_seek_clamps_advance_pauses state100 book100 eq_refl)
    as [_ [Hseek Hadv]].
  destruct (Hseek eq_refl) as [H0 H99].
  destruct (Hadv eq_refl) as [Hp Hi].
  repeat split; assumption.
Defined.


(** A chunk of the given text and kind; the offsets play no part in the delay. *)
Definition chunkOfText (s : string) (k : Kind) : Chunk.t :=
  {| Chunk.text := ofString s; Chunk.start := 0;
     Chunk.end_ := Z.of_nat (String.length s); Chunk.kind := k;
     Chunk.focalIndex := Some (calculateFocalIndex (ofString s)) |}.

Example delay_phrase_override :
  calculateChunkDelay (chunkOfText "New York City" phrase) (ofZ 300) = ofZ 510.
Proof. vm_compute. reflexivity. Qed.

Example delay_abbreviation :
  calculateChunkDelay (chunkOfText "Mrs." word) (ofZ 300) = ofZ 200.
Proof. vm_compute. reflexivity. Qed.

Example delay_numeric_comma :
  calculateChunkDelay (chunkOfText "1," word) (ofZ 300) = ofZ 180.
Proof. vm_compute. reflexivity. Qed.

(** C4, as stated: the delay of "U.S.A." at 300 wpm would be 260 ms. The
    token has 6 characters, the x1.3 modifier needs more than 10, and the
    delay is the base of 200 ms. *)
Lemma C4_counterexample :
  length (trim (ofString "U.S.A.")) = 6
  /\ calculateChunkDelay (chunkOfText "U.S.A." word) (ofZ 300) <> ofZ 260.
Proof. split; [reflexivity | vm_compute; discriminate]. Qed.

(** C4, amended. "U.S.A." matches the acronym pattern, so at 300 wpm it gets
    no +300 for its final full stop, and its delay is the base of 200 ms:
    its 6 characters are neither more than 10 nor fewer than 3, so no length
    modifier applies. "Hello." (6 characters, no exception) gets
    200 + 300 = 500 ms. *)
Theorem C4_acronym_suppresses_bonus :
  test noFlags (trim (ofString "U.S.A.")) acronymRe = true
  /\ calculateChunkDelay (chunkOfText "U.S.A." word) (ofZ 300) = ofZ 200
  /\ div (ofZ 60000) (ofZ 300) = ofZ 200
  /\ test noFlags (trim (ofString "Hello.")) acronymRe = false
  /\ calculateChunkDelay (chunkOfText "Hello." word) (ofZ 300) = ofZ 500.
Proof. vm_compute. repeat split; reflexivity. Qed.

Example delay_clause_long_word :
  calculateChunkDelay (chunkOfText "internationalization;" word) (ofZ 300)
  = ofZ 222.
Proof. vm_compute. reflexivity. Qed.

(** C5. For every chunk whose trimmed text ends in [,], [;] or [:] and
    matches none of the three exception patterns, and every pacing rate, the
    delay is [base / 0.9] rounded, whatever the length of the token and
    whatever its kind and word count: the length modifier and the phrase
    override are superseded. "Hello," at 300 wpm gives round(200 / 0.9) =
    222 ms. *)
Theorem C5_clause_mark_replaces_delay (chunk : Chunk.t) (wpm : number) :
  includes [ofString ","; ofString ";"; ofString ":"]
           (sliceLast (trim (Chunk.text chunk))) = true ->
  test noFlags (trim (Chunk.text chunk)) acronymRe = false ->
  test abbreviationFlags (trim (Chunk.text chunk)) abbreviationRe = false ->
  test noFlags (trim (Chunk.text chunk)) numericCommaRe = false ->
  calculateChunkDelay chunk wpm
  = Math_round (div (div (ofZ 60000) wpm) lit_0_9)
  /\ calculateChunkDelay (chunkOfText "Hello," word) (ofZ 300) = ofZ 222.
Proof.
  intros Hclause Hacr Habbr Hnum. split; [|vm_compute; reflexivity].
  unfold calculateChunkDelay.
  rewrite Hacr, Habbr, Hnum.
  pose proof (DelayFacts.clause_not_sentence _ Hclause) as Hsentence.
  unfold DelayFacts.sentenceMarks in Hsentence.
  rewrite Hsentence, Hclause. reflexivity.
Qed.

Lemma C5_witness :
  calculateChunkDelay (chunkOfText "New York City," phrase) (ofZ 300)
  = Math_round (div (div (ofZ 60000) (ofZ 300)) lit_0_9)
  /\ calculateChunkDelay (chunkOfText "Hello," word) (ofZ 300) = ofZ 222.
Proof.
  apply (C5_clause_mark_replaces_delay
           (chunkOfText "New York City," phrase) (ofZ 300));
    vm_compute; reflexivity.
Defined.

Example focalIndex_length_180 :
  calculateFocalIndex (repeat 97%N 180) = ofZ 62.
Proof. vm_compute. reflexivity. Qed.


(** C7. For every chunk (of a text within the length limit of a string)
    the delay at 100 words per minute is strictly larger than the delay at
    300 words per minute. *)
Theorem C7_delay_larger_at_lower_rate (chunk : Chunk.t) :
  (Z.of_nat (length (Chunk.text chunk)) < 2 ^ 53)%Z ->
  ltb (calculateChunkDelay chunk (ofZ 300))
      (calculateChunkDelay chunk (ofZ 100)) = true.
Proof.
  intros Hlen. unfold calculateChunkDelay. cbv zeta.
  replace (div (ofZ 60000) (ofZ 300)) with (ofZ 200)
    by (vm_compute; reflexivity).
  replace (div (ofZ 60000) (ofZ 100)) with (ofZ 600)
    by (vm_compute; reflexivity).
  pose proof (TimingFacts.split_length_le noFlags (trim (Chunk.text chunk))
                whitespaceRun) as Hwc.
  pose proof (TimingFacts.length_trim (Chunk.text chunk)) as Htrim.
  set (wc := length (split noFlags (trim (Chunk.text chunk)) whitespaceRun))
    in *.
  assert (Hwc53 : (Z.of_nat wc <= 2 ^ 53)%Z) by lia.
  clearbody wc.
  generalize (test noFlags (trim (Chunk.text chunk)) acronymRe).
  generalize (test abbreviationFlags (trim (Chunk.text chunk)) abbreviationRe).
  generalize (test noFlags (trim (Chunk.text chunk)) numericCommaRe).
  generalize (includes [ofString "."; ofString "!"; ofString "?"]
                (sliceLast (trim (Chunk.text chunk)))).
  generalize (includes [ofString ","; ofString ";"; ofString ":"]
                (sliceLast (trim (Chunk.text chunk)))).
  generalize (isPhraseKind (Chunk.kind chunk)).
  generalize (10 <? length (trim (Chunk.text chunk))).
  generalize (length (trim (Chunk.text chunk)) <? 3).
  intros short long isPhrase clause sentence numeric abbreviation acronym.
  assert (Hplain : isPhrase = false \/ (wc <= 1)%nat
                   \/ (isPhrase = true /\ (1 < wc)%nat)).
  { destruct isPhrase; [|now left]. right.
    destruct (Nat.le_gt_cases wc 1); [now left | now right]. }
  destruct Hplain as [-> | [Hone | [-> Hmany]]].
  - (* not a phrase: the delays are those of a word *)
    destruct acronym, abbreviation, numeric, sentence, clause, long, short;
      vm_compute; reflexivity.
  - (* a phrase of one word *)
    rewrite (proj2 (Nat.ltb_ge 1 wc) Hone).
    destruct isPhrase, acronym, abbreviation, numeric, sentence, clause,
      long, short; vm_compute; reflexivity.
  - (* a phrase of several words *)
    rewrite (proj2 (Nat.ltb_lt 1 wc) Hmany).
    destruct (TimingFacts.phrase_factor wc Hmany Hwc53) as [Hy [Hlo Hhi]].
    pose proof (TimingFacts.phrase_plain _ Hy Hlo Hhi) as Hplain.
    pose proof (TimingFacts.phrase_sentence _ Hy Hlo Hhi) as Hsentence.
    destruct acronym, abbreviation, numeric, sentence, clause;
      cbn [negb andb];
      match goal with
      | |- ltb (Math_round (mul _ (mul _ _))) _ = true => exact Hplain
      | |- ltb (Math_round (add _ _)) _ = true => exact Hsentence
      | |- _ => vm_compute; reflexivity
      end.
Qed.

Lemma C7_witness :
  ltb (calculateChunkDelay (chunkOfText "New York City" phrase) (ofZ 300))
      (calculateChunkDelay (chunkOfText "New York City" phrase) (ofZ 100))
  = true.
Proof.
  apply (C7_delay_larger_at_lower_rate (chunkOfText "New York City" phrase)).
  vm_compute. reflexivity.
Defined.

(** C8, as stated: the rounded delay would be positive for every rate above
    0. At 200000 words per minute the base delay of "Hello" is 0.3 ms, which
    rounds to 0. *)
Lemma C8_counterexample :
  ltb (ofZ 0) (ofZ 200000) = true
  /\ calculateChunkDelay (chunkOfText "Hello" word) (ofZ 200000) = ofZ 0
  /\ ltb (ofZ 0) (calculateChunkDelay (chunkOfText "Hello" word) (ofZ 200000))
     = false.
Proof. vm_compute. repeat split; reflexivity. Qed.

(** C8, amended. For every chunk (of a text within the length limit of a
    string) and every pacing rate that is a binary64 number with
    0 < wpm <= 100000, the delay, after rounding to the nearest integer
    millisecond, is strictly positive. *)
Theorem C8_delay_positive_up_to_100000 (chunk : Chunk.t) (wpm : number) :
  (Z.of_nat (length (Chunk.text chunk)) < 2 ^ 53)%Z ->
  SpecFloat.valid_binary prec emax wpm = true ->
  (0 < toQ wpm)%Q -> (toQ wpm <= 100000)%Q ->
  ltb (ofZ 0) (calculateChunkDelay chunk wpm) = true.
Proof.
  intros Hlen Hvalid Hpos Hle. unfold calculateChunkDelay. cbv zeta.
  pose proof (TimingFacts.base_atLeast wpm Hvalid Hpos Hle) as Hbase.
  set (base := div (ofZ 60000) wpm) in *. clearbody base.
  pose proof (TimingFacts.split_length_le noFlags (trim (Chunk.text chunk))
                whitespaceRun) as Hwc.
  pose proof (TimingFacts.length_trim (Chunk.text chunk)) as Htrim.
  set (wc := length (split noFlags (trim (Chunk.text chunk)) whitespaceRun))
    in *.
  assert (Hwc53 : (Z.of_nat wc <= 2 ^ 53)%Z) by lia.
  clearbody wc.
  apply NumFacts.round_atLeast.
  assert (Hstep12 :
    NumFacts.atLeast (1 # 2)
      (if isPhraseKind (Chunk.kind chunk)
       then if 1 <? wc then mul base (mul (ofNat wc) lit_0_85)
            else if 10 <? length (trim (Chunk.text chunk))
                 then mul base lit_1_3
                 else if length (trim (Chunk.text chunk)) <? 3
                      then mul base lit_0_9 else base
       else if 10 <? length (trim (Chunk.text chunk)) then mul base lit_1_3
            else if length (trim (Chunk.text chunk)) <? 3
                 then mul base lit_0_9 else base)).
  { assert (Hlength :
      NumFacts.atLeast (1 # 2)
        (if 10 <? length (trim (Chunk.text chunk)) then mul base lit_1_3
         else if length (trim (Chunk.text chunk)) <? 3
              then mul base lit_0_9 else base)).
    { destruct (10 <? _); [now apply TimingFacts.half_long|].
      destruct (_ <? 3);
        [now apply TimingFacts.half_short | now apply TimingFacts.half_plain]. }
    destruct (isPhraseKind _); [|exact Hlength].
    destruct (Nat.ltb_spec 1 wc) as [Hmany | Hone]; [|exact Hlength].
    apply TimingFacts.half_phrase; [exact Hbase | lia | exact Hwc53]. }
  destruct (negb _ && negb _ && negb _)%bool; [|exact Hstep12].
  destruct (includes [ofString "."; ofString "!"; ofString "?"] _).
  - apply TimingFacts.half_sentence. exact Hstep12.
  - destruct (includes _ _); [|exact Hstep12].
    now apply TimingFacts.half_clause.
Qed.

Lemma C8_witness :
  ltb (ofZ 0) (calculateChunkDelay (chunkOfText "Hi" word) (ofZ 100000)) = true.
Proof.
  apply (C8_delay_positive_up_to_100000 (chunkOfText "Hi" word) (ofZ 100000)).
  - vm_compute. reflexivity.
  - vm_compute. reflexivity.
  - vm_compute. reflexivity.
  - vm_compute. discriminate.
Defined.

(* ===================================================================== *)
(** * Further properties: the store *)
(* ===================================================================== *)

Module StoreFacts.
Import JS.

Lemma string_eqb_refl s : string_eqb s s = true.
Proof. induction s as [|c s IH]; simpl; [reflexivity|]. now rewrite N.eqb_refl. Qed.

Lemma string_eqb_eq a : forall b, string_eqb a b = true <-> a = b.
Proof.
  induction a as [|x a IH]; intros [|y b]; simpl; split; intros H;
    try reflexivity; try discriminate.
  - apply andb_prop in H. destruct H as [Hx Hr].
    apply N.eqb_eq in Hx. apply IH in Hr. now subst.
  - inversion H; subst. rewrite N.eqb_refl. apply string_eqb_refl.
Qed.

(** The actions of the store as data, and a run of them. *)
Inductive Action :=
| SetView (view : Store.View)
| SetBooks (bs : list Book.t)
| LoadBook (book : Book.t)
| UpdateSettings (p : AppSettings.partial)
| UpdateBookProgress (id : jsString) (index : Z)
| RemoveBook (id : jsString)
| SetIsPlaying (playing : bool)
| SetCurrentIndex (index : Z)
| AdvanceIndex
| RewindIndex (amount : Z).

Definition step (st : FullStore.State) (a : Action) : FullStore.State :=
  match a with
  | SetView view => FullStore.setView view st
  | SetBooks bs => FullStore.setBooks bs st
  | LoadBook book => FullStore.loadBook book st
  | UpdateSettings p => FullStore.updateSettings p st
  | UpdateBookProgress id index => FullStore.updateBookProgress id index st
  | RemoveBook id => FullStore.removeBook id st
  | SetIsPlaying playing => FullStore.setIsPlaying playing st
  | SetCurrentIndex index => FullStore.setCurrentIndex index st
  | AdvanceIndex => FullStore.advanceIndex st
  | RewindIndex amount => FullStore.rewindIndex amount st
  end.

Definition run (actions : list Action) (st : FullStore.State)
  : FullStore.State :=
  fold_left step actions st.

(** The last valid position of a book: [length - 1], and 0 for a book
    without chunks. *)
Definition lastPosition (b : Book.t) : Z := Z.max 0 (Store.chunksLength b - 1).

(** The position is valid: not negative, and within the active book. *)
Definition positionValid (st : Store.ReadallState) : Prop :=
  (0 <= Store.currentIndex st)%Z
  /\ forall b, Store.activeBook st = Some b ->
               (Store.currentIndex st <= lastPosition b)%Z.

(** What the callers of the store keep to: a book is opened at a position
    of its own, and the keyboard and the gestures step back by 10. *)
Definition admissible (a : Action) : Prop :=
  match a with
  | LoadBook book => (0 <= Book.progressIndex book <= lastPosition book)%Z
  | RewindIndex amount => (0 <= amount)%Z
  | _ => True
  end.

Lemma step_positionValid st a :
  admissible a -> positionValid (FullStore.playback st) ->
  positionValid (FullStore.playback (step st a)).
Proof.
  destruct st as [pb pv bs se]. destruct pb as [cv abi ab ip ci].
  destruct a; simpl;
    unfold positionValid, lastPosition, Store.chunksLength; simpl;
    intros Ha [H0 Hb]; try (split; assumption).
  - (* setView *)
    unfold FullStore.setView. simpl.
    destruct (_ && _)%bool; simpl; split; assumption.
  - (* loadBook *)
    split; [lia|]. intros b Hb'. inversion Hb'; subst. lia.
  - (* updateBookProgress *)
    unfold FullStore.activeHasId. simpl.
    destruct ab as [b|]; simpl; [|split; [assumption|discriminate]].
    destruct (string_eqb (Book.id b) id); simpl; [|split; assumption].
    split; [assumption|]. intros b' Hb'. inversion Hb'; subst. simpl.
    now apply Hb.
  - (* removeBook *)
    unfold FullStore.activeHasId. simpl.
    destruct ab as [b|]; simpl; [|split; [assumption|discriminate]].
    destruct (string_eqb (Book.id b) id); simpl;
      [split; [assumption|discriminate] | split; assumption].
  - (* setCurrentIndex *)
    unfold Store.setCurrentIndex. simpl.
    destruct ab as [b|]; simpl; [|split; [assumption|discriminate]].
    unfold Store.chunksLength.
    split; [lia|]. intros b' Hb'. inversion Hb'; subst. lia.
  - (* advanceIndex *)
    unfold Store.advanceIndex, Store.chunksLength. simpl.
    destruct ab as [b|]; simpl; [|split; [assumption|discriminate]].
    destruct (Z.leb_spec (Z.of_nat (length (Book.chunks b)) - 1) ci); simpl.
    + split; assumption.
    + split; [lia|]. intros b' Hb'. inversion Hb'; subst. lia.
  - (* rewindIndex *)
    split; [lia|]. intros b Hb'. specialize (Hb b Hb'). lia.
Qed.

End StoreFacts.

Import StoreFacts.

(** X1. The position of the store stays valid: it is not negative and,
    while a book is active, not beyond the last chunk of that book (0 for a
    book without chunks). This holds in the initial state and is kept by
    every action of the store, provided a book is loaded at a position of
    its own and [rewindIndex] is given an amount that is not negative. *)
Theorem store_position_stays_valid :
  positionValid (FullStore.playback FullStore.initial)
  /\ forall (actions : list Action) (st : FullStore.State),
       positionValid (FullStore.playback st) ->
       Forall admissible actions ->
       positionValid (FullStore.playback (run actions st)).
Proof.
  split.
  - split; simpl; [lia | discriminate].
  - intros actions. induction actions as [|a actions IH]; intros st Hv Ha.
    + exact Hv.
    + inversion Ha; subst. simpl. apply IH; [|assumption].
      now apply step_positionValid.
Qed.

(** X2. Playback runs to the end and stops there: from a position within
    the active book, [k] calls of [advanceIndex] lead to the position
    [min(currentIndex + k, length - 1)]; the play state is untouched as long
    as the last chunk has not been passed and is off afterwards; the book,
    the view and the book identifier are untouched. *)
Theorem playback_runs_to_the_end (b : Book.t) (k : nat)
    (st : Store.ReadallState) :
  Store.activeBook st = Some b ->
  (0 <= Store.currentIndex st <= Store.chunksLength b - 1)%Z ->
  let st' := Nat.iter k Store.advanceIndex st in
  Store.activeBook st' = Some b
  /\ Store.currentIndex st'
     = Z.min (Store.currentIndex st + Z.of_nat k) (Store.chunksLength b - 1)
  /\ Store.isPlaying st'
     = (Store.isPlaying st
        && (Store.currentIndex st + Z.of_nat k <=? Store.chunksLength b - 1)%Z)%bool
  /\ Store.currentView st' = Store.currentView st
  /\ Store.activeBookId st' = Store.activeBookId st.
Proof.
  revert st. induction k as [|k IH]; intros st Hb Hr.
  - simpl. repeat split; auto; try lia.
    rewrite (proj2 (Z.leb_le _ _)) by lia. now rewrite andb_true_r.
  - cbn zeta. rewrite Nat.iter_succ.
    destruct (IH st Hb Hr) as [Hb' [Hi [Hp [Hv Hid]]]].
    set (st1 := Nat.iter k Store.advanceIndex st) in *.
    unfold Store.advanceIndex. rewrite Hb'.
    destruct (Z.leb_spec (Store.chunksLength b - 1) (Store.currentIndex st1))
      as [Hlast | Hmore]; simpl.
    + repeat split; auto; try lia.
      rewrite (proj2 (Z.leb_gt _ _)) by lia. now rewrite andb_false_r.
    + repeat split; auto; try lia.
      rewrite Hp. f_equal.
      rewrite (proj2 (Z.leb_le _ _)) by lia.
      now rewrite (proj2 (Z.leb_le _ _)) by lia.
Qed.

(** X3. Opening the settings and closing them leads back: from a view that
    is not the settings view, [setView('settings')] called once or several
    times in a row and then [setView(previousView)] restores the view, the
    playback state, the books and the settings being what they were. *)
Theorem settings_view_round_trip (st : FullStore.State) (n : nat) :
  Store.currentView (FullStore.playback st) <> Store.settings ->
  let opened := Nat.iter (S n) (FullStore.setView Store.settings) st in
  Store.currentView (FullStore.playback opened) = Store.settings
  /\ FullStore.previousView opened = Store.currentView (FullStore.playback st)
  /\ (let closed := FullStore.setView (FullStore.previousView opened) opened in
      FullStore.playback closed = FullStore.playback st
      /\ FullStore.books closed = FullStore.books st
      /\ FullStore.settings closed = FullStore.settings st).
Proof.
  intros Hview. cbn zeta.
  assert (Hopen : forall k,
    Nat.iter (S k) (FullStore.setView Store.settings) st
    = {| FullStore.playback :=
           FullStore.set_currentView Store.settings (FullStore.playback st);
         FullStore.previousView := Store.currentView (FullStore.playback st);
         FullStore.books := FullStore.books st;
         FullStore.settings := FullStore.settings st |}).
  { induction k as [|k IHk].
    - simpl. unfold FullStore.setView.
      destruct (Store.currentView (FullStore.playback st)); simpl;
        try reflexivity. now contradiction Hview.
    - rewrite Nat.iter_succ, IHk. reflexivity. }
  rewrite Hopen. simpl. split; [reflexivity|]. split; [reflexivity|].
  unfold FullStore.setView. simpl.
  destruct st as [pb pv bs se]. destruct pb as [cv abi ab ip ci]. simpl in *.
  destruct cv; simpl; repeat split; try reflexivity; now contradiction Hview.
Qed.

(** X4. [removeBook(id)] removes the books of that identifier and nothing
    else: a book is in the list afterwards exactly when it was there before
    with another identifier, the books that stay keep their order, the
    active book is closed exactly when it has that identifier and is left
    alone otherwise, and removing a second time changes nothing. *)
Theorem removeBook_removes_only_that_book (id : jsString)
    (st : FullStore.State) :
  let st' := FullStore.removeBook id st in
  (forall b, In b (FullStore.books st')
             <-> In b (FullStore.books st) /\ Book.id b <> id)
  /\ (forall R : Book.t -> Book.t -> Prop,
        StronglySorted R (FullStore.books st) ->
        StronglySorted R (FullStore.books st'))
  /\ (forall b, Store.activeBook (FullStore.playback st') = Some b ->
                Store.activeBook (FullStore.playback st) = Some b
                /\ Book.id b <> id)
  /\ (forall b, Store.activeBook (FullStore.playback st) = Some b ->
                Book.id b <> id ->
                FullStore.playback st' = FullStore.playback st)
  /\ FullStore.removeBook id st' = st'.
Proof.
  cbn zeta. destruct st as [pb pv bs se]. destruct pb as [cv abi ab ip ci].
  unfold FullStore.removeBook, FullStore.activeHasId. simpl.
  assert (Hneq : forall b : Book.t,
            negb (string_eqb (Book.id b) id) = true <-> Book.id b <> id).
  { intros b. rewrite negb_true_iff. split.
    - intros Hf Heq. apply string_eqb_eq in Heq. congruence.
    - intros Hne. destruct (string_eqb (Book.id b) id) eqn:He; [|reflexivity].
      apply string_eqb_eq in He. contradiction. }
  split; [|split; [|split; [|split]]].
  - intros b. rewrite filter_In. now rewrite Hneq.
  - intros R. induction 1 as [|b l Hs IH Hall]; simpl; [constructor|].
    destruct (negb (string_eqb (Book.id b) id)); [|exact IH].
    constructor; [exact IH|].
    apply Forall_forall. intros x Hx. apply filter_In in Hx.
    rewrite Forall_forall in Hall. now apply Hall.
  - intros b. destruct ab as [a|]; simpl; [|discriminate].
    destruct (string_eqb (Book.id a) id) eqn:He; simpl; [discriminate|].
    intros Ha. inversion Ha; subst. split; [reflexivity|].
    apply Hneq. now rewrite He.
  - intros b Hb Hne. inversion Hb; subst.
    apply Hneq in Hne. apply negb_true_iff in Hne. now rewrite Hne.
  - f_equal.
    + destruct ab as [a|]; simpl; [|reflexivity].
      destruct (string_eqb (Book.id a) id) eqn:He; simpl; [reflexivity|].
      now rewrite He.
    + induction bs as [|b bs IH]; simpl; [reflexivity|].
      destruct (string_eqb (Book.id b) id) eqn:He; simpl; [exact IH|].
      rewrite He. simpl. now rewrite IH.
Qed.

(** X5. Saved progress is resumed: when [saveSession] runs at a position
    [current] that is not the saved one of the open book [active], every
    book of the list with the identifier of the active book has
    [progressIndex = current] afterwards, so [loadBook] of it resumes at
    [current]; the list has the same identifiers in the same order, and
    the books of another identifier are unchanged; the active book and the
    book handed to the database are the active book with that progress.
    When the position is the saved one already, nothing is written. *)
Theorem saved_progress_is_resumed (current : Z) (active : Book.t)
    (st : FullStore.State) :
  Store.activeBook (FullStore.playback st) = Some active ->
  let st' := fst (Reader.saveSession current st) in
  (current <> Book.progressIndex active ->
     map Book.id (FullStore.books st') = map Book.id (FullStore.books st)
     /\ (forall b, In b (FullStore.books st') -> Book.id b = Book.id active ->
           Book.progressIndex b = current
           /\ forall s, Store.currentIndex (Store.loadBook b s) = current)
     /\ (forall b, In b (FullStore.books st) -> Book.id b <> Book.id active ->
           In b (FullStore.books st'))
     /\ Store.activeBook (FullStore.playback st')
        = Some (FullStore.withProgress current active)
     /\ snd (Reader.saveSession current st)
        = Some (FullStore.withProgress current active))
  /\ (current = Book.progressIndex active ->
        Reader.saveSession current st = (st, None)).
Proof.
  intros Hactive. cbn zeta. unfold Reader.saveSession. rewrite Hactive.
  destruct (Z.eqb_spec current (Book.progressIndex active)) as [Heq | Hne];
    simpl; (split; [intros Hcur | intros Hcur; try reflexivity]);
    try contradiction.
  unfold FullStore.activeHasId. rewrite Hactive, string_eqb_refl. simpl.
  split; [|split; [|split; [|split]]].
  - rewrite map_map. apply map_ext. intros b.
    now destruct (string_eqb (Book.id b) (Book.id active)).
  - intros b Hin Hid. apply in_map_iff in Hin. destruct Hin as [b0 [Hb0 Hin]].
    destruct (string_eqb (Book.id b0) (Book.id active)) eqn:He; subst b.
    + split; [reflexivity|]. intros s. reflexivity.
    + simpl in Hid. rewrite <- Hid, string_eqb_refl in He. discriminate.
  - intros b Hin Hne'. apply in_map_iff. exists b. split; [|exact Hin].
    destruct (string_eqb (Book.id b) (Book.id active)) eqn:He; [|reflexivity].
    apply string_eqb_eq in He. contradiction.
  - reflexivity.
  - reflexivity.
Qed.

(** A store with the book of 100 chunks on the shelf and open at its last
    chunk. *)
Definition shelf100 : FullStore.State :=
  {| FullStore.playback := state100;
     FullStore.previousView := Store.library;
     FullStore.books := [book100];
     FullStore.settings := AppSettings.DEFAULT_SETTINGS |}.

Lemma store_position_stays_valid_witness :
  positionValid
    (FullStore.playback
       (run [LoadBook book100; SetCurrentIndex 500; AdvanceIndex;
             RewindIndex 10; RemoveBook (ofString "b"); RewindIndex 200]
            FullStore.initial)).
Proof.
  apply (proj2 store_position_stays_valid).
  - split; simpl; [lia | discriminate].
  - repeat (apply Forall_cons;
            [first [exact I | vm_compute; split; discriminate
                   | vm_compute; discriminate] |]).
    apply Forall_nil.
Defined.

Lemma playback_runs_to_the_end_witness :
  Store.currentIndex
    (Nat.iter 5 Store.advanceIndex (Store.setCurrentIndex 97 state100)) = 99%Z
  /\ Store.isPlaying
       (Nat.iter 5 Store.advanceIndex (Store.setCurrentIndex 97 state100))
     = false.
Proof.
  destruct (playback_runs_to_the_end book100 5
              (Store.setCurrentIndex 97 state100) eq_refl)
    as [_ [Hi [Hp _]]].
  - vm_compute. split; discriminate.
  - split; [exact Hi | exact Hp].
Defined.

Lemma settings_view_round_trip_witness :
  FullStore.playback
    (FullStore.setView
       (FullStore.previousView
          (Nat.iter 2 (FullStore.setView Store.settings) shelf100))
       (Nat.iter 2 (FullStore.setView Store.settings) shelf100))
  = state100.
Proof.
  destruct (settings_view_round_trip shelf100 1) as [_ [_ [Hp _]]].
  - discriminate.
  - exact Hp.
Defined.

Lemma saved_progress_is_resumed_witness :
  (forall b, In b (FullStore.books (fst (Reader.saveSession 42 shelf100))) ->
             Book.id b = Book.id book100 -> Book.progressIndex b = 42%Z)
  /\ Reader.saveSession 0 shelf100 = (shelf100, None).
Proof.
  destruct (saved_progress_is_resumed 42 book100 shelf100 eq_refl)
    as [Hsave _].
  destruct (saved_progress_is_resumed 0 book100 shelf100 eq_refl)
    as [_ Hsame].
  split; [|exact (Hsame eq_refl)].
  assert (Hne : 42%Z <> Book.progressIndex book100) by (simpl; lia).
  destruct (Hsave Hne) as [_ [Hall _]].
  intros b Hin Hid. exact (proj1 (Hall b Hin Hid)).
Defined.

(* ===================================================================== *)
(** * Further properties: the library *)
(* ===================================================================== *)

Module LibraryFacts.
Import JS Num Regex RsvpUtils ListFacts RegexFacts ChapterFacts Library.

(** What [findIndex] finds: the first element that satisfies the test. *)
Lemma findIndexFrom_found {A : Type} (f : A -> bool) l : forall i,
  findIndexFrom f l i <> (-1)%Z -> (0 <= i)%Z ->
  exists x,
    nth_error l (Z.to_nat (findIndexFrom f l i - i)) = Some x
    /\ f x = true
    /\ forall j y, j < Z.to_nat (findIndexFrom f l i - i) ->
                   nth_error l j = Some y -> f y = false.
Proof.
  induction l as [|a l IH]; intros i Hne Hi; simpl in *; [congruence|].
  destruct (f a) eqn:Hfa.
  - exists a. rewrite Z.sub_diag. simpl. repeat split; auto. intros j y Hj. lia.
  - destruct (IH (i + 1)%Z Hne ltac:(lia)) as [x [Hx [Hfx Hbefore]]].
    destruct (findIndexFrom_range f l (i + 1)%Z) as [Hm | Hr]; [congruence|].
    replace (Z.to_nat (findIndexFrom f l (i + 1) - i))
      with (S (Z.to_nat (findIndexFrom f l (i + 1) - (i + 1)))) by lia.
    exists x. simpl. repeat split; auto.
    intros [|j] y Hj Hy; simpl in Hy.
    + now inversion Hy; subst.
    + apply (Hbefore j y); [lia | exact Hy].
Qed.

Lemma findIndex_found {A : Type} (f : A -> bool) l :
  findIndex f l <> (-1)%Z ->
  (0 <= findIndex f l < Z.of_nat (length l))%Z
  /\ exists x,
       nth_error l (Z.to_nat (findIndex f l)) = Some x
       /\ f x = true
       /\ forall j y, j < Z.to_nat (findIndex f l) ->
                      nth_error l j = Some y -> f y = false.
Proof.
  unfold findIndex. intros Hne. split.
  - destruct (findIndexFrom_range f l 0%Z); [congruence | lia].
  - destruct (findIndexFrom_found f l 0%Z Hne ltac:(lia)) as [x Hx].
    rewrite Z.sub_0_r in Hx. now exists x.
Qed.

(** *** The start of reading *)

(** A pattern that gives no start: it has no match, or no chunk starts at
    or after its first match. *)
Definition givesNoStart (text : jsString) (chunks : list Chunk.t)
    (pattern : regex) : Prop :=
  match exec patternFlags text pattern 0 with
  | None => True
  | Some res =>
      findIndex (fun c => (Z.of_nat (index res) <=? Chunk.start c)%Z) chunks
      = (-1)%Z
  end.

Lemma detectLoop_spec text chunks ps :
  (Forall (givesNoStart text chunks) ps /\ detectLoop text chunks ps = 0%Z)
  \/ exists before pattern after res,
       ps = before ++ pattern :: after
       /\ Forall (givesNoStart text chunks) before
       /\ exec patternFlags text pattern 0 = Some res
       /\ detectLoop text chunks ps
          = findIndex (fun c => (Z.of_nat (index res) <=? Chunk.start c)%Z)
                      chunks
       /\ detectLoop text chunks ps <> (-1)%Z.
Proof.
  induction ps as [|p ps IH]; simpl; [left; split; [constructor | reflexivity]|].
  destruct (exec patternFlags text p 0) as [res|] eqn:He.
  - destruct (Z.eqb_spec
                (findIndex (fun c => (Z.of_nat (index res) <=? Chunk.start c)%Z)
                           chunks) (-1)) as [Hm | Hf]; simpl.
    + destruct IH as [[Hall H0] | [before [q [after [res' H]]]]].
      * left. split; [|exact H0]. constructor; [|exact Hall].
        unfold givesNoStart. now rewrite He.
      * right. destruct H as [Hps [Hb H]]. subst ps.
        exists (p :: before), q, after, res'. split; [reflexivity|].
        split; [|exact H]. constructor; [|exact Hb].
        unfold givesNoStart. now rewrite He.
    + right. exists [], p, ps, res. repeat split; auto.
  - destruct IH as [[Hall H0] | [before [q [after [res' H]]]]].
    + left. split; [|exact H0]. constructor; [|exact Hall].
      unfold givesNoStart. now rewrite He.
    + right. destruct H as [Hps [Hb H]]. subst ps.
      exists (p :: before), q, after, res'. split; [reflexivity|].
      split; [|exact H]. constructor; [|exact Hb].
      unfold givesNoStart. now rewrite He.
Qed.

Lemma detectStartChapterIndex_range text chunks :
  (0 <= detectStartChapterIndex text chunks)%Z
  /\ (detectStartChapterIndex text chunks
      <= Z.max 0 (Z.of_nat (length chunks) - 1))%Z.
Proof.
  unfold detectStartChapterIndex.
  destruct (detectLoop_spec text chunks patterns)
    as [[_ H0] | [before [q [after [res [_ [_ [_ [Heq Hne]]]]]]]]].
  - rewrite H0. lia.
  - rewrite Heq in Hne. rewrite Heq.
    destruct (findIndex_found _ _ Hne) as [Hr _]. lia.
Qed.

(** *** The chapters of a table of contents *)

Lemma insertByChunkIndex_In x y l :
  In y (insertByChunkIndex x l) <-> y = x \/ In y l.
Proof.
  induction l as [|a l IH]; simpl; [intuition|].
  destruct (Chapter.chunkIndex a <? Chapter.chunkIndex x)%Z; simpl;
    rewrite ?IH; intuition.
Qed.

Lemma sortByChunkIndex_In y l : In y (sortByChunkIndex l) <-> In y l.
Proof.
  induction l as [|a l IH]; simpl; [reflexivity|].
  rewrite insertByChunkIndex_In, IH. intuition.
Qed.

Lemma insertByChunkIndex_sorted x l :
  nonDecreasing l -> nonDecreasing (insertByChunkIndex x l).
Proof.
  unfold nonDecreasing. induction 1 as [|a l Hs IH Hall]; simpl.
  - repeat constructor.
  - destruct (Z.ltb_spec (Chapter.chunkIndex a) (Chapter.chunkIndex x)).
    + constructor; [exact IH|].
      apply Forall_forall. intros y Hy. apply insertByChunkIndex_In in Hy.
      rewrite Forall_forall in Hall. destruct Hy as [-> | Hy]; [lia | auto].
    + constructor; [constructor; assumption|].
      constructor; [lia|].
      eapply Forall_impl; [|exact Hall]. simpl. intros; lia.
Qed.

Lemma sortByChunkIndex_sorted l : nonDecreasing (sortByChunkIndex l).
Proof.
  induction l as [|a l IH]; simpl; [constructor|].
  now apply insertByChunkIndex_sorted.
Qed.

(** The sort is stable: the first element of a chunk index is the same
    before and after. *)
Definition firstAt (k : Z) (l : list Chapter.t) : option Chapter.t :=
  find (fun c => (Chapter.chunkIndex c =? k)%Z) l.

Lemma insertByChunkIndex_firstAt k x l :
  nonDecreasing l ->
  firstAt k (insertByChunkIndex x l) = firstAt k (x :: l).
Proof.
  unfold nonDecreasing, firstAt.
  induction 1 as [|a l Hs IH Hall]; simpl; [reflexivity|].
  destruct (Z.ltb_spec (Chapter.chunkIndex a) (Chapter.chunkIndex x)); simpl;
    [|reflexivity].
  rewrite IH. simpl.
  destruct (Z.eqb_spec (Chapter.chunkIndex a) k) as [Ha | Ha];
    destruct (Z.eqb_spec (Chapter.chunkIndex x) k) as [Hx | Hx];
    try reflexivity. lia.
Qed.

Lemma sortByChunkIndex_firstAt k l :
  firstAt k (sortByChunkIndex l) = firstAt k l.
Proof.
  induction l as [|a l IH]; simpl; [reflexivity|].
  rewrite insertByChunkIndex_firstAt by apply sortByChunkIndex_sorted.
  unfold firstAt in *. simpl. now rewrite IH.
Qed.

(** [dropRepeated] is the reduction of runs of [extractChapters]. *)
Lemma dropRepeated_dedupFirst l : forall prev,
  dropRepeated prev l = dedupFirst (option_map Chapter.chunkIndex prev) l.
Proof.
  induction l as [|a l IH]; intros prev; simpl; [reflexivity|].
  destruct prev as [p|]; simpl.
  - rewrite Z.eqb_sym.
    destruct (Z.eqb_spec (Chapter.chunkIndex p) (Chapter.chunkIndex a))
      as [Heq | Hne]; simpl; rewrite IH; simpl; [now rewrite Heq | reflexivity].
  - now rewrite IH.
Qed.

Lemma dedupFirst_In l : forall prev x,
  In x (dedupFirst prev l) -> In x l.
Proof.
  induction l as [|a l IH]; intros prev x; simpl; [auto|].
  destruct prev as [p|]; [destruct (p =? Chapter.chunkIndex a)%Z|]; simpl;
    intros H; [right | destruct H; [left | right] | destruct H; [left | right]];
    eauto.
Qed.

(** In a list that does not decrease, the elements kept are the first ones
    of their chunk index. *)
Lemma dedupFirst_firstAt l : forall prev x,
  nonDecreasing l ->
  Forall (fun a => forall p, prev = Some p -> (p <= Chapter.chunkIndex a)%Z) l ->
  In x (dedupFirst prev l) ->
  firstAt (Chapter.chunkIndex x) l = Some x
  /\ (forall p, prev = Some p -> (p < Chapter.chunkIndex x)%Z).
Proof.
  unfold nonDecreasing, firstAt.
  induction l as [|a l IH]; intros prev x Hs Hlo Hin; simpl in *; [contradiction|].
  inversion Hs as [|? ? Hs' Hall]; subst. inversion Hlo as [|? ? Ha Hlo']; subst.
  assert (Hnext : Forall (fun b => forall p, Some (Chapter.chunkIndex a) = Some p ->
                                             (p <= Chapter.chunkIndex b)%Z) l).
  { eapply Forall_impl; [|exact Hall]. simpl. intros b Hb p Hp.
    inversion Hp; subst. exact Hb. }
  assert (Hkeep : In x (a :: dedupFirst (Some (Chapter.chunkIndex a)) l) ->
            (if (Chapter.chunkIndex a =? Chapter.chunkIndex x)%Z
             then Some a
             else find (fun c => (Chapter.chunkIndex c =? Chapter.chunkIndex x)%Z) l)
            = Some x
            /\ (forall p, prev = Some p -> (p <= Chapter.chunkIndex a)%Z ->
                          (p < Chapter.chunkIndex a)%Z ->
                          (p < Chapter.chunkIndex x)%Z)).
  { intros [-> | Hx].
    - rewrite Z.eqb_refl. split; [reflexivity | auto].
    - destruct (IH _ _ Hs' Hnext Hx) as [Hf Hgt].
      specialize (Hgt _ eq_refl).
      rewrite (proj2 (Z.eqb_neq _ _)) by lia.
      split; [exact Hf|]. intros; lia. }
  destruct prev as [p|].
  - specialize (Ha p eq_refl).
    destruct (Z.eqb_spec p (Chapter.chunkIndex a)) as [Heq | Hne].
    + destruct (IH (Some p) x Hs' Hlo' Hin) as [Hf Hgt].
      specialize (Hgt p eq_refl).
      rewrite (proj2 (Z.eqb_neq _ _)) by lia.
      split; [exact Hf|]. intros q Hq. inversion Hq; subst. exact Hgt.
    + destruct (Hkeep Hin) as [Hf Hgt]. split; [exact Hf|].
      intros q Hq. inversion Hq; subst. apply Hgt; auto; lia.
  - destruct (Hkeep Hin) as [Hf _]. split; [exact Hf|]. discriminate.
Qed.

(** Every chunk index of the list is kept, or is the one before the list. *)
Lemma dedupFirst_covers l : forall prev x,
  In x l ->
  (exists y, In y (dedupFirst prev l)
             /\ Chapter.chunkIndex y = Chapter.chunkIndex x)
  \/ prev = Some (Chapter.chunkIndex x).
Proof.
  induction l as [|a l IH]; intros prev x Hin; [contradiction|].
  assert (Hkeep :
    (exists y, In y (a :: dedupFirst (Some (Chapter.chunkIndex a)) l)
               /\ Chapter.chunkIndex y = Chapter.chunkIndex x)).
  { destruct Hin as [-> | Hin].
    - exists x. split; [now left | reflexivity].
    - destruct (IH (Some (Chapter.chunkIndex a)) x Hin) as [[y [Hy Hi]] | Hp].
      + exists y. split; [now right | exact Hi].
      + assert (Hidx : Chapter.chunkIndex a = Chapter.chunkIndex x)
          by congruence.
        exists a. split; [now left | exact Hidx]. }
  simpl. destruct prev as [p|]; [|now left].
  destruct (Z.eqb_spec p (Chapter.chunkIndex a)) as [Heq | Hne]; [|now left].
  destruct Hin as [-> | Hin]; [right; now rewrite Heq|].
  apply IH. exact Hin.
Qed.

(** The chapter list made from a table of contents with an entry. *)
Lemma tocChapters_eq (text : jsString) (chunks : list Chunk.t)
    (toc : list Library.TocItem.t) :
  toc <> [] ->
  Library.bookChapters text chunks (Some toc)
  = Some (dedupFirst None
            (Library.sortByChunkIndex (map (Library.tocChapter chunks) toc)))
  /\ dedupFirst None
       (Library.sortByChunkIndex (map (Library.tocChapter chunks) toc)) <> [].
Proof.
  intros Htoc.
  set (sorted := Library.sortByChunkIndex (map (Library.tocChapter chunks) toc)).
  assert (Hne : dedupFirst None sorted <> []).
  { destruct toc as [|item toc]; [congruence|].
    destruct (dedupFirst_covers sorted None (Library.tocChapter chunks item))
      as [[y [Hy _]] | Hp]; [|intros Hnil; rewrite Hnil in Hy; exact Hy
                             |discriminate].
    apply sortByChunkIndex_In. now left. }
  split; [|exact Hne].
  unfold Library.bookChapters.
  destruct toc as [|item toc]; [congruence|].
  change (0 <? length (item :: toc)) with true. cbv iota.
  rewrite dropRepeated_dedupFirst. simpl option_map. fold sorted.
  destruct (dedupFirst None sorted); [congruence | reflexivity].
Qed.

(** The chunk index of the chapter of an entry. *)
Lemma tocChapter_range chunks item :
  (0 <= Chapter.chunkIndex (Library.tocChapter chunks item)
   <= Z.max 0 (Z.of_nat (length chunks) - 1))%Z.
Proof.
  unfold Library.tocChapter. simpl.
  destruct (Z.eqb_spec
              (findIndex (fun c => (Library.TocItem.offset item
                                    <=? Chunk.start c)%Z) chunks) (-1))
    as [Hm | Hf]; [lia|].
  destruct (findIndex_found _ _ Hf) as [Hr _]. lia.
Qed.

End LibraryFacts.

Import LibraryFacts.

(** X6. The start of reading: [detectStartChapterIndex] returns a valid
    chunk index (0 for an empty chunk list). Either no pattern gives a start
    (it has no match, or no chunk starts at or after its first match) and
    the result is 0; or the result is the index of the first chunk that
    starts at or after the first match of the first pattern that gives a
    start, the patterns being tried in the order chapter/part one, prologue,
    introduction. *)
Theorem start_of_reading_follows_first_heading (text : jsString)
    (chunks : list Chunk.t) :
  let r := Library.detectStartChapterIndex text chunks in
  (0 <= r <= Z.max 0 (Z.of_nat (length chunks) - 1))%Z
  /\ ((Forall (givesNoStart text chunks) Library.patterns /\ r = 0%Z)
      \/ exists before pattern after res c,
           Library.patterns = before ++ pattern :: after
           /\ Forall (givesNoStart text chunks) before
           /\ exec Library.patternFlags text pattern 0 = Some res
           /\ nth_error chunks (Z.to_nat r) = Some c
           /\ (Z.of_nat (index res) <= Chunk.start c)%Z
           /\ forall j c', j < Z.to_nat r -> nth_error chunks j = Some c' ->
                           (Chunk.start c' < Z.of_nat (index res))%Z).
Proof.
  cbn zeta. split; [apply detectStartChapterIndex_range|].
  unfold Library.detectStartChapterIndex.
  destruct (detectLoop_spec text chunks Library.patterns)
    as [H0 | [before [q [after [res [Hps [Hb [He [Heq Hne]]]]]]]]];
    [now left | right].
  rewrite Heq in Hne. destruct (findIndex_found _ _ Hne) as [_ [c [Hc [Hf Hbefore]]]].
  exists before, q, after, res, c. rewrite Heq.
  repeat split; auto.
  - now apply Z.leb_le.
  - intros j c' Hj Hc'. specialize (Hbefore j c' Hj Hc').
    now apply Z.leb_gt.
Qed.

(** X7. The chapters of a table of contents: for a table with an entry
    [bookChapters] returns a list that is not empty and strictly increases
    in [chunkIndex]; every chapter points at a chunk (at 0 for an empty
    chunk list) and is the chapter of the first entry of the table, in the
    order of the table, that resolves to its chunk; and the chunk of every
    entry has a chapter. *)
Theorem toc_chapters_sorted_without_repeats (text : jsString)
    (chunks : list Chunk.t) (toc : list Library.TocItem.t) :
  toc <> [] ->
  exists chapters,
    Library.bookChapters text chunks (Some toc) = Some chapters
    /\ chapters <> []
    /\ StronglySorted
         (fun a b => (Chapter.chunkIndex a < Chapter.chunkIndex b)%Z) chapters
    /\ (forall ch, In ch chapters ->
          (0 <= Chapter.chunkIndex ch
           <= Z.max 0 (Z.of_nat (length chunks) - 1))%Z
          /\ firstAt (Chapter.chunkIndex ch)
                     (map (Library.tocChapter chunks) toc) = Some ch)
    /\ (forall item, In item toc ->
          exists ch, In ch chapters
                     /\ Chapter.chunkIndex ch
                        = Chapter.chunkIndex (Library.tocChapter chunks item)).
Proof.
  intros Htoc.
  destruct (tocChapters_eq text chunks toc Htoc) as [Heq Hne].
  set (sorted := Library.sortByChunkIndex (map (Library.tocChapter chunks) toc))
    in *.
  assert (Hsorted : ChapterFacts.nonDecreasing sorted)
    by apply sortByChunkIndex_sorted.
  assert (Hnone : Forall (fun a : Chapter.t =>
                            forall p : Z, @None Z = Some p ->
                                          (p <= Chapter.chunkIndex a)%Z) sorted)
    by (apply Forall_forall; intros a _ p Hp; discriminate).
  exists (ChapterFacts.dedupFirst None sorted).
  split; [exact Heq|]. split; [exact Hne|]. split; [|split].
  - apply (ChapterFacts.dedupFirst_increasing sorted None Hsorted Hnone).
  - intros ch Hin. split.
    + apply dedupFirst_In, sortByChunkIndex_In, in_map_iff in Hin.
      destruct Hin as [item [<- _]]. apply tocChapter_range.
    + destruct (dedupFirst_firstAt sorted None ch Hsorted Hnone Hin) as [Hf _].
      unfold sorted in Hf. now rewrite sortByChunkIndex_firstAt in Hf.
  - intros item Hin.
    destruct (dedupFirst_covers sorted None (Library.tocChapter chunks item))
      as [H | Hp]; [|exact H|discriminate].
    apply sortByChunkIndex_In, in_map. exact Hin.
Qed.

Lemma toc_chapters_sorted_without_repeats_witness :
  exists chapters,
    Library.bookChapters cityText cityChunks
      (Some [ {| Library.TocItem.title := ofString "Two";
                 Library.TocItem.offset := 9 |};
              {| Library.TocItem.title := ofString "One";
                 Library.TocItem.offset := 0 |};
              {| Library.TocItem.title := ofString "Two again";
                 Library.TocItem.offset := 9 |} ])
    = Some chapters
    /\ chapters <> []
    /\ StronglySorted
         (fun a b => (Chapter.chunkIndex a < Chapter.chunkIndex b)%Z) chapters.
Proof.
  destruct (toc_chapters_sorted_without_repeats cityText cityChunks
              [ {| Library.TocItem.title := ofString "Two";
                   Library.TocItem.offset := 9 |};
                {| Library.TocItem.title := ofString "One";
                   Library.TocItem.offset := 0 |};
                {| Library.TocItem.title := ofString "Two again";
                   Library.TocItem.offset := 9 |} ])
    as [chapters [Heq [Hne [Hs _]]]].
  - discriminate.
  - exists chapters. repeat split; assumption.
Defined.

Example toc_chapters_computed :
  option_map (map (fun ch => (Chapter.title ch, Chapter.chunkIndex ch)))
    (Library.bookChapters cityText cityChunks
       (Some [ {| Library.TocItem.title := ofString "Two";
                  Library.TocItem.offset := 9 |};
               {| Library.TocItem.title := ofString "One";
                  Library.TocItem.offset := 0 |};
               {| Library.TocItem.title := ofString "Two again";
                  Library.TocItem.offset := 9 |} ]))
  = Some [(ofString "One", 0%Z); (ofString "Two", 2%Z)].
Proof. vm_compute. reflexivity. Qed.

Module UploadFacts.
Import JS Num Regex RsvpUtils ListFacts RegexFacts ChapterFacts ChunkerFacts.
Import LibraryFacts.

Lemma trimStart_white s : forallb isWhiteSpace s = true -> trimStart s = [].
Proof.
  induction s as [|c s IH]; simpl; [reflexivity|].
  intros H. apply andb_prop in H. destruct H as [Hc Hs]. rewrite Hc. auto.
Qed.

Lemma trim_white s : forallb isWhiteSpace s = true -> trim s = [].
Proof. intros H. unfold trim. now rewrite (trimStart_white s H). Qed.

(** A text with content has a chunk. *)
Lemma chunker_nonempty text :
  trim text <> [] ->
  exists chunks, algorithmicChunker text = Some chunks /\ chunks <> [].
Proof.
  intros Htrim.
  destruct (algorithmicChunker_eq text) as [rs [Hrs Heq]].
  exists (map (chunkOf) rs). split; [exact Heq|]. intros Hnil.
  destruct (matchSeq_chunks text 0 rs Hrs ltac:(lia)) as [_ [_ Hc]].
  rewrite Hnil in Hc. simpl in Hc. apply Htrim, trim_white.
  symmetry in Hc. clear -Hc. induction text as [|c text IH]; [reflexivity|].
  simpl in *. unfold isNonSpace in Hc at 1.
  destruct (isWhiteSpace c); simpl in *; [auto | discriminate].
Qed.

(** The chapters of [extractChapters] point at chunks. *)
Lemma extractChapters_wellFormed text chunks :
  chunks <> [] ->
  exists chapters,
    extractChapters text chunks = Some chapters
    /\ chapters <> []
    /\ increasing chapters
    /\ Forall (fun ch => (0 <= Chapter.chunkIndex ch
                          < Z.of_nat (length chunks))%Z) chapters.
Proof.
  intros Hchunks.
  destruct (extractChapters_eq text chunks) as [rs [_ [Hrs Heq]]].
  eexists. split; [exact Heq|].
  destruct (matchSeq_indices text chapterRe chapterFlags 0 rs
              chapterRe_consumes Hrs) as [_ Hsorted].
  destruct (resolvedMarkers_nonDecreasing chunks rs Hsorted) as [Hnd _].
  destruct (dedupFirst_increasing (resolvedMarkers chunks rs) None Hnd)
    as [Hinc _]; [apply Forall_forall; intros a _ p Hp; discriminate|].
  assert (Hrange : Forall (fun ch => (0 <= Chapter.chunkIndex ch
                                      < Z.of_nat (length chunks))%Z)
                          (dedupFirst None (resolvedMarkers chunks rs))).
  { apply Forall_forall. intros ch Hin.
    apply dedupFirst_In in Hin. unfold resolvedMarkers in Hin.
    apply in_map_iff in Hin. destruct Hin as [res [<- Hres]].
    apply filter_In in Hres. destruct Hres as [_ Hres].
    apply negb_true_iff, Z.eqb_neq in Hres. simpl.
    unfold resolveIndex in *. now destruct (findIndex_found _ _ Hres). }
  destruct (dedupFirst None (resolvedMarkers chunks rs)) as [|ch l] eqn:Hd.
  - split; [discriminate|]. split; [repeat constructor|].
    constructor; [|constructor]. simpl.
    destruct chunks; [congruence | simpl; lia].
  - split; [discriminate|]. split; assumption.
Qed.

End UploadFacts.

(** X8. An uploaded book is well formed. A text that is empty or blank is
    refused with the error. For any other text the book has the text as
    content and the chunks of [algorithmicChunker], one at least; its
    [progressIndex] is the index of one of its chunks; its chapter list is
    not empty, strictly increases in [chunkIndex] and points at chunks of
    the book only, whether it comes from a table of contents or from the
    headings; so opening the book gives a valid position and a jump to a
    chapter lands on the chunk of the chapter. *)
Theorem uploaded_book_is_well_formed (id fileName : jsString)
    (metaTitle : option jsString) (text : jsString)
    (epubToc : option (list Library.TocItem.t)) :
  (trim text = [] ->
   exists message,
     Library.newBook id fileName metaTitle text epubToc = Some (inl message))
  /\ (trim text <> [] ->
      exists book chapters,
        Library.newBook id fileName metaTitle text epubToc = Some (inr book)
        /\ Book.id book = id /\ Book.content book = text
        /\ algorithmicChunker text = Some (Book.chunks book)
        /\ Book.chunks book <> []
        /\ (0 <= Book.progressIndex book < Store.chunksLength book)%Z
        /\ Book.chapters book = Some chapters
        /\ chapters <> []
        /\ StronglySorted
             (fun a b => (Chapter.chunkIndex a < Chapter.chunkIndex b)%Z)
             chapters
        /\ Forall (fun ch => (0 <= Chapter.chunkIndex ch
                              < Store.chunksLength book)%Z) chapters
        /\ (forall st,
              StoreFacts.positionValid (Store.loadBook book st)
              /\ forall ch, In ch chapters ->
                   Store.currentIndex
                     (Store.setCurrentIndex (Chapter.chunkIndex ch)
                        (Store.loadBook book st))
                   = Chapter.chunkIndex ch)).
Proof.
  split.
  - intros Hblank. eexists. unfold Library.newBook. rewrite Hblank. simpl.
    now rewrite orb_true_r.
  - intros Hcontent.
    destruct (UploadFacts.chunker_nonempty text Hcontent)
      as [chunks [Hchunks Hne]].
    assert (Hlen : (1 <= Z.of_nat (length chunks))%Z)
      by (destruct chunks; [congruence | simpl; lia]).
    assert (Hchapters : exists chapters,
      Library.bookChapters text chunks epubToc = Some chapters
      /\ chapters <> []
      /\ StronglySorted
           (fun a b => (Chapter.chunkIndex a < Chapter.chunkIndex b)%Z) chapters
      /\ Forall (fun ch => (0 <= Chapter.chunkIndex ch
                            < Z.of_nat (length chunks))%Z) chapters).
    { assert (Hheadings : exists chapters,
        extractChapters text chunks = Some chapters
        /\ chapters <> []
        /\ StronglySorted
             (fun a b => (Chapter.chunkIndex a < Chapter.chunkIndex b)%Z)
             chapters
        /\ Forall (fun ch => (0 <= Chapter.chunkIndex ch
                              < Z.of_nat (length chunks))%Z) chapters)
        by (apply UploadFacts.extractChapters_wellFormed; exact Hne).
      destruct epubToc as [[|item toc]|]; try exact Hheadings.
      destruct (tocChapters_eq text chunks (item :: toc)) as [Heq Hn];
        [discriminate|].
      eexists. split; [exact Heq|]. split; [exact Hn|]. split.
      - apply (ChapterFacts.dedupFirst_increasing _ None
                 (sortByChunkIndex_sorted _)).
        apply Forall_forall. intros a _ p Hp. discriminate.
      - apply Forall_forall. intros ch Hin.
        apply dedupFirst_In, sortByChunkIndex_In, in_map_iff in Hin.
        destruct Hin as [it [<- _]].
        pose proof (tocChapter_range chunks it). lia. }
    destruct Hchapters as [chapters [Hbc [Hcn [Hcs Hcr]]]].
    pose proof (detectStartChapterIndex_range text chunks) as Hstart.
    exists {| Book.id := id;
              Book.title := Library.bookTitle fileName metaTitle;
              Book.content := text;
              Book.chunks := chunks;
              Book.chapters := Some chapters;
              Book.progressIndex := Library.detectStartChapterIndex text chunks |}.
    exists chapters. unfold Library.newBook.
    assert (Hguard : ((length text =? 0) || (length (trim text) =? 0))%bool
                     = false).
    { apply orb_false_iff. split; apply Nat.eqb_neq; intros H0.
      - apply length_zero_iff_nil in H0. subst text. now apply Hcontent.
      - apply length_zero_iff_nil in H0. now apply Hcontent. }
    rewrite Hguard, Hchunks, Hbc.
    unfold StoreFacts.positionValid, StoreFacts.lastPosition,
      Store.setCurrentIndex, Store.chunksLength. simpl.
    repeat split; auto; try lia.
    + intros b Hb. inversion Hb; subst. simpl. lia.
    + intros ch Hin. rewrite Forall_forall in Hcr. specialize (Hcr ch Hin).
      lia.
Qed.

(** A text file of two lines, the second one a heading. *)
Example uploaded_book_computed :
  match Library.newBook (ofString "id-1") (ofString "tale.final.txt") None
          headedText None with
  | Some (inr book) =>
      Some (Book.title book, length (Book.chunks book),
            Book.progressIndex book,
            option_map (map Chapter.chunkIndex) (Book.chapters book))
  | _ => None
  end = Some (ofString "tale.final", 5, 1%Z, Some [1%Z]).
Proof. vm_compute. reflexivity. Qed.

Module TitleFacts.
Import JS Regex RsvpUtils ListFacts RegexFacts Library.

(** The characters of an extension after its dot. *)
Definition extensionChar (c : char) : bool :=
  negb (N.eqb c 47 || N.eqb c 46)%bool.

(** A run of characters of a class is a match of its starred class. *)
Lemma star_class_run fl input g p : forall n i,
  i + n <= length input ->
  (forall k x, i <= k < i + n -> nth_error input k = Some x ->
               classMatches fl p x = true) ->
  matches fl input (Star g (Class p)) (init i) (init (i + n)).
Proof.
  induction n as [|n IH]; intros i Hlen Hall.
  - rewrite Nat.add_0_r. apply M_Star0.
  - destruct (nth_error input i) as [x|] eqn:Hx;
      [|apply nth_error_None in Hx; lia].
    apply M_StarS with (s1 := init (S i)).
    + change (init (S i)) with (advance (init i)).
      eapply M_Class; [exact Hx|]. apply (Hall i x); [lia | exact Hx].
    + simpl. lia.
    + replace (i + S n) with (S i + n) by lia.
      apply IH; [lia|]. intros k y Hk Hy. apply (Hall k y); [lia | exact Hy].
Qed.

(** A match of the extension pattern at [j]: a dot at [j] and extension
    characters from there to the end, one at least. *)
Lemma extension_match fileName j s' :
  matches noFlags fileName extensionRe (init j) s' ->
  pos s' = length fileName
  /\ nth_error fileName j = Some 46%N
  /\ S j < length fileName
  /\ forallb extensionChar (skipn (S j) fileName) = true.
Proof.
  intros Hm. unfold extensionRe in Hm.
  inversion Hm; subst; clear Hm.
  match goal with
  | H : matches _ _ (Lit _) _ _ |- _ => inversion H; subst; clear H
  end.
  match goal with
  | H : litMatches _ _ _ = true |- _ =>
      unfold litMatches in H; simpl in H; apply N.eqb_eq in H; subst
  end.
  match goal with
  | H : matches _ _ (Seq _ Eol) _ _ |- _ => inversion H; subst; clear H
  end.
  match goal with
  | H : matches _ _ Eol _ _ |- _ => inversion H; subst; clear H
  end.
  match goal with
  | H : atEol _ _ _ = true |- _ =>
      unfold atEol in H; simpl in H; rename H into Hat
  end.
  match goal with
  | H : matches _ _ (Plus _) _ _ |- _ => rename H into Hplus
  end.
  match goal with
  | H : nth_error fileName _ = Some _ |- _ => simpl in H; rename H into Hdot
  end.
  destruct (Nat.eqb_spec (pos s') (length fileName)) as [Hend | Hnot];
    [|discriminate].
  assert (Hc : consumes (Plus (Class extensionChar)) = true) by reflexivity.
  pose proof (consumes_progress _ _ _ _ _ Hplus Hc) as Hlt. simpl in Hlt.
  assert (Ha : atomsIn noFlags (fun c => extensionChar c)
                       (Plus (Class extensionChar))).
  { simpl. split; intros x Hx; exact Hx. }
  pose proof (matches_span _ _ _ _ _ _ Hplus Ha) as Hspan. simpl in Hspan.
  repeat split; auto; try lia.
  apply forallb_nth. intros k Hk. rewrite length_skipn in Hk.
  rewrite nth_error_skipn. apply Hspan. lia.
Qed.

(** The converse: such a suffix is matched. *)
Lemma extension_found fileName j :
  nth_error fileName j = Some 46%N ->
  S j < length fileName ->
  forallb extensionChar (skipn (S j) fileName) = true ->
  exists s', matches noFlags fileName extensionRe (init j) s'.
Proof.
  intros Hdot Hlen Hall.
  exists (init (length fileName)). unfold extensionRe.
  apply M_Seq with (s1 := init (S j)).
  - change (init (S j)) with (advance (init j)).
    eapply M_Lit; [exact Hdot | reflexivity].
  - apply M_Seq with (s1 := init (length fileName)); [|apply M_Eol].
    + assert (Hrun : forall k x, S j <= k -> nth_error fileName k = Some x ->
                                 extensionChar x = true).
      { intros k x Hk Hx. rewrite forallb_forall in Hall. apply Hall.
        replace k with (S j + (k - S j)) in Hx by lia.
        rewrite <- nth_error_skipn in Hx. eapply nth_error_In; eauto. }
      destruct (nth_error fileName (S j)) as [x|] eqn:Hx;
        [|apply nth_error_None in Hx; lia].
      unfold Plus. apply M_Seq with (s1 := init (S (S j))).
      * change (init (S (S j))) with (advance (init (S j))).
        eapply M_Class; [exact Hx|]. apply (Hrun (S j) x); [lia | exact Hx].
      * pose proof (star_class_run noFlags fileName true extensionChar
                      (length fileName - S (S j)) (S (S j))) as Hstar.
        unfold char in *.
        replace (S (S j) + (length fileName - S (S j)))
          with (length fileName) in Hstar by lia.
        apply Hstar; [lia|].
        intros k y Hk Hy. apply (Hrun k y); [lia | exact Hy].
    + unfold atEol. simpl. now rewrite Nat.eqb_refl.
Qed.

End TitleFacts.

(** X9. The title of a book. The title of the metadata, trimmed, is taken
    when it is not blank. Otherwise the title is the file name without its
    extension: the file name is the title followed by an extension, which is
    a dot and one or more characters other than [.] and [/], up to the end
    of the name; and when the file name has no such ending the title is the
    whole file name. *)
Theorem book_title_drops_the_extension (fileName : jsString)
    (metaTitle : option jsString) :
  (forall title, metaTitle = Some title -> trim title <> [] ->
                 Library.bookTitle fileName metaTitle = trim title)
  /\ ((forall title, metaTitle = Some title -> trim title = []) ->
      exists ext,
        fileName = Library.bookTitle fileName metaTitle ++ ext
        /\ ((exists rest, ext = 46%N :: rest /\ rest <> []
                          /\ forallb TitleFacts.extensionChar rest = true)
            \/ (ext = []
                /\ forall stem rest,
                     fileName = stem ++ 46%N :: rest -> rest <> [] ->
                     forallb TitleFacts.extensionChar rest = false))).
Proof.
  split.
  - intros title -> Hne. unfold Library.bookTitle.
    assert (Hl : (0 <? length (trim title)) = true)
      by (apply Nat.ltb_lt; destruct (trim title); [congruence | simpl; lia]).
    assert (Ht : (0 <? length title) = true).
    { apply Nat.ltb_lt. destruct title; [now contradiction Hne | simpl; lia]. }
    now rewrite Hl, Ht.
  - intros Hblank.
    assert (Htitle : Library.bookTitle fileName metaTitle
                     = Library.replaceFirst noFlags fileName
                         Library.extensionRe []).
    { unfold Library.bookTitle. destruct metaTitle as [title|]; [|reflexivity].
      rewrite (Hblank title eq_refl). simpl. now rewrite andb_false_r. }
    rewrite Htitle. unfold Library.replaceFirst.
    destruct (exec noFlags fileName Library.extensionRe 0) as [res|] eqn:He.
    + apply RegexFacts.exec_Some in He.
      destruct He as [j [s' [Hj [_ [Hat Hres]]]]]. subst res. simpl.
      apply RegexFacts.matchAt_sound in Hat.
      destruct (TitleFacts.extension_match fileName j s' Hat)
        as [Hend [Hdot [Hlen Hall]]].
      rewrite Hend, skipn_all, app_nil_r.
      exists (skipn j fileName). split; [now rewrite firstn_skipn|].
      left. exists (skipn (S j) fileName).
      split; [|split; [|exact Hall]].
      * clear -Hdot. revert j Hdot.
        induction fileName as [|c l IH]; intros [|j] Hdot; simpl in *;
          try discriminate.
        -- now inversion Hdot.
        -- now apply IH.
      * intros Hnil. apply (f_equal (@length char)) in Hnil.
        rewrite length_skipn in Hnil. simpl in Hnil. lia.
    + exists []. split; [now rewrite app_nil_r|]. right.
      split; [reflexivity|]. intros stem rest Hname Hrest.
      destruct (forallb TitleFacts.extensionChar rest) eqn:Hall;
        [exfalso | reflexivity].
      pose proof (RegexFacts.exec_None _ _ _ _ He (length stem)) as Hnone.
      assert (Hlen : length fileName = length stem + S (length rest))
        by (rewrite Hname, length_app; reflexivity).
      destruct (TitleFacts.extension_found fileName (length stem))
        as [s' Hm].
      * rewrite Hname, nth_error_app2, Nat.sub_diag by lia. reflexivity.
      * unfold jsString, char in *.
        destruct rest; [congruence | simpl in Hlen; lia].
      * rewrite Hname.
        replace (S (length stem)) with (length (stem ++ [46%N]))
          by (rewrite length_app; simpl; lia).
        replace (stem ++ 46%N :: rest) with ((stem ++ [46%N]) ++ rest)
          by (now rewrite <- app_assoc).
        now rewrite skipn_app, skipn_all, Nat.sub_diag.
      * eapply RegexFacts.matchAt_complete; [apply Hnone; lia | exact Hm].
Qed.

(* ===================================================================== *)
(** * Further properties: the reader *)
(* ===================================================================== *)

Module CacheFacts.
Import JS Num NumOps RsvpUtils Reader.

Lemma Map_get_set_same k v m : Map_get k (Map_set k v m) = Some v.
Proof.
  induction m as [|[k' v'] m IH]; simpl.
  - now rewrite Z.eqb_refl.
  - destruct (Z.eqb_spec k k') as [Heq | Hne]; simpl.
    + now rewrite Z.eqb_refl.
    + rewrite (proj2 (Z.eqb_neq k k') Hne). exact IH.
Qed.

Lemma Map_get_set_other k k' v m :
  k' <> k -> Map_get k' (Map_set k v m) = Map_get k' m.
Proof.
  intros Hne. induction m as [|[k0 v0] m IH]; simpl.
  - now rewrite (proj2 (Z.eqb_neq k' k) Hne).
  - destruct (Z.eqb_spec k k0) as [Heq | Hne0]; simpl.
    + subst k0. now rewrite (proj2 (Z.eqb_neq k' k) Hne).
    + destruct (k' =? k0)%Z; [reflexivity | exact IH].
Qed.

(** Every entry of the cache is what the effect computes for the chunk at
    its index, at the pacing rate [wpm]. *)
Definition coherent (chunks : list Chunk.t) (wpm : number) (cache : Cache)
  : Prop :=
  forall k e, Map_get k cache = Some e ->
              exists chunk, chunkAt chunks k = Some chunk
                            /\ e = prepare chunk wpm.

Lemma coherent_empty chunks wpm : coherent chunks wpm [].
Proof. intros k e H. discriminate. Qed.

Lemma chunkAt_in_range chunks k :
  (0 <= k < Z.of_nat (length chunks))%Z ->
  exists chunk, chunkAt chunks k = Some chunk.
Proof.
  intros Hk. unfold chunkAt. rewrite (proj2 (Z.ltb_ge k 0)) by lia.
  destruct (nth_error chunks (Z.to_nat k)) as [c|] eqn:Hc; [now exists c|].
  apply nth_error_None in Hc. lia.
Qed.

Lemma preloadLoop_spec chunks wpm currentIndex : forall n i cache,
  (0 <= currentIndex + i)%Z ->
  coherent chunks wpm cache ->
  exists cache',
    preloadLoop chunks wpm currentIndex i n cache = Some cache'
    /\ coherent chunks wpm cache'
    /\ (forall k e, Map_get k cache = Some e -> Map_get k cache' = Some e)
    /\ (forall k, (currentIndex + i <= k < currentIndex + i + Z.of_nat n)%Z ->
                  (k < Z.of_nat (length chunks))%Z ->
                  Map_has k cache' = true).
Proof.
  induction n as [|n IH]; intros i cache Hi Hco.
  - exists cache. simpl. repeat split; auto. intros k Hk. lia.
  - cbn [preloadLoop]. cbv zeta.
    destruct (Z.leb_spec (Z.of_nat (length chunks)) (currentIndex + i))
      as [Hend | Hin].
    + exists cache. repeat split; auto. intros k Hk Hlen. lia.
    + destruct (Map_has (currentIndex + i) cache) eqn:Hhas; simpl.
      * destruct (IH (i + 1)%Z cache ltac:(lia) Hco)
          as [cache' [Heq [Hco' [Hkeep Hfill]]]].
        exists cache'. repeat split; auto.
        intros k Hk Hlen.
        destruct (Z.eq_dec k (currentIndex + i)) as [-> | Hne].
        -- unfold Map_has in *.
           destruct (Map_get (currentIndex + i) cache) as [e|] eqn:Hg;
             [|discriminate].
           now rewrite (Hkeep _ _ Hg).
        -- apply Hfill; lia.
      * destruct (chunkAt_in_range chunks (currentIndex + i) ltac:(lia))
          as [chunk Hchunk].
        rewrite Hchunk.
        set (cache1 := Map_set (currentIndex + i) (prepare chunk wpm) cache).
        assert (Hco1 : coherent chunks wpm cache1).
        { intros k e Hg. unfold cache1 in Hg.
          destruct (Z.eq_dec k (currentIndex + i)) as [-> | Hne].
          - rewrite Map_get_set_same in Hg. inversion Hg; subst.
            now exists chunk.
          - rewrite Map_get_set_other in Hg by exact Hne. now apply Hco. }
        destruct (IH (i + 1)%Z cache1 ltac:(lia) Hco1)
          as [cache' [Heq [Hco' [Hkeep Hfill]]]].
        exists cache'. repeat split; auto.
        -- intros k e Hg. apply Hkeep. unfold cache1.
           rewrite Map_get_set_other; [exact Hg|].
           intros ->. unfold Map_has in Hhas. now rewrite Hg in Hhas.
        -- intros k Hk Hlen.
           destruct (Z.eq_dec k (currentIndex + i)) as [-> | Hne].
           ++ unfold Map_has.
              now rewrite (Hkeep _ _ (Map_get_set_same _ _ _)).
           ++ apply Hfill; lia.
Qed.

(** At a negative index without an entry the loop reads [undefined]. *)
Lemma preloadLoop_undefined chunks wpm currentIndex i n cache :
  (currentIndex + i < 0)%Z ->
  Map_has (currentIndex + i) cache = false ->
  preloadLoop chunks wpm currentIndex i (S n) cache = None.
Proof.
  intros Hneg Hhas. cbn [preloadLoop]. cbv zeta. rewrite Hhas.
  rewrite (proj2 (Z.leb_gt _ _)) by lia. simpl.
  unfold chunkAt. now rewrite (proj2 (Z.ltb_lt _ _) Hneg).
Qed.


End CacheFacts.

Import CacheFacts.

(** X10. The lookahead cache is an optimisation only. Run at a position
    that is not negative on a cache whose entries are right for the chunks
    of the book and the pacing rate, the pre-calculation effect ends without
    an error; the entries are right afterwards, none of the earlier ones is
    lost or changed, and every chunk of the window of 50 from the position
    has its entry; the delay [animate] then waits for at any index of the
    book is [calculateChunkDelay] of the chunk there. At a negative position
    that has no entry the effect reads a field of [undefined]. *)
Theorem lookahead_cache_is_an_optimisation (book : Book.t)
    (wpm : Num.number) (currentIndex : Z) (cache : Reader.Cache) :
  ((0 <= currentIndex)%Z ->
   coherent (Book.chunks book) wpm cache ->
   exists cache',
     Reader.preload (Some book) wpm currentIndex cache = Some cache'
     /\ coherent (Book.chunks book) wpm cache'
     /\ (forall k e, Reader.Map_get k cache = Some e ->
                     Reader.Map_get k cache' = Some e)
     /\ (forall k, (currentIndex <= k < currentIndex + 50)%Z ->
                   (k < Store.chunksLength book)%Z ->
                   exists chunk,
                     Reader.chunkAt (Book.chunks book) k = Some chunk
                     /\ Reader.Map_get k cache'
                        = Some (Reader.prepare chunk wpm))
     /\ (forall refs chunk,
           Reader.preparedCacheRef refs = cache' ->
           Reader.chunkAt (Book.chunks book) (Reader.currentIndexRef refs)
           = Some chunk ->
           Reader.tickDelay wpm refs chunk = calculateChunkDelay chunk wpm))
  /\ ((currentIndex < 0)%Z ->
      Reader.Map_has currentIndex cache = false ->
      Reader.preload (Some book) wpm currentIndex cache = None).
Proof.
  split.
  - intros Hpos Hco.
    destruct (preloadLoop_spec (Book.chunks book) wpm currentIndex
                Reader.PRELOAD_WINDOW 0%Z cache ltac:(lia) Hco)
      as [cache' [Heq [Hco' [Hkeep Hfill]]]].
    exists cache'. unfold Reader.preload.
    split; [exact Heq|]. split; [exact Hco'|].
    split; [exact Hkeep|]. split.
    + intros k Hk Hlen.
      specialize (Hfill k).
      change (Z.of_nat Reader.PRELOAD_WINDOW) with 50%Z in Hfill.
      unfold Store.chunksLength in Hlen.
      assert (Hwin : (currentIndex + 0 <= k < currentIndex + 0 + 50)%Z) by lia.
      specialize (Hfill Hwin Hlen). unfold Reader.Map_has in Hfill.
      destruct (Reader.Map_get k cache') as [e|] eqn:Hg; [|discriminate].
      destruct (Hco' k e Hg) as [chunk [Hc He]]. exists chunk.
      subst e. split; [exact Hc | reflexivity].
    + intros refs chunk Hcache Hchunk. unfold Reader.tickDelay. rewrite Hcache.
      destruct (Reader.Map_get (Reader.currentIndexRef refs) cache')
        as [e|] eqn:Hg; [|reflexivity].
      destruct (Hco' _ e Hg) as [chunk' [Hc He]].
      rewrite Hchunk in Hc. inversion Hc; subst. reflexivity.
  - intros Hneg Hhas. unfold Reader.preload.
    change Reader.PRELOAD_WINDOW with (S 49).
    apply preloadLoop_undefined; rewrite Z.add_0_r; assumption.
Qed.

Lemma lookahead_cache_is_an_optimisation_witness :
  (exists cache',
     Reader.preload (Some book100) (Num.ofZ 300) 60 [] = Some cache'
     /\ coherent (Book.chunks book100) (Num.ofZ 300) cache')
  /\ Reader.preload (Some book100) (Num.ofZ 300) (-1) [] = None.
Proof.
  destruct (lookahead_cache_is_an_optimisation book100 (Num.ofZ 300) 60 [])
    as [Hfill _].
  destruct (lookahead_cache_is_an_optimisation book100 (Num.ofZ 300) (-1) [])
    as [_ Herror].
  split.
  - destruct (Hfill ltac:(lia) (coherent_empty _ _)) as [cache' [Heq [Hco _]]].
    exists cache'. split; assumption.
  - apply Herror; [lia | reflexivity].
Defined.



Module CompareFacts.
Import Num NumOps.

Lemma ltb_leb x y : ltb x y = true -> leb x y = true.
Proof.
  unfold ltb, leb, SFltb, SFleb.
  destruct (SFcompare x y) as [[| |]|]; intros H; try discriminate; reflexivity.
Qed.

(** A finite number minus itself is [+0]. *)
Lemma sub_self x : isFinite x = true -> sub x x = S754_zero false.
Proof.
  destruct x as [s|s| |s m e]; try discriminate; intros _.
  - now destruct s.
  - unfold sub, SF64sub, SFsub. cbv zeta. now rewrite Z.sub_diag.
Qed.

(** A wait that is positive has not elapsed at time 0. *)
Lemma positive_not_elapsed d s :
  ltb (ofZ 0) d = true -> leb d (S754_zero s) = false.
Proof.
  change (ofZ 0) with (S754_zero false).
  unfold ltb, leb, SFltb, SFleb, SFcompare.
  destruct d as [sd|sd| |sd md ed]; try discriminate;
    destruct sd; try discriminate; reflexivity.
Qed.

(** The pacing rates the drag gesture allows. *)
Definition inRate (w : number) : bool :=
  (leb (ofZ 50) w && leb w (ofZ 1200))%bool.

(** [Math.max(50, Math.min(1200, s))] is 50, 1200, or [s] when [s] lies
    strictly between the two. *)
Lemma clamp_cases s :
  isNaN s = false ->
  let w := Math_max (ofZ 50) (Math_min (ofZ 1200) s) in
  w = ofZ 50 \/ w = ofZ 1200
  \/ (w = s /\ ltb (ofZ 50) s = true /\ ltb s (ofZ 1200) = true).
Proof.
  intros Hnan. cbv zeta.
  remember (ofZ 50) as lo eqn:Hlo. remember (ofZ 1200) as hi eqn:Hhi.
  vm_compute in Hlo, Hhi.
  assert (Hlohi : ltb lo hi = true) by (subst; reflexivity).
  assert (Hnlo : isNaN lo = false) by (subst; reflexivity).
  assert (Hnhi : isNaN hi = false) by (subst; reflexivity).
  assert (Hmin : Math_min hi s = hi
                 \/ (Math_min hi s = s /\ ltb s hi = true)).
  { unfold Math_min. rewrite Hnhi, Hnan. simpl.
    destruct (ltb hi s); [now left|].
    destruct (ltb s hi); [now right|]. left. now subst hi. }
  destruct Hmin as [-> | [-> Hshi]].
  - right; left. unfold Math_max. rewrite Hnlo, Hnhi, Hlohi. reflexivity.
  - unfold Math_max. rewrite Hnlo, Hnan. simpl.
    destruct (ltb lo s) eqn:Hlos; [right; right; auto|].
    left. destruct (ltb s lo); [reflexivity|]. now subst lo.
Qed.

Lemma clamp_inRate s :
  isNaN s = false ->
  inRate (Math_max (ofZ 50) (Math_min (ofZ 1200) s)) = true.
Proof.
  intros Hnan. unfold inRate.
  destruct (clamp_cases s Hnan) as [-> | [-> | [-> [Hlo Hhi]]]].
  - reflexivity.
  - reflexivity.
  - now rewrite (ltb_leb _ _ Hlo), (ltb_leb _ _ Hhi).
Qed.

End CompareFacts.

Import CompareFacts.

(** X12. One frame advances by one chunk at most. After [animate] the
    position is the one before or the next one; it moves only when a chunk
    is shown and the time since the last advance is the delay of that chunk
    at least, and the time of the frame is then recorded; another frame is
    requested only while the store is playing; a valid position stays
    valid; and on the first frame after a start, at a finite time and with
    a positive delay, nothing moves and the time is recorded. *)
Theorem frame_advances_one_chunk_at_most (wpm time : Num.number)
    (refs : Reader.Refs) (st : Store.ReadallState) :
  let refs' := fst (fst (Reader.animate wpm time refs st)) in
  let st' := snd (fst (Reader.animate wpm time refs st)) in
  let again := snd (Reader.animate wpm time refs st) in
  let last := match Reader.lastTimeRef refs with
              | Some t => t
              | None => time
              end in
  (Store.currentIndex st' = Store.currentIndex st
   \/ Store.currentIndex st' = (Store.currentIndex st + 1)%Z)
  /\ (Store.currentIndex st' <> Store.currentIndex st ->
      exists chunk,
        Reader.chunkRef refs = Some chunk
        /\ Num.leb (Reader.tickDelay wpm refs chunk) (NumOps.sub time last)
           = true
        /\ Reader.lastTimeRef refs' = Some time)
  /\ (again = true ->
      Store.isPlaying st' = true /\ Reader.chunkRef refs <> None)
  /\ (StoreFacts.positionValid st -> StoreFacts.positionValid st')
  /\ (forall chunk,
        Reader.chunkRef refs = Some chunk ->
        Reader.lastTimeRef refs = None ->
        Num.isFinite time = true ->
        Num.ltb (Num.ofZ 0) (Reader.tickDelay wpm refs chunk) = true ->
        st' = st /\ Reader.lastTimeRef refs' = Some time).
Proof.
  cbn zeta. unfold Reader.animate.
  destruct (Reader.chunkRef refs) as [chunk|] eqn:Hchunk.
  - destruct (Num.leb (Reader.tickDelay wpm
                         {| Reader.lastTimeRef := Reader.lastTimeRef refs;
                            Reader.chunkRef := Some chunk;
                            Reader.currentIndexRef := Reader.currentIndexRef refs;
                            Reader.preparedCacheRef :=
                              Reader.preparedCacheRef refs |} chunk)
                      (NumOps.sub time
                         match Reader.lastTimeRef refs with
                         | Some t => t
                         | None => time
                         end)) eqn:Hdue.
    all: assert (Hrefs : {| Reader.lastTimeRef := Reader.lastTimeRef refs;
                            Reader.chunkRef := Some chunk;
                            Reader.currentIndexRef := Reader.currentIndexRef refs;
                            Reader.preparedCacheRef :=
                              Reader.preparedCacheRef refs |} = refs)
      by (destruct refs; simpl in *; now subst).
    all: rewrite Hrefs in Hdue.
    all: cbn zeta; rewrite Hdue; simpl.
    + (* the delay has elapsed *)
      assert (Hstep : Store.currentIndex (Store.advanceIndex st)
                      = Store.currentIndex st
                      \/ Store.currentIndex (Store.advanceIndex st)
                         = (Store.currentIndex st + 1)%Z).
      { unfold Store.advanceIndex. destruct (Store.activeBook st); simpl;
          [|now left].
        destruct (_ <=? _)%Z; simpl; [now left | now right]. }
      split; [exact Hstep|]. split; [|split; [|split]].
      * intros _. exists chunk. repeat split; auto.
      * intros Hagain. split; [exact Hagain | discriminate].
      * intros Hvalid.
        apply (StoreFacts.step_positionValid
                 {| FullStore.playback := st;
                    FullStore.previousView := Store.library;
                    FullStore.books := [];
                    FullStore.settings := AppSettings.DEFAULT_SETTINGS |}
                 StoreFacts.AdvanceIndex I Hvalid).
      * intros c Hc Hlast Hfin Hpos. inversion Hc; subst c.
        rewrite Hlast in Hdue. rewrite (sub_self time Hfin) in Hdue.
        rewrite (positive_not_elapsed _ false Hpos) in Hdue. discriminate.
    + (* not yet *)
      split; [now left|]. split; [|split; [|split]].
      * intros Hne. now contradiction Hne.
      * intros Hagain. split; [exact Hagain | discriminate].
      * auto.
      * intros c Hc Hlast Hfin Hpos. split; [reflexivity|].
        now rewrite Hlast.
  - simpl. split; [now left|]. split; [|split; [|split]].
    + intros Hne. now contradiction Hne.
    + discriminate.
    + intros [H0 Hb]. split; [exact H0 | exact Hb].
    + discriminate.
Qed.

(** X13. A drag keeps the pacing rate within [50, 1200]. [handleTouchMove]
    touches nothing but the swipe flag and the pacing rate, and nothing at
    all for a move of 20 pixels or less; the flag is set by a longer move
    and stays set; the rate afterwards is the rate before or the rate the
    drag asks for, which is between 50 and 1200 whenever the sum of the
    rate at the start of the gesture and the rounded change is a number. *)
Theorem drag_keeps_the_rate_in_range (currentY : Num.number)
    (t : Reader.Touch) (st : FullStore.State) :
  let t' := fst (Reader.handleTouchMove currentY t st) in
  let st' := snd (Reader.handleTouchMove currentY t st) in
  let deltaY := NumOps.sub (Reader.startY t) currentY in
  let moved := Num.ltb (Num.ofZ 20) (NumOps.Math_abs deltaY) in
  FullStore.playback st' = FullStore.playback st
  /\ FullStore.books st' = FullStore.books st
  /\ FullStore.previousView st' = FullStore.previousView st
  /\ FullStore.settings st'
     = AppSettings.spread (FullStore.settings st)
         (AppSettings.only_wpm (AppSettings.wpm (FullStore.settings st')))
  /\ t' = Reader.set_isSwiping (Reader.isSwiping t || moved) t
  /\ (moved = false -> st' = st)
  /\ (AppSettings.wpm (FullStore.settings st')
      = AppSettings.wpm (FullStore.settings st)
      \/ AppSettings.wpm (FullStore.settings st')
         = Reader.newWpm (Reader.initialWpm t) deltaY)
  /\ (NumOps.isNaN
        (Num.add (Reader.initialWpm t)
           (Num.Math_round (Num.mul deltaY NumOps.lit_0_8))) = false ->
      inRate (Reader.newWpm (Reader.initialWpm t) deltaY) = true
      /\ (inRate (AppSettings.wpm (FullStore.settings st)) = true ->
          inRate (AppSettings.wpm (FullStore.settings st')) = true)).
Proof.
  cbn zeta. unfold Reader.handleTouchMove. cbv zeta.
  set (deltaY := NumOps.sub (Reader.startY t) currentY).
  assert (Hkeep : forall se : AppSettings.t,
            se = AppSettings.spread se
                   (AppSettings.only_wpm (AppSettings.wpm se)))
    by (intros []; reflexivity).
  assert (Hset : forall (se : AppSettings.t) v,
            AppSettings.spread se (AppSettings.only_wpm v)
            = AppSettings.spread se
                (AppSettings.only_wpm
                   (AppSettings.wpm
                      (AppSettings.spread se (AppSettings.only_wpm v)))))
    by (intros [] v; reflexivity).
  pose proof (clamp_inRate
                (Num.add (Reader.initialWpm t)
                   (Num.Math_round (Num.mul deltaY NumOps.lit_0_8))))
    as Hclamp.
  fold (Reader.newWpm (Reader.initialWpm t) deltaY) in Hclamp.
  destruct (Num.ltb (Num.ofZ 20) (NumOps.Math_abs deltaY)) eqn:Hmoved.
  - rewrite orb_true_r.
    destruct (NumOps.strictEq (Reader.newWpm (Reader.initialWpm t) deltaY)
                (AppSettings.wpm (FullStore.settings st))) eqn:Hsame;
      cbn [negb fst snd].
    + split; [reflexivity|]. split; [reflexivity|]. split; [reflexivity|].
      split; [apply Hkeep|]. split; [reflexivity|].
      split; [discriminate|]. split; [now left|].
      intros Hnan. split; [now apply Hclamp | auto].
    + unfold FullStore.updateSettings.
      cbn [FullStore.playback FullStore.books FullStore.previousView
           FullStore.settings].
      split; [reflexivity|]. split; [reflexivity|]. split; [reflexivity|].
      split; [apply Hset|]. split; [reflexivity|].
      split; [discriminate|]. split; [right; now destruct (FullStore.settings st)|].
      intros Hnan. split; [now apply Hclamp|]. intros _.
      replace (AppSettings.wpm
                 (AppSettings.spread (FullStore.settings st)
                    (AppSettings.only_wpm
                       (Reader.newWpm (Reader.initialWpm t) deltaY))))
        with (Reader.newWpm (Reader.initialWpm t) deltaY)
        by (now destruct (FullStore.settings st)).
      now apply Hclamp.
  - rewrite orb_false_r. cbn [fst snd].
    split; [reflexivity|]. split; [reflexivity|]. split; [reflexivity|].
    split; [apply Hkeep|]. split; [now destruct t|].
    split; [reflexivity|]. split; [now left|].
    intros Hnan. split; [now apply Hclamp | auto].
Qed.

Lemma drag_keeps_the_rate_in_range_witness :
  AppSettings.wpm
    (FullStore.settings
       (snd (Reader.handleTouchMove (Num.ofZ 100)
               {| Reader.startX := Num.ofZ 10; Reader.startY := Num.ofZ 2000;
                  Reader.startTime := 0; Reader.lastTapTime := 0;
                  Reader.initialWpm := Num.ofZ 350;
                  Reader.isSwiping := false |} shelf100)))
  = Num.ofZ 1200.
Proof.
  destruct (drag_keeps_the_rate_in_range (Num.ofZ 100)
              {| Reader.startX := Num.ofZ 10; Reader.startY := Num.ofZ 2000;
                 Reader.startTime := 0; Reader.lastTapTime := 0;
                 Reader.initialWpm := Num.ofZ 350;
                 Reader.isSwiping := false |} shelf100)
    as [_ [_ [_ [_ [_ [_ [[Hsame | Hnew] _]]]]]]].
  - exfalso. vm_compute in Hsame. discriminate.
  - rewrite Hnew. vm_compute. reflexivity.
Defined.

(* ===================================================================== *)
(** * Further properties: the reply of the enrichment service *)
(* ===================================================================== *)

Module ExtractFacts.
Import JS Regex RsvpUtils ListFacts RegexFacts ReconcilerFacts ExtractJSON.

Section Text.
Variable text : jsString.

Lemma occursAt_single c k :
  occursAt text [c] k <-> nth_error text k = Some c.
Proof.
  unfold occursAt, substring. simpl.
  replace (k + 1 - k) with 1 by lia. split.
  - intros [Hlen Hs].
    destruct (skipn k text) as [|x rest] eqn:Hk; [discriminate|].
    simpl in Hs. inversion Hs; subst.
    rewrite <- (Nat.add_0_r k), <- nth_error_skipn, Hk. reflexivity.
  - intros Hn. split.
    + apply nth_error_in_range in Hn. lia.
    + rewrite <- (Nat.add_0_r k), <- nth_error_skipn in Hn.
      destruct (skipn k text) as [|x rest]; [discriminate|].
      simpl in Hn. inversion Hn; subst. reflexivity.
Qed.

Lemma lastIndexOfFrom_spec p : forall n k found,
  k + n = length text ->
  match found with
  | Some f => f < k /\ occursAt text p f
              /\ forall j, f < j < k -> ~ occursAt text p j
  | None => forall j, j < k -> ~ occursAt text p j
  end ->
  match lastIndexOfFrom p (skipn k text) k found with
  | Some i => occursAt text p i /\ forall j, i < j -> ~ occursAt text p j
  | None => forall j, ~ occursAt text p j
  end.
Proof.
  induction n as [|n IH]; intros k found Hk Hfound.
  - pose proof (occursAt_prefix text p k ltac:(lia)) as Hocc.
    rewrite skipn_all2 in * by lia. simpl.
    assert (Hpast : forall j, k < j -> ~ occursAt text p j)
      by (intros j Hj [Hlen _]; lia).
    destruct (isPrefix p []) eqn:Hp.
    + split; [now apply Hocc | exact Hpast].
    + assert (Hnot : ~ occursAt text p k)
        by (intros Ho; apply Hocc in Ho; congruence).
      destruct found as [f|].
      * destruct Hfound as [Hf [Ho Hbetween]]. split; [exact Ho|].
        intros j Hj. destruct (Nat.lt_trichotomy j k) as [Hlt | [-> | Hgt]];
          [apply Hbetween; lia | exact Hnot | now apply Hpast].
      * intros j. destruct (Nat.lt_trichotomy j k) as [Hlt | [-> | Hgt]];
          [now apply Hfound | exact Hnot | now apply Hpast].
  - pose proof (occursAt_prefix text p k ltac:(lia)) as Hocc.
    destruct (skipn k text) as [|c rest] eqn:Hs.
    { apply (f_equal (@length char)) in Hs. rewrite length_skipn in Hs.
      simpl in Hs. lia. }
    assert (Hrest : skipn (S k) text = rest).
    { replace (S k) with (1 + k) by lia. rewrite <- skipn_skipn, Hs.
      reflexivity. }
    cbn [lastIndexOfFrom]. cbv zeta.
    destruct (isPrefix p (c :: rest)) eqn:Hp; rewrite <- Hrest;
      (apply (IH (S k)); [lia|]).
    + split; [lia|]. split; [now apply Hocc | intros j Hj; lia].
    + assert (Hnot : ~ occursAt text p k)
        by (intros Ho; apply Hocc in Ho; congruence).
      destruct found as [f|].
      * destruct Hfound as [Hf [Ho Hbetween]].
        split; [lia|]. split; [exact Ho|].
        intros j Hj. destruct (Nat.eq_dec j k) as [-> | Hne];
          [exact Hnot | apply Hbetween; lia].
      * intros j Hj. destruct (Nat.eq_dec j k) as [-> | Hne];
          [exact Hnot | apply Hfound; lia].
Qed.

Lemma lastIndexOf_spec p :
  (exists k, lastIndexOf text p = Z.of_nat k
             /\ occursAt text p k
             /\ forall j, k < j -> ~ occursAt text p j)
  \/ (lastIndexOf text p = (-1)%Z /\ forall j, ~ occursAt text p j).
Proof.
  unfold lastIndexOf.
  pose proof (lastIndexOfFrom_spec p (length text) 0 None eq_refl) as H.
  simpl in H.
  destruct (lastIndexOfFrom p text 0 None) as [i|].
  - left. exists i. split; [reflexivity|]. apply H. intros j Hj. lia.
  - right. split; [reflexivity|]. apply H. intros j Hj. lia.
Qed.

End Text.

Lemma substring_middle {A : Type} (pre body post : list A) :
  firstn (length body) (skipn (length pre) (pre ++ body ++ post)) = body.
Proof.
  rewrite skipn_app, skipn_all, Nat.sub_diag. simpl.
  rewrite firstn_app, firstn_all, Nat.sub_diag. simpl. apply app_nil_r.
Qed.

(** The candidate of a reply that wraps one brace-delimited span in prose. *)
Lemma candidate_of_wrapped pre mid post :
  ~ In 123%N pre -> ~ In 125%N post ->
  candidate (pre ++ [123%N] ++ mid ++ [125%N] ++ post)
  = Some ([123%N] ++ mid ++ [125%N]).
Proof.
  intros Hpre Hpost.
  set (text := pre ++ [123%N] ++ mid ++ [125%N] ++ post).
  assert (Hlen : length text = length pre + 1 + length mid + 1 + length post).
  { unfold text. rewrite !length_app. simpl. lia. }
  assert (Hopen : nth_error text (length pre) = Some 123%N).
  { unfold text. rewrite nth_error_app2, Nat.sub_diag by lia. reflexivity. }
  assert (Hclose : nth_error text (length pre + 1 + length mid) = Some 125%N).
  { unfold text. rewrite nth_error_app2 by lia.
    replace (length pre + 1 + length mid - length pre)
      with (S (length mid)) by lia.
    simpl. rewrite nth_error_app2, Nat.sub_diag by lia. reflexivity. }
  assert (Hstart : indexOf text openBrace 0 = Z.of_nat (length pre)).
  { destruct (indexOf_spec text openBrace 0 ltac:(lia))
      as [[k [Hk [_ [Ho Hfirst]]]] | [_ Hnone]].
    - simpl in Hk. rewrite Hk. f_equal.
      apply (occursAt_single text) in Ho.
      destruct (Nat.lt_trichotomy k (length pre)) as [Hlt | [Heq | Hgt]].
      + exfalso. apply Hpre. unfold text in Ho.
        rewrite nth_error_app1 in Ho by lia. eapply nth_error_In; eauto.
      + exact Heq.
      + exfalso. apply (Hfirst (length pre)); [lia|].
        now apply (occursAt_single text).
    - exfalso. apply (Hnone (length pre)); [lia|].
      now apply (occursAt_single text). }
  assert (Hend : lastIndexOf text closeBrace
                 = Z.of_nat (length pre + 1 + length mid)).
  { destruct (lastIndexOf_spec text closeBrace)
      as [[k [Hk [Ho Hlast]]] | [_ Hnone]].
    - rewrite Hk. f_equal. apply (occursAt_single text) in Ho.
      destruct (Nat.lt_trichotomy k (length pre + 1 + length mid))
        as [Hlt | [Heq | Hgt]].
      + exfalso. apply (Hlast (length pre + 1 + length mid)); [lia|].
        now apply (occursAt_single text).
      + exact Heq.
      + exfalso. apply Hpost. unfold text in Ho.
        rewrite nth_error_app2 in Ho by lia.
        change ([123%N] ++ mid ++ [125%N] ++ post)
          with (123%N :: (mid ++ [125%N] ++ post)) in Ho.
        destruct (k - length pre) as [|a] eqn:Ha; [lia|]. simpl in Ho.
        rewrite nth_error_app2 in Ho by lia.
        destruct (a - length mid) as [|b] eqn:Hb; [lia|]. simpl in Ho.
        eapply nth_error_In; eauto.
    - exfalso. apply (Hnone (length pre + 1 + length mid)).
      now apply (occursAt_single text). }
  unfold candidate. fold text. rewrite Hstart, Hend.
  assert (Hguard : (negb (Z.of_nat (length pre) =? -1)
                    && negb (Z.of_nat (length pre + 1 + length mid) =? -1)
                    && (Z.of_nat (length pre)
                        <? Z.of_nat (length pre + 1 + length mid)))%Z%bool
                   = true).
  { rewrite !andb_true_iff, !negb_true_iff, !Z.eqb_neq, Z.ltb_lt. lia. }
  rewrite Hguard. f_equal. unfold substring.
  rewrite Nat2Z.id.
  replace (Z.to_nat (Z.of_nat (length pre + 1 + length mid) + 1) - length pre)
    with (length ([123%N] ++ mid ++ [125%N]))
    by (rewrite !length_app; simpl; lia).
  replace text with (pre ++ ([123%N] ++ mid ++ [125%N]) ++ post)
    by (unfold text; simpl; now rewrite <- app_assoc).
  apply substring_middle.
Qed.

Lemma fenceRe_consumes : consumes fenceRe = true.
Proof. reflexivity. Qed.

(** The cleaning of the fences always ends. *)
Lemma replaceAll_total text :
  exists cleaned, replaceAll noFlags text fenceRe [] = Some cleaned.
Proof.
  unfold replaceAll.
  destruct (execLoop_MatchSeq noFlags text fenceRe (replaceStep text [])
              fenceRe_consumes (S (length text)) 0 (0, []))
    as [rs [_ Heq]]; try lia.
  rewrite Heq.
  destruct (fold_left (replaceStep text []) rs (0, [])) as [p out]. eauto.
Qed.

End ExtractFacts.

(** X14. The reply of the enrichment service is read through prose. For
    every parser in the place of [JSON.parse]: [extractJSON] always ends,
    with a parsed value or with the error whose message is ["Failed to parse
    JSON response: "], the first 50 code units of the text and ["..."]; and
    when the text is one [{ ... }] span that parses, with any text without
    [{] before it and any text without [}] after it, the result is the value
    of that span. *)
Theorem extractJSON_reads_through_prose (T : Type)
    (JSON_parse : jsString -> option T) (text : jsString) :
  (exists result,
     ExtractJSON.extractJSON T JSON_parse text = Some result
     /\ (result = inl (ExtractJSON.failure text)
         \/ exists v s, result = inr v /\ JSON_parse s = Some v))
  /\ (forall pre mid post v,
        text = pre ++ [123%N] ++ mid ++ [125%N] ++ post ->
        ~ In 123%N pre -> ~ In 125%N post ->
        JSON_parse ([123%N] ++ mid ++ [125%N]) = Some v ->
        ExtractJSON.extractJSON T JSON_parse text = Some (inr v)).
Proof.
  split.
  - unfold ExtractJSON.extractJSON.
    destruct (match ExtractJSON.candidate text with
              | Some jsonCandidate => JSON_parse jsonCandidate
              | None => None
              end) as [v|] eqn:Hdirect.
    + exists (inr v). split; [reflexivity|]. right.
      destruct (ExtractJSON.candidate text) as [s|]; [|discriminate].
      now exists v, s.
    + destruct (ExtractFacts.replaceAll_total text) as [cleaned Hclean].
      rewrite Hclean.
      destruct (JSON_parse (trim cleaned)) as [v|] eqn:Hp.
      * exists (inr v). split; [reflexivity|]. right. now exists v, (trim cleaned).
      * exists (inl (ExtractJSON.failure text)). split; [reflexivity | now left].
  - intros pre mid post v -> Hpre Hpost Hparse.
    unfold ExtractJSON.extractJSON.
    rewrite (ExtractFacts.candidate_of_wrapped pre mid post Hpre Hpost).
    now rewrite Hparse.
Qed.

(** A parser that accepts two texts only. *)
Definition sampleParse (s : jsString) : option nat :=
  if string_eqb s (ofString "{1}") then Some 1
  else if string_eqb s (ofString "[2]") then Some 2
  else None.

Example extractJSON_samples :
  ExtractJSON.extractJSON nat sampleParse (ofString "Here it is: {1}. Enjoy")
  = Some (inr 1)
  /\ ExtractJSON.extractJSON nat sampleParse
       (ofString "```json" ++ [10%N] ++ ofString "[2]" ++ [10%N]
        ++ ofString "```")
     = Some (inr 2)
  /\ ExtractJSON.extractJSON nat sampleParse (ofString "no json fences, {0}")
     = Some (inl (ofString "Failed to parse JSON response: no json fences, {0}..."))
  /\ ExtractJSON.extractJSON nat sampleParse (ofString "} {1} {")
     = Some (inr 1)
  /\ ExtractJSON.extractJSON nat sampleParse (ofString "}[2]{")
     = Some (inl (ofString "Failed to parse JSON response: }[2]{...")).
Proof. vm_compute. repeat split; reflexivity. Qed.

(** X15. The font controls cycle. Five calls of [cycleFontFamily] and four
    calls of [cycleFontSize] lead back to the state they started from, and
    fewer calls (one at least) lead to another font family, another font
    size; a call changes nothing but that setting. *)
Theorem font_controls_cycle (st : FullStore.State) :
  Nat.iter 5 Reader.cycleFontFamily st = st
  /\ Nat.iter 4 Reader.cycleFontSize st = st
  /\ (forall k, 0 < k < 5 ->
        AppSettings.fontFamily
          (FullStore.settings (Nat.iter k Reader.cycleFontFamily st))
        <> AppSettings.fontFamily (FullStore.settings st))
  /\ (forall k, 0 < k < 4 ->
        AppSettings.fontSize
          (FullStore.settings (Nat.iter k Reader.cycleFontSize st))
        <> AppSettings.fontSize (FullStore.settings st))
  /\ Reader.cycleFontFamily st
     = FullStore.updateSettings
         (AppSettings.only_fontFamily
            (AppSettings.fontFamily
               (FullStore.settings (Reader.cycleFontFamily st)))) st
  /\ Reader.cycleFontSize st
     = FullStore.updateSettings
         (AppSettings.only_fontSize
            (AppSettings.fontSize
               (FullStore.settings (Reader.cycleFontSize st)))) st.
Proof.
  destruct st as [pb pv bs se]. destruct se as [w cm ak th ff fs sr].
  split; [destruct ff; reflexivity|].
  split; [destruct fs; reflexivity|].
  split; [|split; [|split; [destruct ff; reflexivity
                           | destruct fs; reflexivity]]].
  - intros k Hk.
    destruct k as [|[|[|[|[|k]]]]]; try lia; destruct ff; discriminate.
  - intros k Hk.
    destruct k as [|[|[|[|k]]]]; try lia; destruct fs; discriminate.
Qed.

(** X16. The titles of the chapters found in the text are short: every
    title returned by [extractChapters] has 53 code units at most (50 of
    the heading and the three dots), and one of more than 50 code units
    ends in the three dots. *)
Theorem chapter_titles_are_truncated (text : jsString)
    (chunks : list Chunk.t) :
  exists chapters,
    extractChapters text chunks = Some chapters
    /\ Forall (fun ch =>
                 length (Chapter.title ch) <= 53
                 /\ (50 < length (Chapter.title ch) ->
                     skipn 50 (Chapter.title ch) = ellipsis))
              chapters.
Proof.
  destruct (ChapterFacts.extractChapters_eq text chunks) as [rs [_ [_ Heq]]].
  eexists. split; [exact Heq|].
  assert (Hmarkers :
    Forall (fun ch =>
              length (Chapter.title ch) <= 53
              /\ (50 < length (Chapter.title ch) ->
                  skipn 50 (Chapter.title ch) = ellipsis))
           (ChapterFacts.dedupFirst None
              (ChapterFacts.resolvedMarkers chunks rs))).
  { apply Forall_forall. intros ch Hin.
    apply dedupFirst_In in Hin. unfold ChapterFacts.resolvedMarkers in Hin.
    apply in_map_iff in Hin. destruct Hin as [res [<- _]].
    unfold ChapterFacts.markerOf, ChapterFacts.titleOf.
    cbn [Chapter.title]. cbv zeta.
    set (title := trim match match1 res with Some t => t | None => [] end).
    destruct (Nat.ltb_spec 50 (length title)) as [Hlong | Hshort]; cbv iota.
    - assert (Hcut : length (substring title 0 50) = 50)
        by (unfold substring; rewrite ListFacts.length_substring; lia).
      split.
      + rewrite length_app, Hcut. simpl. lia.
      + intros _. rewrite skipn_app, Hcut, Nat.sub_diag.
        rewrite skipn_all2 by lia. reflexivity.
    - split; [lia | intros Hlt; lia]. }
  destruct (ChapterFacts.dedupFirst None
              (ChapterFacts.resolvedMarkers chunks rs)); [|exact Hmarkers].
  constructor; [|constructor]. simpl. split; [lia | intros Hlt; lia].
Qed.

(* ===================================================================== *)
(** * Further properties: the enrichment of a book *)
(* ===================================================================== *)

Module ProcessFacts.
Import JS Num Regex RsvpUtils ListFacts RegexFacts ReconcilerFacts.
Import AiService App AppProcess.

(** A chunk is a slice of the content and carries that slice as its text. *)
Definition sliceOfContent (content : jsString) (c : Chunk.t) : Prop :=
  (0 <= Chunk.start c <= Chunk.end_ c)%Z
  /\ (Chunk.end_ c <= Z.of_nat (length content))%Z
  /\ Chunk.text c
     = substring content (Z.to_nat (Chunk.start c)) (Z.to_nat (Chunk.end_ c)).

(** The chunks are slices of the content, in order and without overlap. *)
Definition orderedSlices (content : jsString) (chunks : list Chunk.t) : Prop :=
  Forall (sliceOfContent content) chunks
  /\ StronglySorted (fun a b => (Chunk.end_ a <= Chunk.start b)%Z) chunks.

Lemma StronglySorted_app {A : Type} (R : A -> A -> Prop) l1 l2 :
  StronglySorted R l1 -> StronglySorted R l2 ->
  (forall a b, In a l1 -> In b l2 -> R a b) ->
  StronglySorted R (l1 ++ l2).
Proof.
  induction 1 as [|a l1 Hs IH Hall]; intros H2 Hcross; simpl; [exact H2|].
  constructor.
  - apply IH; [exact H2|]. intros x y Hx Hy. apply Hcross; [now right | exact Hy].
  - apply Forall_app. split; [exact Hall|].
    apply Forall_forall. intros y Hy. apply Hcross; [now left | exact Hy].
Qed.

Lemma StronglySorted_filter {A : Type} (R : A -> A -> Prop) f l :
  StronglySorted R l -> StronglySorted R (filter f l).
Proof.
  induction 1 as [|a l Hs IH Hall]; simpl; [constructor|].
  destruct (f a); [|exact IH]. constructor; [exact IH|].
  apply Forall_forall. intros x Hx. apply filter_In in Hx.
  rewrite Forall_forall in Hall. now apply Hall.
Qed.

(** A slice of a prefix of the content is a slice of the content. *)
Lemma substring_firstn {A : Type} (l : list A) n a b :
  b <= n ->
  firstn (b - a) (skipn a (firstn n l)) = firstn (b - a) (skipn a l).
Proof.
  intros Hb. rewrite skipn_firstn_comm, firstn_firstn.
  now replace (Nat.min (b - a) (n - a)) with (b - a) by lia.
Qed.

Lemma sliceOfContent_prefix content n c :
  sliceOfContent (substring content 0 n) c -> sliceOfContent content c.
Proof.
  unfold sliceOfContent, substring. rewrite Nat.sub_0_r. simpl skipn.
  rewrite length_firstn. intros [Hs [He Ht]].
  split; [exact Hs|]. split; [lia|]. rewrite Ht.
  apply substring_firstn. lia.
Qed.

(** The chunks of the re-mapping loop. *)
Lemma Resolves_ordered text from items chunks E :
  Resolves text from items chunks E ->
  from <= E
  /\ Forall (fun c => (Z.of_nat from <= Chunk.start c)%Z
                      /\ (Chunk.end_ c <= Z.of_nat E)%Z
                      /\ sliceOfContent text c) chunks
  /\ StronglySorted (fun a b => (Chunk.end_ a <= Chunk.start b)%Z) chunks.
Proof.
  induction 1 as [from | from item items k chunks E Hfirst Hrest IH
                 | from item items chunks E Hnone Hrest IH].
  - split; [lia|]. split; constructor.
  - destruct IH as [HE [Hall Hs]].
    destruct Hfirst as [Hk [[Hlen Hsub] _]].
    split; [lia|]. split.
    + constructor.
      * unfold ReconcilerFacts.chunkAt, sliceOfContent. simpl.
        rewrite !Nat2Z.id. repeat split; try lia. now rewrite Hsub.
      * eapply Forall_impl; [|exact Hall]. simpl. intros c Hc. intuition lia.
    + constructor; [exact Hs|].
      eapply Forall_impl; [|exact Hall]. simpl. intros c Hc.
      unfold ReconcilerFacts.chunkAt. simpl. lia.
  - exact IH.
Qed.

(** The chunks of the tokenizer. *)
Lemma chunker_ordered text chunks :
  algorithmicChunker text = Some chunks ->
  orderedSlices text chunks
  /\ Forall (fun c => (Chunk.start c < Chunk.end_ c)%Z
                      /\ Chunk.kind c = word) chunks.
Proof.
  intros Heq.
  destruct (ChunkerFacts.algorithmicChunker_eq text) as [rs [Hrs Heq']].
  rewrite Heq in Heq'. inversion Heq'; subst chunks.
  destruct (ChunkerFacts.matchSeq_chunks text 0 rs Hrs ltac:(lia))
    as [Hw [Hs _]].
  split; [split; [|exact Hs]|].
  - eapply Forall_impl; [|exact Hw]. intros c [H1 [H2 [H3 _]]].
    unfold sliceOfContent. repeat split; try lia. exact H3.
  - eapply Forall_impl; [|exact Hw]. intros c [H1 [_ [_ H4]]].
    split; [lia | exact H4].
Qed.

(** In ordered slices no chunk ends after the last one. *)
Lemma lastEnd_bound content chunks : forall d,
  orderedSlices content chunks ->
  (forall c, In c chunks -> (Chunk.end_ c <= lastEnd d chunks)%Z)
  /\ (chunks <> [] -> exists c, In c chunks /\ lastEnd d chunks = Chunk.end_ c).
Proof.
  induction chunks as [|c chunks IH]; intros d [Hall Hs].
  - split; [intros c [] | congruence].
  - inversion Hall as [|? ? Hc Hrest]; subst.
    inversion Hs as [|? ? Hsorted Hafter]; subst.
    rewrite lastEnd_cons.
    destruct (IH (Chunk.end_ c) (conj Hrest Hsorted)) as [Hle Hlast]. split.
    + intros x [-> | Hx]; [|now apply Hle].
      destruct chunks as [|c' l]; [unfold lastEnd; simpl; lia|].
      destruct (Hlast ltac:(discriminate)) as [y [Hy ->]].
      rewrite Forall_forall in Hafter. specialize (Hafter y Hy).
      rewrite Forall_forall in Hrest. destruct (Hrest y Hy) as [Hy1 _]. lia.
    + intros _. destruct chunks as [|c' l].
      * exists c. split; [now left | reflexivity].
      * destruct (Hlast ltac:(discriminate)) as [y [Hy Hey]].
        exists y. split; [now right | exact Hey].
Qed.

(** The merge of ordered slices. *)
Lemma mergedChunks_ordered content existing smartChunks :
  orderedSlices content existing -> orderedSlices content smartChunks ->
  orderedSlices content (mergedChunks existing smartChunks).
Proof.
  intros [He Hes] [Hsm Hss].
  rewrite mergedChunks_spec
    by (eapply Forall_impl; [|exact He]; intros c [H _]; lia).
  split.
  - apply Forall_app. split; [exact Hsm|].
    apply Forall_forall. intros c Hc. apply filter_In in Hc.
    rewrite Forall_forall in He. now apply He.
  - apply StronglySorted_app; [exact Hss | now apply StronglySorted_filter|].
    intros a b Ha Hb. apply filter_In in Hb. destruct Hb as [_ Hb].
    apply Z.leb_le in Hb.
    destruct (lastEnd_bound content smartChunks 0%Z (conj Hsm Hss)) as [Hle _].
    specialize (Hle a Ha). lia.
Qed.

(** What [semanticChunkText] returns. *)
Lemma semanticChunkText_ordered text reply :
  exists smartChunks,
    semanticChunkText text reply = Some smartChunks
    /\ orderedSlices text smartChunks.
Proof.
  destruct reply as [items|]; simpl.
  - destruct (remapLoop_resolves text items 0 [] ltac:(lia))
      as [chunks [E [Hl [Hr _]]]].
    simpl in Hl. exists chunks. split; [now rewrite Hl|].
    destruct (Resolves_ordered _ _ _ _ _ Hr) as [_ [Hall Hs]].
    split; [|exact Hs]. eapply Forall_impl; [|exact Hall]. simpl. tauto.
  - destruct (ChunkerFacts.algorithmicChunker_eq text) as [rs [_ Heq]].
    eexists. split; [exact Heq|]. now apply chunker_ordered.
Qed.

End ProcessFacts.

Import ProcessFacts.

(** X17. The enrichment keeps the chunks ordered slices of the content.
    For a book whose chunks are slices of its content, in order and without
    overlap, [processAIChunks] ends for every reply of the service, and the
    book it saves, if any, has chunks that are slices of its content again,
    in order and without overlap, one at least; its identifier, title,
    content, chapter list and progress index are those of the book. *)
Theorem enrichment_keeps_ordered_slices (book : Book.t)
    (settings : AppSettings.t) (processing : bool)
    (reply : option (list AiService.Item.t)) :
  orderedSlices (Book.content book) (Book.chunks book) ->
  exists result,
    AppProcess.processAIChunks (Some book) settings processing reply
    = Some result
    /\ forall updated, result = Some updated ->
         orderedSlices (Book.content updated) (Book.chunks updated)
         /\ Book.chunks updated <> []
         /\ Book.id updated = Book.id book
         /\ Book.title updated = Book.title book
         /\ Book.content updated = Book.content book
         /\ Book.chapters updated = Book.chapters book
         /\ Book.progressIndex updated = Book.progressIndex book.
Proof.
  intros Hbook. unfold AppProcess.processAIChunks.
  destruct (_ || _ || _)%bool; [exists None; split; [reflexivity | discriminate]|].
  destruct (AppProcess.hasSmartChunks (Book.chunks book));
    [exists None; split; [reflexivity | discriminate]|].
  destruct (semanticChunkText_ordered (App.textSegment book) reply)
    as [smart [Heq [Hslices Hsorted]]].
  rewrite Heq.
  destruct (Nat.ltb_spec 0 (length smart)) as [Hpos | Hzero];
    [|exists None; split; [reflexivity | discriminate]].
  eexists. split; [reflexivity|]. intros updated Hup.
  inversion Hup; subst updated. unfold App.updatedBook. simpl.
  assert (Hsmart : orderedSlices (Book.content book) smart).
  { split; [|exact Hsorted]. eapply Forall_impl; [|exact Hslices].
    intros c Hc. unfold App.textSegment in Hc.
    now apply sliceOfContent_prefix in Hc. }
  split; [now apply mergedChunks_ordered|].
  split; [|repeat split].
  unfold App.mergedChunks.
  rewrite (proj2 (Nat.ltb_lt 0 (length smart)) Hpos).
  destruct smart; [simpl in Hpos; lia | discriminate].
Qed.

Lemma enrichment_keeps_ordered_slices_witness :
  exists result,
    AppProcess.processAIChunks
      (Some {| Book.id := ofString "c"; Book.title := ofString "City";
               Book.content := cityText; Book.chunks := cityChunks;
               Book.chapters := None; Book.progressIndex := 3 |})
      {| AppSettings.wpm := Num.ofZ 350;
         AppSettings.chunkingMode := AppSettings.ai;
         AppSettings.apiKey := ofString "sk-or-1";
         AppSettings.theme := AppSettings.oled;
         AppSettings.fontFamily := AppSettings.sans;
         AppSettings.fontSize := AppSettings.lg;
         AppSettings.showReticle := true |} false (Some cityItems)
    = Some result.
Proof.
  destruct (enrichment_keeps_ordered_slices
              {| Book.id := ofString "c"; Book.title := ofString "City";
                 Book.content := cityText; Book.chunks := cityChunks;
                 Book.chapters := None; Book.progressIndex := 3 |}
              {| AppSettings.wpm := Num.ofZ 350;
                 AppSettings.chunkingMode := AppSettings.ai;
                 AppSettings.apiKey := ofString "sk-or-1";
                 AppSettings.theme := AppSettings.oled;
                 AppSettings.fontFamily := AppSettings.sans;
                 AppSettings.fontSize := AppSettings.lg;
                 AppSettings.showReticle := true |} false (Some cityItems))
    as [result [Heq _]].
  - split.
    + repeat constructor; simpl; lia.
    + repeat constructor; simpl; lia.
  - exists result. exact Heq.
Defined.

(** The book of the sample above after the enrichment: three chunks are
    left, and the progress index 3 of the book points past them. *)
Example enrichment_can_shorten_the_book :
  match
    AppProcess.processAIChunks
      (Some {| Book.id := ofString "c"; Book.title := ofString "City";
               Book.content := cityText; Book.chunks := cityChunks;
               Book.chapters := None; Book.progressIndex := 3 |})
      {| AppSettings.wpm := Num.ofZ 350;
         AppSettings.chunkingMode := AppSettings.ai;
         AppSettings.apiKey := ofString "sk-or-1";
         AppSettings.theme := AppSettings.oled;
         AppSettings.fontFamily := AppSettings.sans;
         AppSettings.fontSize := AppSettings.lg;
         AppSettings.showReticle := true |} false (Some cityItems)
  with
  | Some (Some updated) =>
      Some (length (Book.chunks updated), Book.progressIndex updated)
  | _ => None
  end = Some (3, 3%Z).
Proof. vm_compute. reflexivity. Qed.

(** X18. The enrichment is guarded by its own result. A book that has a
    chunk of kind phrase or idiom is left alone, whatever the reply. A book
    that is updated had no such chunk, the mode was [ai], the key not empty
    and no run in progress; the updated book has such a chunk exactly when
    one of the chunks that [semanticChunkText] returned has, so that after
    the fallback, whose chunks are words, it has none. *)
Theorem enrichment_is_guarded_by_its_result (book : Book.t)
    (settings : AppSettings.t) (processing : bool)
    (reply : option (list AiService.Item.t)) :
  (AppProcess.hasSmartChunks (Book.chunks book) = true ->
   AppProcess.processAIChunks (Some book) settings processing reply
   = Some None)
  /\ (forall updated,
        AppProcess.processAIChunks (Some book) settings processing reply
        = Some (Some updated) ->
        AppProcess.hasSmartChunks (Book.chunks book) = false
        /\ AppSettings.chunkingMode settings = AppSettings.ai
        /\ AppSettings.apiKey settings <> []
        /\ processing = false
        /\ exists smartChunks,
             AiService.semanticChunkText (App.textSegment book) reply
             = Some smartChunks
             /\ AppProcess.hasSmartChunks (Book.chunks updated)
                = AppProcess.hasSmartChunks smartChunks
             /\ (reply = None ->
                 AppProcess.hasSmartChunks (Book.chunks updated) = false)).
Proof.
  unfold AppProcess.processAIChunks. split.
  - intros Hsmart. rewrite Hsmart. now destruct (_ || _ || _)%bool.
  - intros updated.
    destruct (AppSettings.chunkingMode settings) eqn:Hmode; simpl;
      [discriminate|].
    destruct (AppSettings.apiKey settings) as [|k key] eqn:Hkey; simpl;
      [discriminate|].
    destruct processing; simpl; [discriminate|].
    destruct (AppProcess.hasSmartChunks (Book.chunks book)) eqn:Hnone;
      [discriminate|].
    destruct (AiService.semanticChunkText (App.textSegment book) reply)
      as [smart|] eqn:Hsem; [|discriminate].
    destruct (Nat.ltb_spec 0 (length smart)) as [Hpos | Hzero];
      [|discriminate].
    intros Hup. inversion Hup; subst updated. clear Hup.
    repeat split; auto; try discriminate.
    exists smart. split; [reflexivity|].
    assert (Hmerged : AppProcess.hasSmartChunks
                        (Book.chunks (App.updatedBook book smart))
                      = AppProcess.hasSmartChunks smart).
    { unfold App.updatedBook, App.mergedChunks. simpl.
      rewrite (proj2 (Nat.ltb_lt 0 (length smart)) Hpos).
      unfold AppProcess.hasSmartChunks in *. rewrite existsb_app.
      replace (existsb _ (filter _ (Book.chunks book))) with false;
        [now rewrite orb_false_r|].
      symmetry. clear -Hnone.
      induction (Book.chunks book) as [|c l IH]; simpl in *; [reflexivity|].
      apply orb_false_iff in Hnone. destruct Hnone as [Hc Hl].
      destruct (_ <=? _)%Z; simpl; [rewrite Hc|]; auto. }
    split; [exact Hmerged|].
    intros ->. rewrite Hmerged. simpl in Hsem.
    destruct (chunker_ordered _ _ Hsem) as [_ Hwords].
    unfold AppProcess.hasSmartChunks. clear -Hwords.
    induction Hwords as [|c l [_ Hc] _ IH]; simpl; [reflexivity|].
    now rewrite Hc, IH.
Qed.

(** X19. A fallback leaves a short book as it is. For a book of 2500 code
    units at most whose chunks are those of [algorithmicChunker] on its
    content, one at least, with the [ai] mode and a key: when the service
    gives no usable reply, the book that [processAIChunks] saves and loads
    is the book itself. *)
Theorem fallback_keeps_a_short_book (book : Book.t)
    (settings : AppSettings.t) :
  length (Book.content book) <= App.LIMIT ->
  algorithmicChunker (Book.content book) = Some (Book.chunks book) ->
  Book.chunks book <> [] ->
  AppSettings.chunkingMode settings = AppSettings.ai ->
  AppSettings.apiKey settings <> [] ->
  AppProcess.processAIChunks (Some book) settings false None
  = Some (Some book).
Proof.
  intros Hshort Hchunks Hne Hmode Hkey.
  destruct (chunker_ordered _ _ Hchunks) as [Hord Hwords].
  assert (Hsegment : App.textSegment book = Book.content book).
  { unfold App.textSegment, substring. rewrite Nat.sub_0_r.
    change (skipn 0 (Book.content book)) with (Book.content book).
    now apply firstn_all2. }
  assert (Hnone : AppProcess.hasSmartChunks (Book.chunks book) = false).
  { unfold AppProcess.hasSmartChunks. clear -Hwords.
    induction Hwords as [|c l [_ Hc] _ IH]; simpl; [reflexivity|].
    now rewrite Hc, IH. }
  unfold AppProcess.processAIChunks. rewrite Hmode, Hnone. simpl.
  destruct (AppSettings.apiKey settings) as [|k key]; [congruence|]. simpl.
  rewrite Hsegment, Hchunks.
  assert (Hpos : (0 <? length (Book.chunks book)) = true)
    by (apply Nat.ltb_lt; destruct (Book.chunks book); [congruence | simpl; lia]).
  rewrite Hpos. do 2 f_equal.
  assert (Hmerged : App.mergedChunks (Book.chunks book) (Book.chunks book)
                    = Book.chunks book).
  { rewrite ReconcilerFacts.mergedChunks_spec
      by (destruct Hord as [Hall _]; eapply Forall_impl; [|exact Hall];
          intros c [H _]; lia).
    rewrite ListFacts.filter_none; [apply app_nil_r|].
    apply forallb_forall. intros c Hc. apply negb_true_iff, Z.leb_gt.
    destruct (lastEnd_bound _ _ 0%Z Hord) as [Hle _]. specialize (Hle c Hc).
    rewrite Forall_forall in Hwords. destruct (Hwords c Hc) as [Hlt _]. lia. }
  unfold App.updatedBook. rewrite Hmerged. now destruct book.
Qed.

Lemma fallback_keeps_a_short_book_witness :
  AppProcess.processAIChunks
    (Some {| Book.id := ofString "c"; Book.title := ofString "City";
             Book.content := cityText; Book.chunks := cityChunks;
             Book.chapters := None; Book.progressIndex := 3 |})
    {| AppSettings.wpm := Num.ofZ 350;
       AppSettings.chunkingMode := AppSettings.ai;
       AppSettings.apiKey := ofString "sk-or-1";
       AppSettings.theme := AppSettings.oled;
       AppSettings.fontFamily := AppSettings.sans;
       AppSettings.fontSize := AppSettings.lg;
       AppSettings.showReticle := true |} false None
  = Some (Some {| Book.id := ofString "c"; Book.title := ofString "City";
                  Book.content := cityText; Book.chunks := cityChunks;
                  Book.chapters := None; Book.progressIndex := 3 |}).
Proof.
  apply (fallback_keeps_a_short_book
           {| Book.id := ofString "c"; Book.title := ofString "City";
              Book.content := cityText; Book.chunks := cityChunks;
              Book.chapters := None; Book.progressIndex := 3 |}).
  - apply Nat.leb_le. vm_compute. reflexivity.
  - vm_compute. reflexivity.
  - discriminate.
  - reflexivity.
  - discriminate.
Defined.

(** X20. A double tap seeks once. [handleTouchEnd] leaves the books, the
    settings, the open book and the play state alone. It moves the position
    only at the end of a touch that was no swipe, lasted less than 300 ms
    and came less than 350 ms after the tap recorded before; the position
    is then 10 chunks back, not below 0, or 10 chunks ahead, not beyond the
    last chunk of the book, and the recorded tap time is reset to 0. With
    the tap time at 0, the end of a touch at a time of 350 or more moves
    nothing: the tap after a double tap counts as a first tap. A valid
    position stays valid. *)
Theorem double_tap_seeks_once (time : Z) (currentX width : Num.number)
    (t : Reader.Touch) (st : FullStore.State) :
  let t' := fst (Reader.handleTouchEnd time currentX width t st) in
  let st' := snd (Reader.handleTouchEnd time currentX width t st) in
  let index := Store.currentIndex (FullStore.playback st) in
  FullStore.books st' = FullStore.books st
  /\ FullStore.settings st' = FullStore.settings st
  /\ FullStore.previousView st' = FullStore.previousView st
  /\ Store.activeBook (FullStore.playback st')
     = Store.activeBook (FullStore.playback st)
  /\ Store.isPlaying (FullStore.playback st')
     = Store.isPlaying (FullStore.playback st)
  /\ (st' = st
      \/ (Reader.isSwiping t = false
          /\ (time - Reader.startTime t < 300)%Z
          /\ (time - Reader.lastTapTime t < 350)%Z
          /\ Reader.lastTapTime t' = 0%Z
          /\ (Store.currentIndex (FullStore.playback st')
              = Z.max 0 (index - 10)
              \/ (exists book,
                    Store.activeBook (FullStore.playback st) = Some book
                    /\ Store.currentIndex (FullStore.playback st')
                       = Z.max 0 (Z.min (index + 10)
                                        (Store.chunksLength book - 1))))))
  /\ (Reader.lastTapTime t = 0%Z -> (350 <= time)%Z -> st' = st)
  /\ (StoreFacts.positionValid (FullStore.playback st) ->
      StoreFacts.positionValid (FullStore.playback st')).
Proof.
  assert (Hsame :
    forall s : FullStore.State,
      FullStore.books s = FullStore.books s
      /\ FullStore.settings s = FullStore.settings s
      /\ FullStore.previousView s = FullStore.previousView s
      /\ Store.activeBook (FullStore.playback s)
         = Store.activeBook (FullStore.playback s)
      /\ Store.isPlaying (FullStore.playback s)
         = Store.isPlaying (FullStore.playback s)
      /\ (s = s
          \/ (Reader.isSwiping t = false
              /\ (time - Reader.startTime t < 300)%Z
              /\ (time - Reader.lastTapTime t < 350)%Z
              /\ Reader.lastTapTime
                   (fst (Reader.handleTouchEnd time currentX width t st))
                 = 0%Z
              /\ (Store.currentIndex (FullStore.playback s)
                  = Z.max 0 (Store.currentIndex (FullStore.playback st) - 10)
                  \/ (exists book,
                        Store.activeBook (FullStore.playback st) = Some book
                        /\ Store.currentIndex (FullStore.playback s)
                           = Z.max 0
                               (Z.min
                                  (Store.currentIndex (FullStore.playback st)
                                   + 10)
                                  (Store.chunksLength book - 1))))))
      /\ (Reader.lastTapTime t = 0%Z -> (350 <= time)%Z -> s = s)
      /\ (StoreFacts.positionValid (FullStore.playback s) ->
          StoreFacts.positionValid (FullStore.playback s))).
  { intros s. repeat (split; [reflexivity|]).
    split; [now left|]. split; [reflexivity | exact (fun H => H)]. }
  cbn zeta. revert Hsame. unfold Reader.handleTouchEnd. cbv zeta. intros Hsame.
  destruct (Reader.isSwiping t) eqn:Hswipe; cbn [fst snd] in *;
    [apply Hsame|].
  destruct (Z.ltb_spec (time - Reader.startTime t) 300) as [Hshort | Hlong];
    cbn [andb fst snd] in *; [|apply Hsame].
  destruct (Num.ltb (NumOps.Math_abs (NumOps.sub currentX (Reader.startX t)))
                    (Num.ofZ 10)); cbn [fst snd] in *; [|apply Hsame].
  destruct (Z.ltb_spec (time - Reader.lastTapTime t) 350) as [Hquick | Hslow];
    cbn [fst snd] in *; [|apply Hsame].
  clear Hsame.
  destruct st as [pb pv bs se]. destruct pb as [cv abi ab ip ci].
  destruct (Num.ltb (Reader.startX t) (Num.div width (Num.ofZ 2)));
    cbn [fst snd].
  - (* the left half: back *)
    unfold FullStore.rewindIndex, FullStore.onPlayback, Store.rewindIndex.
    cbn [FullStore.playback FullStore.books FullStore.settings
         FullStore.previousView Store.activeBook Store.isPlaying
         Store.currentIndex Store.set_currentIndex].
    repeat (split; [reflexivity|]).
    split; [right; repeat (split; [auto; fail|]); now left|].
    split; [intros H0 H350; lia|].
    unfold StoreFacts.positionValid. simpl. intros [H0 Hle].
    split; [lia|]. intros b Hb. specialize (Hle b Hb). lia.
  - (* the right half: ahead *)
    unfold FullStore.setCurrentIndex, FullStore.onPlayback,
      Store.setCurrentIndex.
    cbn [FullStore.playback FullStore.books FullStore.settings
         FullStore.previousView Store.activeBook Store.isPlaying
         Store.currentIndex].
    destruct ab as [book|];
      cbn [Store.set_currentIndex Store.activeBook Store.isPlaying
           Store.currentIndex].
    + repeat (split; [reflexivity|]).
      split; [right; repeat (split; [auto; fail|]); right; exists book;
              split; reflexivity|].
      split; [intros H0 H350; lia|].
      unfold StoreFacts.positionValid, StoreFacts.lastPosition. simpl.
      intros [H0 Hle]. split; [lia|]. intros b Hb. inversion Hb; subst. lia.
    + repeat (split; [reflexivity|]).
      split; [now left|]. split; [reflexivity | exact (fun H => H)].
Qed.

(** A store with the sample text open at its last chunk, and a quick second
    tap on the left half of a screen 400 pixels wide. *)
Definition cityShelf : FullStore.State :=
  FullStore.setCurrentIndex 3
    (FullStore.loadBook
       {| Book.id := ofString "c"; Book.title := ofString "City";
          Book.content := cityText; Book.chunks := cityChunks;
          Book.chapters := None; Book.progressIndex := 0 |}
       FullStore.initial).
Definition secondTap : Reader.Touch :=
  {| Reader.startX := Num.ofZ 10; Reader.startY := Num.ofZ 300;
     Reader.startTime := 1000000; Reader.lastTapTime := 999900;
     Reader.initialWpm := Num.ofZ 350; Reader.isSwiping := false |}.

Lemma double_tap_seeks_once_witness :
  Store.currentIndex
    (FullStore.playback
       (snd (Reader.handleTouchEnd 1000100 (Num.ofZ 12) (Num.ofZ 400)
               secondTap cityShelf))) = 0%Z.
Proof.
  destruct (double_tap_seeks_once 1000100 (Num.ofZ 12) (Num.ofZ 400)
              secondTap cityShelf)
    as [_ [_ [_ [_ [_ [[Hsame | [_ [_ [_ [_ [Hback | Hahead]]]]]] _]]]]]].
  - exfalso.
    apply (f_equal (fun s => Store.currentIndex (FullStore.playback s)))
      in Hsame.
    vm_compute in Hsame. discriminate.
  - exact Hback.
  - exfalso. destruct Hahead as [book [Hb Hi]].
    vm_compute in Hb. inversion Hb; subst book.
    vm_compute in Hi. discriminate.
Defined.
